(** * Dividend-yield service: resilient fetch pipeline and snapshot job

    A shallow embedding of the backend's data fetcher (retrying HTTP client,
    Alpha Vantage fundamentals fetcher, Redis read-through [fetcher], sector
    translation) and of the snapshot job (start guard, per-ticker loop with
    cooperative cancellation, progress checkpoints, final snapshot write),
    followed by the properties established about them.

    Conventions of the embedding
    - A thrown JavaScript value is a [JsError]: the class it is an instance
      of, its [name] and its [message].  Everything thrown is an [Error].
    - Asynchronous code is written in a state-and-exception monad [M] over a
      [World]: the Redis store and the chronological trace of the effects
      issued so far.  Every primitive effect ([fetch], Redis GET/SET,
      [sleep]) is a suspension point: before it takes effect, whatever the
      rest of the process did to the store since the previous effect is
      applied ([interfere]).
    - A string kept in Redis or returned by [fetcher] is represented by the
      value it serialises ([Payload]); [JSON.stringify] and [JSON.parse] are
      the constructors and the matching on them.
    - Numbers that the source computes in floating point and only compares
      with zero or copies ([yield]) are exact rationals.

    Of the HTTP routes, the handlers of GET /api/stocks/:ticker and
    GET /api/stocks/search and the background task of
    POST /api/snapshot/trigger are embedded.  The batch fetcher, the other
    routes, the middleware and the frontend are not: no statement below is
    about them. *)

From Stdlib Require Import ZArith QArith String Ascii List Lia Bool.
From stdpp Require Import base option gmap strings list pretty.

Open Scope string_scope.

(* ------------------------------------------------------------------------- *)
(** ** Types (types.ts) *)

Record StockData := mkStockData {
  ticker : string;
  name : string;
  sector : string;
  yield : Q;
}.

(** Every field of the Alpha Vantage payload is optional. *)
Record AlphaVantageResponse := mkAlphaVantageResponse {
  Symbol : option string;
  Sector : option string;
  DividendYield : option string;
  Note : option string;
  Error_Message : option string;
}.

Module SEC.

(** One value of the SEC ticker object; the object itself is the list of
    its values in [Object.values] order. *)
Record Item := mkItem { cik_str : Z; ticker : string; title : string }.

End SEC.

Definition SECTickerResponse := list SEC.Item.

(** The three custom error classes, and every other [Error]. *)
Inductive ErrorClass :=
| IsRateLimitError
| IsNetworkError
| IsValidationError
| IsOtherError.

Record JsError := mkError {
  eclass : ErrorClass;
  ename : string;
  message : string;
}.

Definition RateLimitError (msg : string) : JsError :=
  mkError IsRateLimitError "RateLimitError" msg.
Definition NetworkError (msg : string) : JsError :=
  mkError IsNetworkError "NetworkError" msg.
Definition ValidationError (msg : string) : JsError :=
  mkError IsValidationError "ValidationError" msg.
(** [new Error(msg)] *)
Definition PlainError (msg : string) : JsError :=
  mkError IsOtherError "Error" msg.

Definition is_RateLimitError (e : JsError) : bool :=
  match eclass e with IsRateLimitError => true | _ => false end.
Definition is_NetworkError (e : JsError) : bool :=
  match eclass e with IsNetworkError => true | _ => false end.
Definition is_ValidationError (e : JsError) : bool :=
  match eclass e with IsValidationError => true | _ => false end.

(** JavaScript truthiness of a possibly missing string. *)
Definition truthy (o : option string) : bool :=
  match o with
  | Some s => negb (s =? "")
  | None => false
  end.

(* ------------------------------------------------------------------------- *)
(** ** Sector translation (dataFetcher.ts) *)

Definition lower_ascii (c : ascii) : ascii :=
  let n := nat_of_ascii c in
  if (65 <=? n)%nat && (n <=? 90)%nat then ascii_of_nat (n + 32) else c.

(** [String.prototype.toLowerCase] on the UTF-8 bytes of the string: ASCII
    capitals are lowered, every other byte is kept.  The only non-ASCII
    character whose lower case is a single ASCII letter is the Kelvin sign
    (to [k]), and no sector key below contains a [k], so the comparison
    with the keys is the one JavaScript makes. *)
Fixpoint toLowerCase (s : string) : string :=
  match s with
  | EmptyString => EmptyString
  | String c rest => String (lower_ascii c) (toLowerCase rest)
  end.

(** The [switch]: case labels are tried in the order written, so the second
    ["basic materials"] label can never be selected. *)
Definition getSectorTranslation (sector : string) : string :=
  let s := toLowerCase sector in
  if (s =? "technology") || (s =? "industrials") || (s =? "basic materials")
  then "Manufacturing"
  else if (s =? "healthcare") || (s =? "financial services")
          || (s =? "communication services")
  then "Services"
  else if (s =? "basic materials")
  then "Agriculture"
  else if (s =? "consumer cyclical") || (s =? "consumer defensive")
  then "Retail"
  else if (s =? "real estate")
  then "Property"
  else if (s =? "utilities") || (s =? "energy")
  then "Energy"
  else "Unknown".

(** The six labels of the taxonomy. *)
Definition sector_labels : list string :=
  ["Manufacturing"; "Services"; "Agriculture"; "Retail"; "Property"; "Energy"].

(* ------------------------------------------------------------------------- *)
(** ** HTTP, Redis and the world they live in *)

Definition RequestInit := list (string * string).

Record Response := mkResponse {
  status : Z;
  statusText : string;
  (** [response.headers.get('Retry-After')] *)
  retryAfter : option string;
  body : string;
}.

(** [response.ok] *)
Definition ok (r : Response) : bool :=
  (200 <=? status r)%Z && (status r <=? 299)%Z.

Record JobProgress := mkJobProgress {
  completed : nat;
  total : nat;
  (** absent when the field was [undefined] at [JSON.stringify] *)
  startedAt : option string;
  estimatedMinutes : Z;
}.

(** A Redis string, by what it serialises.  [PText] is a string stored as
    is (the job status words, or the empty string); the others stand for
    the [JSON.stringify] of the value they carry. *)
Inductive Payload :=
| PText (s : string)
| PTickers (tickers : list string)
| PStock (d : StockData)
| PSnapshot (entries : list StockData)
| PProgress (p : JobProgress)
| PErrorBody (error msg : string).

(** Truthiness of a string returned by Redis: only the empty string is
    falsy (a JSON text is never empty). *)
Definition truthy_payload (p : Payload) : bool :=
  match p with
  | PText s => negb (s =? "")
  | _ => true
  end.

(** The store: values with the expiry they were written with, and whether
    the server can be reached.  When it cannot, each command rejects with
    the client library's error, of the given name and message. *)
Record Redis := mkRedis {
  db : gmap string (Payload * option Z);
  fault : option (string * string);
}.

Inductive Event :=
| EFetch (url : string)
| ESleep (ms : option Z)
| EGet (key : string)
| ESet (key : string) (value : Payload) (EX : option Z).

Record World := mkWorld {
  redis : Redis;
  trace : list Event;
}.

(** What the code cannot decide: the network, the rest of the process, the
    clock, the random generator, the JavaScript built-ins that are not
    modelled, and the configuration read at module load.  Oracles are
    indexed by the number of effects issued before the question. *)
Record Env := mkEnv {
  network : nat -> string -> RequestInit -> JsError + Response;
  interfere : nat -> Redis -> Redis;
  (** [Math.random() * 1000], of which the whole milliseconds are kept: a
      backoff delay is only handed to [sleep], and no statement below is
      about its value *)
  random_ms : nat -> Z;
  (** [new Date().toISOString()] *)
  clock : nat -> string;
  (** [res.json()] at the two response types *)
  json_overview : Response -> JsError + AlphaVantageResponse;
  json_tickers : Response -> JsError + SECTickerResponse;
  (** [None] is [NaN] *)
  parseInt : string -> option Z;
  parseFloat : string -> option Q;
  encodeURIComponent : string -> string;
  config_alphaVantageAPIKey : option string;
  env_ALPHA_VANTAGE_API_KEY : option string;
  REQUESTS_PER_MINUTE : Z;
  MS_PER_REQUEST : Z;
}.

(** *** The monad *)

Definition M (A : Type) : Type := World -> (JsError + A) * World.

Definition ret {A} (a : A) : M A := fun w => (inr a, w).

Definition throw {A} (e : JsError) : M A := fun w => (inl e, w).

Definition bind {A B} (m : M A) (k : A -> M B) : M B :=
  fun w =>
    match m w with
    | (inr a, w') => k a w'
    | (inl e, w') => (inl e, w')
    end.

Definition try_catch {A} (m : M A) (handler : JsError -> M A) : M A :=
  fun w =>
    match m w with
    | (inl e, w') => handler e w'
    | r => r
    end.

(** A synchronous computation that may throw. *)
Definition lift {A} (r : JsError + A) : M A :=
  match r with
  | inl e => throw e
  | inr a => ret a
  end.

Declare Scope job_scope.
Delimit Scope job_scope with job.
Notation "'let!' x := m 'in' k" := (bind m (fun x => k))
  (at level 10, x name, m at level 100, k at level 200) : job_scope.
Notation "m ;; k" := (bind m (fun _ => k))
  (at level 100, k at level 200, right associativity) : job_scope.
Open Scope job_scope.

(** The events a computation adds to a trace. *)
Definition emitted {A} (m : M A) (w : World) : list Event :=
  drop (length (trace w)) (trace (snd (m w))).

Definition fetches (tr : list Event) : list string :=
  omap (fun e => match e with EFetch url => Some url | _ => None end) tr.

Definition writes_to (key : string) (tr : list Event) : list Payload :=
  omap (fun e => match e with
                 | ESet k v _ => if k =? key then Some v else None
                 | _ => None
                 end) tr.

(** How the [try] block of one attempt ends when it does not throw. *)
Inductive Flow (T : Type) :=
| Return (v : T)
| Continue.
Arguments Return {T} v.
Arguments Continue {T}.

(* ------------------------------------------------------------------------- *)
(** ** The pipeline, in a fixed environment *)

Section Pipeline.

Variable env : Env.

(** *** Primitive effects *)

(** The store as the next effect finds it. *)
Definition observed (w : World) : Redis :=
  interfere env (length (trace w)) (redis w).

(** The world once effect [e] has been issued. *)
Definition after (w : World) (e : Event) : World :=
  {| redis := observed w; trace := trace w ++ [e] |}.

(** A suspension point: the store is first brought up to date with what
    happened elsewhere, then the effect is recorded. *)
Definition suspend (e : Event) : M unit :=
  fun w => (inr tt, after w e).

(** The world after a run of effects that do not write to the store. *)
Definition advance (w : World) (evs : list Event) : World :=
  fold_left after evs w.

Definition redis_error (f : string * string) : JsError :=
  mkError IsOtherError (fst f) (snd f).

(** [redisClient.get(key)] *)
Definition redis_get (key : string) : M (option Payload) :=
  suspend (EGet key) ;;
  fun w =>
    match fault (redis w) with
    | Some f => (inl (redis_error f), w)
    | None => (inr (fst <$> db (redis w) !! key), w)
    end.

(** [redisClient.set(key, value)] and [redisClient.set(key, value, {EX})]:
    always overwrites. *)
Definition redis_set (key : string) (value : Payload) (EX : option Z) : M unit :=
  suspend (ESet key value EX) ;;
  fun w =>
    match fault (redis w) with
    | Some f => (inl (redis_error f), w)
    | None =>
        (inr tt,
         {| redis := {| db := <[key := (value, EX)]> (db (redis w));
                        fault := None |};
            trace := trace w |})
    end.

(** [sleep(ms)]; [None] is a [NaN] delay. *)
Definition sleep (ms : option Z) : M unit := suspend (ESleep ms).

(** The global [fetch]: resolves with a response or rejects. *)
Definition fetch (url : string) (options : RequestInit) : M Response :=
  fun w =>
    (suspend (EFetch url) ;;
     lift (network env (length (trace w)) url options)) w.

Definition Math_random_ms : M Z :=
  fun w => (inr (random_ms env (length (trace w))), w).

Definition Date_now_ISO : M string :=
  fun w => (inr (clock env (length (trace w))), w).

(** *** dataFetcher.ts *)

Definition TICKER_EXPIRY_TIME : Z := 1209600.
Definition STOCK_DATA_EXPIRY_TIME : Z := 3600.
Definition MAX_RETRIES : nat := 3.
Definition INITIAL_RETRY_DELAY : Z := 1000.
Definition MAX_RETRY_DELAY : Z := 10000.
Definition REQUEST_TIMEOUT : Z := 10000.

Definition getRetryDelay (attempt : nat) : M Z :=
  let delay :=
    Z.min (INITIAL_RETRY_DELAY * 2 ^ Z.of_nat attempt) MAX_RETRY_DELAY in
  let! jitter := Math_random_ms in
  ret (delay + jitter)%Z.

(** The abort of the timeout controller shows as a rejection named
    [AbortError]; whether it fires is the network's word. *)
Definition fetchWithTimeout (url : string) (options : RequestInit) : M Response :=
  try_catch (fetch url options)
    (fun error =>
       if ename error =? "AbortError"
       then throw (NetworkError "Request timeout")
       else throw error).

Section Retry.

Context {T : Type}.
Variable url : string.
Variable options : RequestInit.
Variable parseResponse : Response -> JsError + T.
Variable maxRetries : nat.

(** The [try] block of the loop body. *)
Definition attempt_try (attempt : nat) : M (Flow T) :=
  let! response := fetchWithTimeout url options in
  if (status response =? 429)%Z then
    let! delay :=
      (if truthy (retryAfter response)
       then ret ((fun n => n * 1000)%Z <$> (retryAfter response ≫= parseInt env))
       else let! d := getRetryDelay attempt in ret (Some d)) in
    if (attempt <? maxRetries)%nat
    then sleep delay ;; ret Continue
    else throw (RateLimitError "API rate limit exceeded")
  else if (500 <=? status response)%Z && (status response <? 600)%Z then
    if (attempt <? maxRetries)%nat
    then let! delay := getRetryDelay attempt in
         sleep (Some delay) ;; ret Continue
    else throw (NetworkError ("Server error: " ++ pretty (status response)))
  else if (400 <=? status response)%Z && (status response <? 500)%Z then
    throw (ValidationError ("Client error: " ++ pretty (status response)
                            ++ " - " ++ statusText response))
  else if ok response then
    let! v := lift (parseResponse response) in ret (Return v)
  else throw (NetworkError ("Unexpected status: " ++ pretty (status response))).

(** The test of the [catch] block: errors that are thrown on at once. *)
Definition not_retried (error : JsError) : bool :=
  is_ValidationError error
  || is_RateLimitError error
  || (negb (ename error =? "NetworkError")
      && negb (message error =? "Request timeout")).

(** The [catch] block. *)
Definition attempt_catch (attempt : nat) (error : JsError) : M unit :=
  if not_retried error then throw error
  else if (attempt <? maxRetries)%nat
       then let! delay := getRetryDelay attempt in sleep (Some delay)
       else ret tt.

(** The [for] loop from [attempt], with [remaining] iterations to go, and
    the [throw] that follows it. *)
Fixpoint retry_loop (remaining attempt : nat) (lastError : option JsError) : M T :=
  match remaining with
  | O => throw (default (NetworkError "Max retries exceeded") lastError)
  | S remaining' =>
      let! step :=
        try_catch
          (let! flow := attempt_try attempt in ret (flow, lastError))
          (fun error => attempt_catch attempt error ;; ret (Continue, Some error)) in
      match step with
      | (Return v, _) => ret v
      | (Continue, lastError') => retry_loop remaining' (S attempt) lastError'
      end
  end.

Definition fetchWithRetry : M T := retry_loop (S maxRetries) 0 None.

End Retry.

Definition fetchTickers : M (list string) :=
  let! response :=
    fetchWithRetry "https://www.sec.gov/files/company_tickers.json"
      [("User-Agent", "Sample Company Name AdminContact@gmail.com");
       ("Accept", "application/json")]
      (json_tickers env) MAX_RETRIES in
  ret (SEC.ticker <$> response).

Definition overview_url (ticker : string) : string :=
  "https://www.alphavantage.co/query?function=OVERVIEW&symbol="
  ++ encodeURIComponent env ticker ++ "&apikey="
  ++ default "undefined" (env_ALPHA_VANTAGE_API_KEY env).

Definition fetchStockFundamentals (ticker : string) : M StockData :=
  if negb (truthy (config_alphaVantageAPIKey env)) then
    throw (PlainError "ALPHA_VANTAGE_API_KEY environment variable not set")
  else
    let! response :=
      fetchWithRetry (overview_url ticker) [("Accept", "application/json")]
        (json_overview env) MAX_RETRIES in
    if truthy (Error_Message response) then
      throw (ValidationError ("Invalid ticker symbol: " ++ ticker))
    else if truthy (Note response) then
      throw (RateLimitError "Alpha Vantage API rate limit reached")
    else
      match Symbol response with
      | Some symbol =>
          if symbol =? "" then
            throw (ValidationError ("No data found for ticker: " ++ ticker))
          else
            let dividendYield : Q :=
              match DividendYield response with
              | Some dy =>
                  if negb (dy =? "") && negb (dy =? "None") && negb (dy =? "-")
                  then match parseFloat env dy with
                       | Some parsed => (parsed * 100)%Q
                       | None => 0%Q
                       end
                  else 0%Q
              | None => 0%Q
              end in
            ret {| ticker := symbol;
                   name := symbol;
                   sector := match Sector response with
                             | Some s => if s =? "" then "Unknown"
                                         else getSectorTranslation s
                             | None => "Unknown"
                             end;
                   yield := dividendYield |}
      | None => throw (ValidationError ("No data found for ticker: " ++ ticker))
      end.

(** The [catch] of [fetcher]: every error becomes a structured payload. *)
Definition fetcher_catch (error : JsError) : M Payload :=
  if is_RateLimitError error then
    ret (PErrorBody "RATE_LIMIT" "API rate limit exceeded. Please try again later.")
  else if is_ValidationError error then
    ret (PErrorBody "VALIDATION_ERROR" (message error))
  else if is_NetworkError error then
    ret (PErrorBody "NETWORK_ERROR" "Network error occurred. Please try again.")
  else
    ret (PErrorBody "UNKNOWN_ERROR" "An unexpected error occurred.").

(** What [fetcher] does on a cache miss. *)
Definition fetcher_miss (key : string) : M Payload :=
  if key =? "tickers" then
    let! tickers := fetchTickers in
    redis_set "tickers" (PTickers tickers) (Some TICKER_EXPIRY_TIME) ;;
    ret (PTickers tickers)
  else
    let! stockData := fetchStockFundamentals key in
    redis_set key (PStock stockData) (Some STOCK_DATA_EXPIRY_TIME) ;;
    ret (PStock stockData).

Definition fetcher (key : string) : M Payload :=
  try_catch
    (if key =? "" then throw (ValidationError "Invalid key provided")
     else
       let! cachedValue := redis_get key in
       match cachedValue with
       | Some v => if truthy_payload v then ret v else fetcher_miss key
       | None => fetcher_miss key
       end)
    fetcher_catch.

End Pipeline.

(* ------------------------------------------------------------------------- *)
(** ** snapshotJob.ts *)

Definition SNAPSHOT_KEY : string := "snapshot:all".
Definition JOB_STATUS_KEY : string := "snapshot:job:status".
Definition JOB_PROGRESS_KEY : string := "snapshot:job:progress".
Definition SNAPSHOT_EXPIRY : Z := 24 * 60 * 60.

(** [Math.ceil(a / b)] on integers, for a divisor other than zero. *)
Definition ceil_div (a b : Z) : Z := (- ((- a) / b))%Z.

(** A [JSON.parse] that fails; the message is the engine's. *)
Definition JSON_SyntaxError : JsError :=
  mkError IsOtherError "SyntaxError" "Unexpected token in JSON".

Definition dquote : string := String (ascii_of_nat 34) EmptyString.

(** How a run ends.  The source returns nothing at each of these places;
    the tag and the final counters are kept for the statements below. *)
Inductive LoopEnd :=
| Cancelled
| Finished (completed failed : nat) (snapshot : list StockData).

Inductive JobEnd :=
| JobSkipped
| JobCancelled
| JobDone (completed failed : nat) (snapshot : list StockData).

(** [data.yield > 0] *)
Definition pays_dividend (data : StockData) : bool :=
  negb (Qle_bool (yield data) 0).

Section SnapshotJob.

Variable env : Env.

(** [JSON.parse(raw) as string[]].  A stored value of another JSON shape is
    outside the asserted type; the embedding rejects it here. *)
Definition getAllTickers : M (list string) :=
  let! raw := redis_get env "tickers" in
  match raw with
  | None | Some (PText "") =>
      throw (PlainError ("Tickers not in cache. Run fetcher(" ++ dquote
                         ++ "tickers" ++ dquote ++ ", ...) first."))
  | Some (PTickers tickers) => ret tickers
  | Some (PText _) => throw JSON_SyntaxError
  | Some _ => throw (mkError IsOtherError "TypeError" "tickers is not iterable")
  end.

(** [(JSON.parse(raw ?? '{}') as JobProgress).startedAt] *)
Definition read_startedAt (raw : option Payload) : JsError + option string :=
  match raw with
  | None => inr None
  | Some (PProgress p) => inr (startedAt p)
  | Some (PText _) => inl JSON_SyntaxError
  | Some _ => inr None
  end.

(** The progress write inside the loop. *)
Definition checkpoint (total completed failed : nat) : M unit :=
  let remaining := (Z.of_nat total - Z.of_nat completed - Z.of_nat failed)%Z in
  let estimatedMinutes := ceil_div remaining (REQUESTS_PER_MINUTE env) in
  let! raw := redis_get env JOB_PROGRESS_KEY in
  let! started := lift (read_startedAt raw) in
  redis_set env JOB_PROGRESS_KEY
    (PProgress {| completed := completed;
                  total := total;
                  startedAt := started;
                  estimatedMinutes := estimatedMinutes |})
    None.

Definition is_running (status : option Payload) : bool :=
  match status with
  | Some (PText s) => s =? "running"
  | _ => false
  end.

(** The [try]/[catch] around the fetch: the counters and the snapshot after
    it.  Whatever the fetch throws is caught. *)
Definition process_ticker (ticker : string) (completed failed : nat)
    (snapshot : list StockData) : M (nat * nat * list StockData) :=
  try_catch
    (let! data := fetchStockFundamentals env ticker in
     let snapshot' :=
       if pays_dividend data then (snapshot ++ [data])%list else snapshot in
     ret (S completed, failed, snapshot'))
    (fun err => ret (completed, S failed, snapshot)).

(** The guarded progress write. *)
Definition update_progress (total completed failed : nat) : M unit :=
  if (completed mod 50 =? 0)%nat || (completed =? total)%nat
  then checkpoint total completed failed
  else ret tt.

(** The [for ... of] loop over the tickers still to process. *)
Fixpoint job_loop (tickers : list string) (total completed failed : nat)
    (snapshot : list StockData) : M LoopEnd :=
  match tickers with
  | [] => ret (Finished completed failed snapshot)
  | ticker :: rest =>
      let! status := redis_get env JOB_STATUS_KEY in
      if negb (is_running status) then ret Cancelled
      else
        let! counters := process_ticker ticker completed failed snapshot in
        let '(completed', failed', snapshot') := counters in
        update_progress total completed' failed' ;;
        sleep env (Some (MS_PER_REQUEST env)) ;;
        job_loop rest total completed' failed' snapshot'
  end.

(** What follows the loop. *)
Definition persist (r : LoopEnd) : M JobEnd :=
  match r with
  | Cancelled => ret JobCancelled
  | Finished completed failed snapshot =>
      redis_set env SNAPSHOT_KEY (PSnapshot snapshot) (Some SNAPSHOT_EXPIRY) ;;
      redis_set env JOB_STATUS_KEY (PText "idle") None ;;
      ret (JobDone completed failed snapshot)
  end.

Definition runSnapshotJob : M JobEnd :=
  let! currentStatus := redis_get env JOB_STATUS_KEY in
  if is_running currentStatus then ret JobSkipped
  else
    let! tickers := getAllTickers in
    let total := length tickers in
    redis_set env JOB_STATUS_KEY (PText "running") None ;;
    let! started := Date_now_ISO env in
    redis_set env JOB_PROGRESS_KEY
      (PProgress {| completed := 0;
                    total := total;
                    startedAt := Some started;
                    estimatedMinutes :=
                      ceil_div (Z.of_nat total) (REQUESTS_PER_MINUTE env) |})
      None ;;
    let! r := job_loop tickers total 0 0 [] in
    persist r.

(** [(await redisClient.get(JOB_STATUS_KEY)) ?? 'idle'] *)
Definition getJobStatus : M Payload :=
  let! status := redis_get env JOB_STATUS_KEY in
  ret (default (PText "idle") status).

Definition cancelJob : M unit :=
  redis_set env JOB_STATUS_KEY (PText "idle") None.

End SnapshotJob.

(* ------------------------------------------------------------------------- *)
(** ** Vocabulary of the statements *)

(** Nothing but the code under study writes to the store. *)
Definition quiet (env : Env) : Prop :=
  forall n r, interfere env n r = r.

(** Effects of the HTTP client: requests and pauses. *)
Definition is_client_event (e : Event) : bool :=
  match e with
  | EFetch _ | ESleep _ => true
  | _ => false
  end.

(** A computation whose only effects are requests and pauses. *)
Definition client_only (env : Env) {A} (m : M A) : Prop :=
  forall w, exists evs,
    forallb is_client_event evs = true /\ snd (m w) = advance env w evs.

(** The first effect of [m] is [e], and [m] never writes to the store. *)
Definition starts_with (env : Env) {A} (e : Event) (m : M A) : Prop :=
  forall w, exists evs, snd (m w) = advance env w (e :: evs).

(** Wherever [m] starts, it adds to the trace a run of events that,
    together with its outcome, satisfies [Q]. *)
Definition yields {A} (m : M A) (Q : JsError + A -> list Event -> Prop) : Prop :=
  forall w, exists evs,
    trace (snd (m w)) = (trace w ++ evs)%list /\ Q (fst (m w)) evs.

(** From [w], [m] ends with outcome [r] and leaves a store that
    satisfies [P]. *)
Definition ends {A} (m : M A) (w : World) (r : JsError + A)
    (P : Redis -> Prop) : Prop :=
  fst (m w) = r /\ P (redis (snd (m w))).

(** The store can be reached and says the job is running. *)
Definition running_store (R : Redis) : Prop :=
  fault R = None
  /\ db R !! JOB_STATUS_KEY = Some (PText "running", None).

(** Progress records written, in order. *)
Definition checkpoints (tr : list Event) : list JobProgress :=
  omap (fun v => match v with PProgress p => Some p | _ => None end)
       (writes_to JOB_PROGRESS_KEY tr).

(** [l] never goes down, starting no lower than [lo]. *)
Fixpoint climbs_from (lo : nat) (l : list nat) : Prop :=
  match l with
  | [] => True
  | x :: l' => lo <= x /\ climbs_from x l'
  end.

(** A stretch of the job that starts with [c] symbols completed is tidy
    when it writes no snapshot and its progress records never go down,
    start no lower than [c] and stay within their [total]. *)
Definition tidy (c : nat) (evs : list Event) : Prop :=
  writes_to SNAPSHOT_KEY evs = []
  /\ climbs_from c (completed <$> checkpoints evs)
  /\ Forall (fun p => completed p <= total p) (checkpoints evs).

(** The value and expiry stored under a key. *)
Definition stored (w : World) (key : string) : option (Payload * option Z) :=
  db (redis w) !! key.

(* ------------------------------------------------------------------------- *)
(** ** Scenarios *)

Definition demo_url (symbol : string) : string :=
  "https://www.alphavantage.co/query?function=OVERVIEW&symbol=" ++ symbol
  ++ "&apikey=demo".

(** An environment given by its network, its overview decoder and what the
    rest of the process does; everything else is fixed. *)
Definition scenario
    (net : nat -> string -> RequestInit -> JsError + Response)
    (json : Response -> JsError + AlphaVantageResponse)
    (others : nat -> Redis -> Redis) : Env :=
  {| network := net;
     interfere := others;
     random_ms := fun _ => 0%Z;
     clock := fun _ => "2025-01-01T00:00:00.000Z";
     json_overview := json;
     json_tickers := fun _ => inl JSON_SyntaxError;
     parseInt := fun _ => None;
     parseFloat := fun s => if s =? "0.04" then Some (4 # 100)%Q else None;
     encodeURIComponent := fun s => s;
     config_alphaVantageAPIKey := Some "demo";
     env_ALPHA_VANTAGE_API_KEY := Some "demo";
     REQUESTS_PER_MINUTE := 60;
     MS_PER_REQUEST := 1000 |}.

(** Alpha Vantage knows AAA, which yields 4%, and answers an error payload
    for BBB. *)
Definition demo_network (_ : nat) (url : string) (_ : RequestInit)
  : JsError + Response :=
  if url =? demo_url "AAA" then inr (mkResponse 200 "OK" None "AAA")
  else if url =? demo_url "BBB" then inr (mkResponse 200 "OK" None "BBB")
  else inr (mkResponse 404 "Not Found" None "").

Definition demo_json (r : Response) : JsError + AlphaVantageResponse :=
  if body r =? "AAA" then
    inr (mkAlphaVantageResponse (Some "AAA") (Some "Technology") (Some "0.04")
           None None)
  else if body r =? "BBB" then
    inr (mkAlphaVantageResponse None None None None (Some "Invalid API call."))
  else inl JSON_SyntaxError.

Definition nobody (_ : nat) (r : Redis) : Redis := r.

Definition demo_env : Env := scenario demo_network demo_json nobody.

Definition AAA_record : StockData :=
  {| ticker := "AAA"; name := "AAA"; sector := "Manufacturing";
     yield := (4 # 100) * 100 |}.

Definition world_of (entries : list (string * (Payload * option Z))) : World :=
  {| redis := {| db := list_to_map entries; fault := None |}; trace := [] |}.

(** The universe is AAA and BBB; nothing else is cached. *)
Definition two_tickers : World :=
  world_of [("tickers", (PTickers ["AAA"; "BBB"], Some TICKER_EXPIRY_TIME))].

(** The universe is AAA, whose record is already in the cache. *)
Definition AAA_cached : World :=
  world_of [("tickers", (PTickers ["AAA"], Some TICKER_EXPIRY_TIME));
            ("AAA", (PStock AAA_record, Some STOCK_DATA_EXPIRY_TIME))].

(** The universe is AAA alone. *)
Definition one_ticker : World :=
  world_of [("tickers", (PTickers ["AAA"], Some TICKER_EXPIRY_TIME))].


(** The Redis server cannot be reached. *)
Definition unreachable : World :=
  {| redis := {| db := ∅; fault := Some ("Error", "connect ECONNREFUSED") |};
     trace := [] |}.

(** A server that answers 503 to everything. *)
Definition always_503 (_ : nat) (_ : string) (_ : RequestInit)
  : JsError + Response :=
  inr (mkResponse 503 "Service Unavailable" None "").

(** A 200 whose body is not JSON. *)
Definition garbled_network (_ : nat) (_ : string) (_ : RequestInit)
  : JsError + Response :=
  inr (mkResponse 200 "OK" None "<html>").

Definition garbled_json (_ : Response) : JsError + AlphaVantageResponse :=
  inl JSON_SyntaxError.

(* ------------------------------------------------------------------------- *)
(** ** The rest of snapshotJob.ts, and the routes that call the pipeline *)

(** [JSON.parse] of a Redis string: the value it denotes, or a
    [SyntaxError] for a string stored as is. *)
Definition JSON_parse (raw : Payload) : JsError + Payload :=
  match raw with
  | PText _ => inl JSON_SyntaxError
  | v => inr v
  end.

(** What a route sends: the status code and the JSON body.  [RSuccess] is
    [{success: true, data}], [RMatches] is [{success: true, data, count}],
    [RError] is an [{error, message}] object. *)
Inductive ReplyBody :=
| RSuccess (data : Payload)
| RMatches (data : list string) (count : nat)
| RError (error msg : string).

Record Reply := mkReply {
  code : Z;
  sent : ReplyBody;
}.

(** [array.slice(0, end)]: a [NaN] end is 0, a negative end counts from the
    back, an end past the array stops at its length. *)
Definition slice_to {A} (l : list A) (end_ : option Z) : list A :=
  match end_ with
  | None => []
  | Some e =>
      if (e <? 0)%Z
      then take (Z.to_nat (Z.max (Z.of_nat (length l) + e) 0)) l
      else take (Z.to_nat e) l
  end.

Section Callers.

Variable env : Env.

(** [raw ? (JSON.parse(raw) as JobProgress) : null]; the cast checks
    nothing, so the value is returned whatever its shape. *)
Definition getJobProgress : M (option Payload) :=
  let! raw := redis_get env JOB_PROGRESS_KEY in
  match raw with
  | None => ret None
  | Some v =>
      if truthy_payload v then let! p := lift (JSON_parse v) in ret (Some p)
      else ret None
  end.

(** [raw ? (JSON.parse(raw) as SnapshotEntry[]) : null] *)
Definition getSnapshot : M (option Payload) :=
  let! raw := redis_get env SNAPSHOT_KEY in
  match raw with
  | None => ret None
  | Some v =>
      if truthy_payload v then let! p := lift (JSON_parse v) in ret (Some p)
      else ret None
  end.

(** The background task of POST /api/snapshot/trigger:
    [runSnapshotJob(redisClient).catch(err => { ...;
    redisClient.set('snapshot:job:status', 'failed') })]. *)
Definition triggered_run : M unit :=
  try_catch
    (runSnapshotJob env ;; ret tt)
    (fun err => redis_set env JOB_STATUS_KEY (PText "failed") None).

(** The nested conditional of GET /api/stocks/:ticker. *)
Definition statusCode (error : string) : Z :=
  if error =? "RATE_LIMIT" then 429
  else if error =? "VALIDATION_ERROR" then 404
  else if error =? "NETWORK_ERROR" then 503
  else 500.

(** The handler of GET /api/stocks/:ticker. *)
Definition route_stock (ticker : string) : M Reply :=
  try_catch
    (let! dataJSON := fetcher env ticker in
     let! data := lift (JSON_parse dataJSON) in
     match data with
     | PErrorBody error msg =>
         if negb (error =? "")
         then ret (mkReply (statusCode error) (RError error msg))
         else ret (mkReply 200 (RSuccess data))
     | _ => ret (mkReply 200 (RSuccess data))
     end)
    (fun error =>
       ret (mkReply 500 (RError "INTERNAL_ERROR" "Failed to fetch stock data"))).

Section Search.

(** [String.prototype.toUpperCase], [String.prototype.trim] and
    [parseInt(s, 10)] ([None] is [NaN]). *)
Variable toUpperCase : string -> string.
Variable trim : string -> string.
Variable parseInt10 : string -> option Z.

(** [allTickers.filter(t => t.startsWith(searchQuery)).slice(0, maxResults)] *)
Definition matchingTickers (allTickers : list string) (q limit : string)
  : list string :=
  let searchQuery := trim (toUpperCase q) in
  let maxResults := (fun n => Z.min n 100) <$> parseInt10 limit in
  slice_to (filter (fun t => String.prefix searchQuery t = true) allTickers)
    maxResults.

(** The handler of GET /api/stocks/search.  [q] is [None] when the query
    parameter is missing or not a string; [limit] is [None] when it is
    missing, and then defaults to '50'. *)
Definition route_search (q limit : option string) : M Reply :=
  try_catch
    (if negb (truthy q) then
       ret (mkReply 400
              (RError "VALIDATION_ERROR"
                 ("Query parameter " ++ dquote ++ "q" ++ dquote ++ " is required")))
     else
       let! tickersJSON := fetcher env "tickers" in
       let! allTickers := lift (JSON_parse tickersJSON) in
       match allTickers with
       | PTickers l =>
           let found := matchingTickers l (default "" q) (default "50" limit) in
           ret (mkReply 200 (RMatches found (length found)))
       | PSnapshot [] => ret (mkReply 200 (RMatches [] 0))
       | _ => throw (mkError IsOtherError "TypeError"
                       "allTickers.filter is not a function")
       end)
    (fun error =>
       ret (mkReply 500 (RError "INTERNAL_ERROR" "Failed to search tickers"))).

End Search.

End Callers.

(* ------------------------------------------------------------------------- *)
(** ** More vocabulary *)

(** The records of the tickers whose fetch succeeds, in universe order. *)
Definition successes (outcome : string -> JsError + StockData)
    (tickers : list string) : list StockData :=
  omap (fun t => match outcome t with inr d => Some d | inl _ => None end)
       tickers.

(** Each ticker's fetch has one outcome, whenever it is made. *)
Definition settled (env : Env) (outcome : string -> JsError + StockData)
    (tickers : list string) : Prop :=
  forall t, In t tickers ->
  forall w, fst (fetchStockFundamentals env t w) = outcome t.

(** The store of a run in flight: reachable, status "running", and a
    progress record that carries the run's [startedAt] and [total]. *)
Definition job_store (started : string) (tot : nat) (R : Redis) : Prop :=
  fault R = None
  /\ db R !! JOB_STATUS_KEY = Some (PText "running", None)
  /\ exists p, db R !! JOB_PROGRESS_KEY = Some (PProgress p, None)
               /\ startedAt p = Some started /\ total p = tot.

(** The store a finished run leaves. *)
Definition finished_store (started : string) (tot : nat)
    (snapshot : list StockData) (R : Redis) : Prop :=
  fault R = None
  /\ db R !! SNAPSHOT_KEY = Some (PSnapshot snapshot, Some SNAPSHOT_EXPIRY)
  /\ db R !! JOB_STATUS_KEY = Some (PText "idle", None)
  /\ exists p, db R !! JOB_PROGRESS_KEY = Some (PProgress p, None)
               /\ startedAt p = Some started /\ total p = tot.

(** The status words a run may have written when it ends with [out]. *)
Definition status_log (out : JsError + JobEnd) (evs : list Event) : Prop :=
  match out with
  | inr JobSkipped => writes_to JOB_STATUS_KEY evs = []
  | inr JobCancelled => writes_to JOB_STATUS_KEY evs = [PText "running"]
  | inr (JobDone _ _ _) =>
      writes_to JOB_STATUS_KEY evs = [PText "running"; PText "idle"]
  | inl _ =>
      writes_to JOB_STATUS_KEY evs = []
      \/ writes_to JOB_STATUS_KEY evs = [PText "running"]
      \/ writes_to JOB_STATUS_KEY evs = [PText "running"; PText "idle"]
  end.

(** No event of [tr] is a write. *)
Definition writes_nothing (tr : list Event) : Prop :=
  forall key, writes_to key tr = [].

(* ------------------------------------------------------------------------- *)
(** ** Store failures *)

(** Commands sent to the store. *)
Definition is_store_command (e : Event) : bool :=
  match e with
  | EGet _ | ESet _ _ _ => true
  | _ => false
  end.

(** The world one effect later: the store is brought up to date, the effect
    is recorded and, when it is a SET that the store accepts, the value is
    written.  This is what [redis_get], [redis_set], [sleep] and [fetch] do
    to the world. *)
Definition effect (env : Env) (w : World) (e : Event) : World :=
  match e, fault (observed env w) with
  | ESet key value EX, None =>
      {| redis := {| db := <[key := (value, EX)]> (db (observed env w));
                     fault := None |};
         trace := trace w ++ [e] |}
  | _, _ => after env w e
  end.

(** The world after a run of effects. *)
Definition replay (env : Env) (w : World) (evs : list Event) : World :=
  fold_left (effect env) evs w.

(** The store, out of reach with fault [f], refuses the command [e] issued
    from [w]. *)
Definition store_refuses (env : Env) (w : World) (e : Event)
    (f : string * string) : Prop :=
  is_store_command e = true /\ fault (observed env w) = Some f.

(** [m] passes every store failure on.  A run of [m] leaves the world its
    effects make, one after the other; and whenever the store refuses one
    of its commands, whichever it is and however far into the run, the run
    rejects with the store's error and that command is its last effect. *)
Definition passes_on (env : Env) {A} (m : M A) : Prop :=
  forall w,
    snd (m w) = replay env w (emitted m w)
    /\ forall i e f,
         emitted m w !! i = Some e ->
         store_refuses env (replay env w (take i (emitted m w))) e f ->
         fst (m w) = inl (redis_error f) /\ length (emitted m w) = S i.

(* ------------------------------------------------------------------------- *)
(** ** More scenarios *)

(** An environment given in full but for the clock, the random generator
    and the rates. *)
Definition scenario_with
    (net : nat -> string -> RequestInit -> JsError + Response)
    (json : Response -> JsError + AlphaVantageResponse)
    (json_sec : Response -> JsError + SECTickerResponse)
    (parse_int : string -> option Z)
    (key : option string) : Env :=
  {| network := net;
     interfere := nobody;
     random_ms := fun _ => 250%Z;
     clock := fun _ => "2025-01-01T00:00:00.000Z";
     json_overview := json;
     json_tickers := json_sec;
     parseInt := parse_int;
     parseFloat := fun s => if s =? "0.04" then Some (4 # 100)%Q else None;
     encodeURIComponent := fun s => s;
     config_alphaVantageAPIKey := key;
     env_ALPHA_VANTAGE_API_KEY := key;
     REQUESTS_PER_MINUTE := 60;
     MS_PER_REQUEST := 1000 |}.

Definition no_sec (_ : Response) : JsError + SECTickerResponse :=
  inl JSON_SyntaxError.

Definition no_int (_ : string) : option Z := None.

(** A server that answers 429 with [Retry-After: 2] to everything. *)
Definition always_429 (_ : nat) (_ : string) (_ : RequestInit)
  : JsError + Response :=
  inr (mkResponse 429 "Too Many Requests" (Some "2") "").

Definition two_seconds (s : string) : option Z :=
  if s =? "2" then Some 2%Z else None.

(** Every request runs into the timeout. *)
Definition always_timeout (_ : nat) (_ : string) (_ : RequestInit)
  : JsError + Response :=
  inl (mkError IsOtherError "AbortError" "This operation was aborted").

(** The connection is refused: [fetch] rejects with a [TypeError]. *)
Definition refused (_ : nat) (_ : string) (_ : RequestInit)
  : JsError + Response :=
  inl (mkError IsOtherError "TypeError" "fetch failed").

(** A server that answers 404 to everything. *)
Definition always_404 (_ : nat) (_ : string) (_ : RequestInit)
  : JsError + Response :=
  inr (mkResponse 404 "Not Found" None "").

(** Two 503s (effects 0 and 2), then AAA's overview. *)
Definition flaky_network (n : nat) (_ : string) (_ : RequestInit)
  : JsError + Response :=
  if (n <? 4)%nat then inr (mkResponse 503 "Service Unavailable" None "")
  else inr (mkResponse 200 "OK" None "AAA").

(** The SEC file lists AAA and BBB. *)
Definition sec_network (_ : nat) (_ : string) (_ : RequestInit)
  : JsError + Response :=
  inr (mkResponse 200 "OK" None "sec").

Definition sec_json (_ : Response) : JsError + SECTickerResponse :=
  inr [SEC.mkItem 1 "AAA" "Triple A Corp"; SEC.mkItem 2 "BBB" "Triple B Inc"].

Definition empty_world : World := world_of [].

(** The job is marked as running. *)
Definition job_running : World :=
  world_of [("tickers", (PTickers ["AAA"; "BBB"], Some TICKER_EXPIRY_TIME));
            (JOB_STATUS_KEY, (PText "running", None))].

Definition demo_outcome (t : string) : JsError + StockData :=
  if t =? "AAA" then inr AAA_record
  else if t =? "BBB" then inl (ValidationError "Invalid ticker symbol: BBB")
  else inl (ValidationError ("Client error: 404 - Not Found")).

Definition upper_ascii (c : ascii) : ascii :=
  let n := nat_of_ascii c in
  if (97 <=? n)%nat && (n <=? 122)%nat then ascii_of_nat (n - 32) else c.

Fixpoint upper_ascii_string (s : string) : string :=
  match s with
  | EmptyString => EmptyString
  | String c rest => String (upper_ascii c) (upper_ascii_string rest)
  end.

Definition decimal_limit (s : string) : option Z :=
  if s =? "50" then Some 50%Z
  else if s =? "2" then Some 2%Z
  else if s =? "-1" then Some (-1)%Z
  else None.

(** The Redis server drops out while the job waits for effect number [n],
    and stays out. *)
Definition down_from (n : nat) (k : nat) (r : Redis) : Redis :=
  if (n <=? k)%nat
  then {| db := db r; fault := Some ("Error", "Socket closed unexpectedly") |}
  else r.

Definition outage (n : nat) : Env :=
  scenario demo_network demo_json (down_from n).

(* ------------------------------------------------------------------------- *)
(** * Properties *)

(** ** Sector translation *)

Lemma getSectorTranslation_cases (s : string) :
  getSectorTranslation s = "Manufacturing"
  \/ getSectorTranslation s = "Services"
  \/ getSectorTranslation s = "Retail"
  \/ getSectorTranslation s = "Property"
  \/ getSectorTranslation s = "Energy"
  \/ getSectorTranslation s = "Unknown".
Proof.
  unfold getSectorTranslation.
  set (t := toLowerCase s).
  repeat match goal with
         | |- context [ (t =? ?k) ] => destruct (t =? k); cbn [orb]
         end; tauto.
Qed.

(** The "Agriculture" arm sits behind a label already taken by
    "Manufacturing". *)
Lemma getSectorTranslation_never_Agriculture (s : string) :
  getSectorTranslation s <> "Agriculture".
Proof.
  destruct (getSectorTranslation_cases s) as [H|[H|[H|[H|[H|H]]]]];
    rewrite H; discriminate.
Qed.

Example getSectorTranslation_case_variant :
  getSectorTranslation "REAL Estate" = "Property".
Proof. reflexivity. Qed.

(** C7, as stated, fails: translating "technology" gives "Manufacturing",
    and translating that label again gives "Unknown". *)
Lemma getSectorTranslation_not_idempotent :
  getSectorTranslation (getSectorTranslation "technology")
  <> getSectorTranslation "technology".
Proof. vm_compute. discriminate. Qed.

(** C7, amended: the translation is total and lands in the six labels or
    "Unknown"; translating a result again keeps "Energy" and "Unknown" and
    sends every other label to "Unknown". *)
Theorem getSectorTranslation_total_and_second_pass (s : string) :
  In (getSectorTranslation s) (sector_labels ++ ["Unknown"])
  /\ getSectorTranslation (getSectorTranslation s)
     = if getSectorTranslation s =? "Energy" then "Energy" else "Unknown".
Proof.
  destruct (getSectorTranslation_cases s) as [H|[H|[H|[H|[H|H]]]]];
    rewrite H; split; try reflexivity; cbn; tauto.
Qed.

(** ** The store *)

Section StoreFacts.

Variable env : Env.

Lemma redis_get_run (key : string) (w : World) :
  redis_get env key w
  = match fault (observed env w) with
    | Some f => (inl (redis_error f), after env w (EGet key))
    | None => (inr (fst <$> db (observed env w) !! key), after env w (EGet key))
    end.
Proof. reflexivity. Qed.

Lemma redis_set_run (key : string) (v : Payload) (ex : option Z) (w : World) :
  redis_set env key v ex w
  = match fault (observed env w) with
    | Some f => (inl (redis_error f), after env w (ESet key v ex))
    | None =>
        (inr tt,
         {| redis := {| db := <[key := (v, ex)]> (db (observed env w));
                        fault := None |};
            trace := trace w ++ [ESet key v ex] |})
    end.
Proof. reflexivity. Qed.

Lemma redis_error_unclassified (f : string * string) :
  is_RateLimitError (redis_error f) = false
  /\ is_ValidationError (redis_error f) = false
  /\ is_NetworkError (redis_error f) = false.
Proof. repeat split. Qed.

(** C10: when the store can be reached and holds nothing under the status
    key, [getJobStatus] answers "idle". *)
Theorem getJobStatus_idle_when_absent (w : World) :
  fault (observed env w) = None ->
  db (observed env w) !! JOB_STATUS_KEY = None ->
  getJobStatus env w = (inr (PText "idle"), after env w (EGet JOB_STATUS_KEY)).
Proof.
  intros Hup Hnone. unfold getJobStatus, bind.
  rewrite redis_get_run, Hup, Hnone. reflexivity.
Qed.

End StoreFacts.

Lemma getJobStatus_idle_when_absent_witness :
  getJobStatus demo_env two_tickers
  = (inr (PText "idle"), after demo_env two_tickers (EGet JOB_STATUS_KEY)).
Proof.
  apply (getJobStatus_idle_when_absent demo_env two_tickers); reflexivity.
Defined.

(** C4, as stated, fails: with the store unreachable the GET rejects, yet
    [fetcher] returns a value instead of rejecting. *)
Lemma fetcher_swallows_store_failure :
  fst (redis_get demo_env "AAPL" unreachable)
  = inl (mkError IsOtherError "Error" "connect ECONNREFUSED")
  /\ fst (fetcher demo_env "AAPL" unreachable)
     = inr (PErrorBody "UNKNOWN_ERROR" "An unexpected error occurred.").
Proof. split; reflexivity. Qed.

(** ** Traces *)

Open Scope list_scope.

Section TraceFacts.

Variable env : Env.

Lemma trace_advance (w : World) (evs : list Event) :
  trace (advance env w evs) = trace w ++ evs.
Proof.
  revert w. induction evs as [|e evs IH]; intros w; cbn.
  - now rewrite app_nil_r.
  - unfold advance in IH. rewrite IH. cbn. now rewrite <- app_assoc.
Qed.

Lemma advance_app (w : World) (evs1 evs2 : list Event) :
  advance env (advance env w evs1) evs2 = advance env w (evs1 ++ evs2).
Proof. unfold advance. now rewrite fold_left_app. Qed.

Lemma redis_advance_quiet (w : World) (evs : list Event) :
  quiet env -> redis (advance env w evs) = redis w.
Proof.
  intros Hq. revert w. induction evs as [|e evs IH]; intros w; cbn; [easy|].
  unfold advance in IH. rewrite IH. cbn. unfold observed. apply Hq.
Qed.

Lemma emitted_spec {A} (m : M A) (w : World) (evs : list Event) :
  trace (snd (m w)) = trace w ++ evs -> emitted m w = evs.
Proof. intros H. unfold emitted. rewrite H. apply drop_app_length. Qed.

Lemma fetches_app (tr1 tr2 : list Event) :
  fetches (tr1 ++ tr2) = fetches tr1 ++ fetches tr2.
Proof. apply omap_app. Qed.

Lemma writes_to_app (key : string) (tr1 tr2 : list Event) :
  writes_to key (tr1 ++ tr2) = writes_to key tr1 ++ writes_to key tr2.
Proof. apply omap_app. Qed.

Lemma checkpoints_app (tr1 tr2 : list Event) :
  checkpoints (tr1 ++ tr2) = checkpoints tr1 ++ checkpoints tr2.
Proof. unfold checkpoints. rewrite writes_to_app. apply omap_app. Qed.

End TraceFacts.

(** ** The retrying HTTP client *)

Section ClientFacts.

Variable env : Env.
Context {T : Type}.
Variable url : string.
Variable options : RequestInit.
Variable parseResponse : Response -> JsError + T.
Variable maxRetries : nat.

Abbreviation the_try := (attempt_try env url options parseResponse maxRetries).
Abbreviation the_catch := (attempt_catch env maxRetries).
Abbreviation the_loop := (retry_loop env url options parseResponse maxRetries).

(** One turn of the loop, case by case. *)
Lemma retry_loop_step (remaining attempt : nat) (lastError : option JsError)
    (w : World) :
  the_loop (S remaining) attempt lastError w
  = match the_try attempt w with
    | (inr (Return v), w') => (inr v, w')
    | (inr Continue, w') => the_loop remaining (S attempt) lastError w'
    | (inl error, w') =>
        match the_catch attempt error w' with
        | (inr _, w'') => the_loop remaining (S attempt) (Some error) w''
        | (inl e, w'') => (inl e, w'')
        end
    end.
Proof.
  cbn [retry_loop]. unfold bind, try_catch, ret.
  destruct (the_try attempt w) as [[e|[v|]] w']; try reflexivity.
  destruct (the_catch attempt e w') as [[e'|[]] w'']; reflexivity.
Qed.

Lemma fetchWithTimeout_response (w : World) (r : Response) :
  network env (length (trace w)) url options = inr r ->
  fetchWithTimeout env url options w = (inr r, after env w (EFetch url)).
Proof.
  intros H. unfold fetchWithTimeout, try_catch, fetch, bind, suspend, lift.
  rewrite H. reflexivity.
Qed.

(** A 5xx answer with retries left: pause, then go round again. *)
Lemma attempt_try_5xx_retry (attempt : nat) (w : World) (r : Response) :
  network env (length (trace w)) url options = inr r ->
  (500 <= status r < 600)%Z ->
  (attempt < maxRetries)%nat ->
  exists d,
    the_try attempt w
    = (inr Continue, advance env w [EFetch url; ESleep (Some d)]).
Proof.
  intros Hnet Hst Hlt.
  unfold attempt_try, bind.
  rewrite (fetchWithTimeout_response w r Hnet).
  replace (status r =? 429)%Z with false by (symmetry; apply Z.eqb_neq; lia).
  replace ((500 <=? status r)%Z && (status r <? 600)%Z) with true
    by (symmetry; apply andb_true_intro; split;
        [apply Z.leb_le | apply Z.ltb_lt]; lia).
  apply Nat.ltb_lt in Hlt. rewrite Hlt.
  eexists. reflexivity.
Qed.

(** A 5xx answer on the last attempt: a [NetworkError] is thrown. *)
Lemma attempt_try_5xx_last (attempt : nat) (w : World) (r : Response) :
  network env (length (trace w)) url options = inr r ->
  (500 <= status r < 600)%Z ->
  (maxRetries <= attempt)%nat ->
  the_try attempt w
  = (inl (NetworkError ("Server error: " ++ pretty (status r))%string),
     advance env w [EFetch url]).
Proof.
  intros Hnet Hst Hge.
  unfold attempt_try, bind.
  rewrite (fetchWithTimeout_response w r Hnet).
  replace (status r =? 429)%Z with false by (symmetry; apply Z.eqb_neq; lia).
  replace ((500 <=? status r)%Z && (status r <? 600)%Z) with true
    by (symmetry; apply andb_true_intro; split;
        [apply Z.leb_le | apply Z.ltb_lt]; lia).
  apply Nat.ltb_ge in Hge. rewrite Hge. reflexivity.
Qed.

(** A [NetworkError] caught on the last attempt is kept as [lastError] and
    nothing else happens. *)
Lemma attempt_catch_network_last (attempt : nat) (msg : string) (w : World) :
  (maxRetries <= attempt)%nat ->
  the_catch attempt (NetworkError msg) w = (inr tt, w).
Proof.
  intros Hge. unfold attempt_catch.
  apply Nat.ltb_ge in Hge. rewrite Hge. reflexivity.
Qed.

(** A server that always answers 503 is asked once per iteration, and the
    error that leaves the loop is the last attempt's [NetworkError]. *)
Lemma retry_loop_always_503 :
  (forall n, exists r, network env n url options = inr r /\ status r = 503%Z) ->
  forall (remaining attempt : nat) (lastError : option JsError) (w : World),
    attempt + remaining = S maxRetries ->
    remaining <> 0 ->
    exists evs,
      the_loop remaining attempt lastError w
      = (inl (NetworkError "Server error: 503"), advance env w evs)
      /\ fetches evs = replicate remaining url.
Proof.
  intros Hnet. induction remaining as [|k IH]; intros attempt lastError w Hsum Hpos.
  - congruence.
  - destruct (Hnet (length (trace w))) as (r & Hr & Hst).
    rewrite retry_loop_step.
    destruct k as [|k'].
    + rewrite (attempt_try_5xx_last attempt w r Hr) by lia.
      rewrite attempt_catch_network_last by lia.
      rewrite Hst. exists [EFetch url]. split; reflexivity.
    + destruct (attempt_try_5xx_retry attempt w r Hr) as [d Hd]; [lia|lia|].
      rewrite Hd.
      destruct (IH (S attempt) lastError
                  (advance env w [EFetch url; ESleep (Some d)]))
        as (evs & Hrun & Hfetch); [lia|congruence|].
      exists ([EFetch url; ESleep (Some d)] ++ evs). split.
      * rewrite Hrun. now rewrite advance_app.
      * rewrite fetches_app, Hfetch. reflexivity.
Qed.

(** A 2xx answer passes the three status tests and reaches the parser. *)
Lemma attempt_try_ok (attempt : nat) (w : World) (r : Response) :
  network env (length (trace w)) url options = inr r ->
  ok r = true ->
  the_try attempt w
  = (match parseResponse r with
     | inl e => inl e
     | inr v => inr (Return v)
     end, after env w (EFetch url)).
Proof.
  intros Hnet Hok.
  unfold ok in Hok. apply andb_prop in Hok as [Hlo Hhi].
  apply Z.leb_le in Hlo. apply Z.leb_le in Hhi.
  unfold attempt_try, bind.
  rewrite (fetchWithTimeout_response w r Hnet).
  replace (status r =? 429)%Z with false by (symmetry; apply Z.eqb_neq; lia).
  replace (500 <=? status r)%Z with false by (symmetry; apply Z.leb_gt; lia).
  replace (400 <=? status r)%Z with false by (symmetry; apply Z.leb_gt; lia).
  cbn [andb].
  unfold ok. 
  replace (200 <=? status r)%Z with true by (symmetry; apply Z.leb_le; lia).
  replace (status r <=? 299)%Z with true by (symmetry; apply Z.leb_le; lia).
  cbn [andb]. unfold lift, throw, ret.
  destruct (parseResponse r); reflexivity.
Qed.

End ClientFacts.

(** C5: with [maxRetries = 3], a server that answers 503 to every attempt
    is asked exactly four times, and the call then fails with a
    [NetworkError]. *)
Theorem always_503_makes_four_attempts
    (env : Env) {T : Type} (url : string) (options : RequestInit)
    (parseResponse : Response -> JsError + T) (w : World) :
  (forall n, exists r, network env n url options = inr r /\ status r = 503%Z) ->
  fst (fetchWithRetry env url options parseResponse 3 w)
  = inl (NetworkError "Server error: 503")
  /\ fetches (emitted (fetchWithRetry env url options parseResponse 3) w)
     = [url; url; url; url].
Proof.
  intros Hnet.
  destruct (retry_loop_always_503 env url options parseResponse 3 Hnet
              4 0 None w) as (evs & Hrun & Hfetch); [reflexivity|discriminate|].
  unfold fetchWithRetry. split.
  - now rewrite Hrun.
  - erewrite emitted_spec; [exact Hfetch|].
    rewrite Hrun. cbn [snd]. apply trace_advance.
Qed.

Lemma always_503_makes_four_attempts_witness :
  fst (fetchWithRetry (scenario always_503 demo_json nobody)
         (demo_url "AAA") [] demo_json 3 two_tickers)
  = inl (NetworkError "Server error: 503")
  /\ fetches (emitted (fetchWithRetry (scenario always_503 demo_json nobody)
                         (demo_url "AAA") [] demo_json 3) two_tickers)
     = [demo_url "AAA"; demo_url "AAA"; demo_url "AAA"; demo_url "AAA"].
Proof.
  apply (always_503_makes_four_attempts
           (scenario always_503 demo_json nobody)).
  intros n. eexists. split; reflexivity.
Defined.

(** C6, as stated, fails: a 200 whose body is not JSON makes the call fail
    with the parser's [SyntaxError], which is not a [NetworkError], neither
    by class nor by name. *)
Lemma unparsable_body_is_not_a_network_error :
  fst (fetchWithRetry (scenario garbled_network garbled_json nobody)
         (demo_url "AAA") [] garbled_json MAX_RETRIES two_tickers)
  = inl JSON_SyntaxError
  /\ is_NetworkError JSON_SyntaxError = false
  /\ ename JSON_SyntaxError <> "NetworkError".
Proof. repeat split. discriminate. Qed.

(** C6, amended: when a 2xx answer reaches the parser and the parser throws
    an error that the [catch] block does not class as a network error, the
    call fails at once with that very error, after this one request; the
    error is not turned into a [NetworkError].  This holds at whichever
    attempt the answer arrives; [fetchWithRetry] is the loop from attempt
    0. *)
Theorem unparsable_body_thrown_as_is
    (env : Env) {T : Type} (url : string) (options : RequestInit)
    (parseResponse : Response -> JsError + T) (maxRetries : nat)
    (remaining attempt : nat) (lastError : option JsError)
    (w : World) (r : Response) (e : JsError) :
  network env (length (trace w)) url options = inr r ->
  ok r = true ->
  parseResponse r = inl e ->
  not_retried e = true ->
  retry_loop env url options parseResponse maxRetries
    (S remaining) attempt lastError w
  = (inl e, after env w (EFetch url)).
Proof.
  intros Hnet Hok Hparse Hnr.
  rewrite retry_loop_step, (attempt_try_ok _ _ _ _ _ _ _ r Hnet Hok), Hparse.
  unfold attempt_catch. rewrite Hnr. reflexivity.
Qed.

Lemma unparsable_body_thrown_as_is_witness :
  fetchWithRetry (scenario garbled_network garbled_json nobody)
    (demo_url "AAA") [] garbled_json MAX_RETRIES two_tickers
  = (inl JSON_SyntaxError,
     after (scenario garbled_network garbled_json nobody) two_tickers
       (EFetch (demo_url "AAA"))).
Proof.
  apply (unparsable_body_thrown_as_is
           (scenario garbled_network garbled_json nobody)
           (demo_url "AAA") [] garbled_json MAX_RETRIES MAX_RETRIES 0 None
           two_tickers (mkResponse 200 "OK" None "<html>") JSON_SyntaxError);
    reflexivity.
Defined.

(** ** The fetch stack touches nothing but the network *)

Section ClientOnly.

Variable env : Env.

Lemma client_only_ret {A} (a : A) : client_only env (ret a).
Proof. intros w. exists []. split; reflexivity. Qed.

Lemma client_only_throw {A} (e : JsError) : client_only env (@throw A e).
Proof. intros w. exists []. split; reflexivity. Qed.

Lemma client_only_lift {A} (r : JsError + A) : client_only env (lift r).
Proof. destruct r; [apply client_only_throw | apply client_only_ret]. Qed.

Lemma client_only_bind {A B} (m : M A) (k : A -> M B) :
  client_only env m ->
  (forall a, client_only env (k a)) ->
  client_only env (bind m k).
Proof.
  intros Hm Hk w. destruct (Hm w) as (evs1 & Hc1 & Hw1).
  unfold bind. destruct (m w) as [[e|a] w1]; cbn [snd] in Hw1; subst w1.
  - exists evs1. split; [assumption | reflexivity].
  - destruct (Hk a (advance env w evs1)) as (evs2 & Hc2 & Hw2).
    exists (evs1 ++ evs2). split.
    + rewrite forallb_app, Hc1, Hc2. reflexivity.
    + rewrite Hw2. apply advance_app.
Qed.

Lemma client_only_try_catch {A} (m : M A) (handler : JsError -> M A) :
  client_only env m ->
  (forall e, client_only env (handler e)) ->
  client_only env (try_catch m handler).
Proof.
  intros Hm Hh w. destruct (Hm w) as (evs1 & Hc1 & Hw1).
  unfold try_catch. destruct (m w) as [[e|a] w1]; cbn [snd] in Hw1; subst w1.
  - destruct (Hh e (advance env w evs1)) as (evs2 & Hc2 & Hw2).
    exists (evs1 ++ evs2). split.
    + rewrite forallb_app, Hc1, Hc2. reflexivity.
    + rewrite Hw2. apply advance_app.
  - exists evs1. split; [assumption | reflexivity].
Qed.

Lemma client_only_sleep (ms : option Z) : client_only env (sleep env ms).
Proof. intros w. exists [ESleep ms]. split; reflexivity. Qed.

Lemma client_only_fetch (url : string) (options : RequestInit) :
  client_only env (fetch env url options).
Proof.
  intros w. exists [EFetch url]. split; [reflexivity|].
  unfold fetch, bind, suspend, lift.
  destruct (network env (length (trace w)) url options); reflexivity.
Qed.

Lemma client_only_getRetryDelay (attempt : nat) :
  client_only env (getRetryDelay env attempt).
Proof. intros w. exists []. split; reflexivity. Qed.

Create HintDb client_only discriminated.
#[local] Hint Resolve client_only_ret client_only_throw client_only_lift
  client_only_sleep client_only_fetch client_only_getRetryDelay : client_only.

(** Walks through binds, handlers and branches. *)
Ltac client_only_walk :=
  repeat first
    [ solve [auto with client_only]
    | apply client_only_bind; [|intros ?]
    | apply client_only_try_catch; [|intros ?]
    | match goal with
      | |- client_only _ (if ?c then _ else _) => destruct c
      | |- client_only _ (match ?x with _ => _ end) => destruct x
      end ].

Lemma client_only_fetchWithTimeout (url : string) (options : RequestInit) :
  client_only env (fetchWithTimeout env url options).
Proof. unfold fetchWithTimeout. client_only_walk. Qed.

#[local] Hint Resolve client_only_fetchWithTimeout : client_only.

Lemma client_only_retry_loop {T} (url : string) (options : RequestInit)
    (parseResponse : Response -> JsError + T) (maxRetries : nat)
    (remaining attempt : nat) (lastError : option JsError) :
  client_only env
    (retry_loop env url options parseResponse maxRetries
       remaining attempt lastError).
Proof.
  revert attempt lastError.
  induction remaining as [|k IH]; intros attempt lastError; cbn [retry_loop].
  - apply client_only_throw.
  - apply client_only_bind.
    + unfold attempt_try, attempt_catch. client_only_walk.
    + intros [[v|] le]; [apply client_only_ret | apply IH].
Qed.

Lemma client_only_fetchStockFundamentals (ticker : string) :
  client_only env (fetchStockFundamentals env ticker).
Proof.
  unfold fetchStockFundamentals, fetchWithRetry.
  destruct (negb (truthy (config_alphaVantageAPIKey env)));
    [apply client_only_throw|].
  apply client_only_bind; [apply client_only_retry_loop|].
  intros response. client_only_walk.
Qed.

(** *** The first effect *)

Lemma starts_with_bind {A B} (e : Event) (m : M A) (k : A -> M B) :
  starts_with env e m ->
  (forall a, client_only env (k a)) ->
  starts_with env e (bind m k).
Proof.
  intros Hm Hk w. destruct (Hm w) as (evs1 & Hw1).
  unfold bind. destruct (m w) as [[err|a] w1]; cbn [snd] in Hw1; subst w1.
  - exists evs1. reflexivity.
  - destruct (Hk a (advance env w (e :: evs1))) as (evs2 & _ & Hw2).
    exists (evs1 ++ evs2). rewrite Hw2, advance_app. reflexivity.
Qed.

Lemma starts_with_try_catch {A} (e : Event) (m : M A) (handler : JsError -> M A) :
  starts_with env e m ->
  (forall err, client_only env (handler err)) ->
  starts_with env e (try_catch m handler).
Proof.
  intros Hm Hh w. destruct (Hm w) as (evs1 & Hw1).
  unfold try_catch. destruct (m w) as [[err|a] w1]; cbn [snd] in Hw1; subst w1.
  - destruct (Hh err (advance env w (e :: evs1))) as (evs2 & _ & Hw2).
    exists (evs1 ++ evs2). rewrite Hw2, advance_app. reflexivity.
  - exists evs1. reflexivity.
Qed.

Lemma starts_with_fetch (url : string) (options : RequestInit) :
  starts_with env (EFetch url) (fetch env url options).
Proof.
  intros w. exists []. unfold fetch, bind, suspend, lift.
  destruct (network env (length (trace w)) url options); reflexivity.
Qed.

Lemma starts_with_fetchWithRetry {T} (url : string) (options : RequestInit)
    (parseResponse : Response -> JsError + T) (maxRetries : nat) :
  starts_with env (EFetch url)
    (fetchWithRetry env url options parseResponse maxRetries).
Proof.
  unfold fetchWithRetry. cbn [retry_loop].
  apply starts_with_bind.
  - apply starts_with_try_catch.
    + apply starts_with_bind; [|intros ?; apply client_only_ret].
      unfold attempt_try. apply starts_with_bind.
      * unfold fetchWithTimeout. apply starts_with_try_catch.
        -- apply starts_with_fetch.
        -- intros err. client_only_walk.
      * intros response. client_only_walk.
    + intros err. unfold attempt_catch. client_only_walk.
  - intros [[v|] le]; [apply client_only_ret | apply client_only_retry_loop].
Qed.

(** With the API key set, the first thing a fundamentals fetch does is ask
    Alpha Vantage, whatever the store holds. *)
Lemma fetchStockFundamentals_asks_first (ticker : string) :
  truthy (config_alphaVantageAPIKey env) = true ->
  starts_with env (EFetch (overview_url env ticker))
    (fetchStockFundamentals env ticker).
Proof.
  intros Hkey. unfold fetchStockFundamentals. rewrite Hkey. cbn [negb].
  apply starts_with_bind; [apply starts_with_fetchWithRetry|].
  intros response. client_only_walk.
Qed.

End ClientOnly.

(** ** What a computation adds to the trace *)

Section Yields.

Variable env : Env.

Lemma yields_weaken {A} (m : M A) (Q Q' : JsError + A -> list Event -> Prop) :
  yields m Q -> (forall r evs, Q r evs -> Q' r evs) -> yields m Q'.
Proof.
  intros Hm HQ w. destruct (Hm w) as (evs & Htr & Hq). eauto.
Qed.

Lemma yields_ret {A} (a : A) (Q : JsError + A -> list Event -> Prop) :
  Q (inr a) [] -> yields (ret a) Q.
Proof. intros HQ w. exists []. cbn. now rewrite app_nil_r. Qed.

Lemma yields_throw {A} (e : JsError) (Q : JsError + A -> list Event -> Prop) :
  Q (inl e) [] -> yields (throw e) Q.
Proof. intros HQ w. exists []. cbn. now rewrite app_nil_r. Qed.

Lemma yields_bind {A B} (m : M A) (k : A -> M B)
    (Q1 : JsError + A -> list Event -> Prop)
    (Q : JsError + B -> list Event -> Prop) :
  yields m Q1 ->
  (forall e evs, Q1 (inl e) evs -> Q (inl e) evs) ->
  (forall a evs1, Q1 (inr a) evs1 ->
                  yields (k a) (fun r evs2 => Q r (evs1 ++ evs2))) ->
  yields (bind m k) Q.
Proof.
  intros Hm Herr Hk w. destruct (Hm w) as (evs1 & Htr1 & Hq1).
  unfold bind. destruct (m w) as [[e|a] w1]; cbn [fst snd] in *.
  - exists evs1. auto.
  - destruct (Hk a evs1 Hq1 w1) as (evs2 & Htr2 & Hq2).
    exists (evs1 ++ evs2). split; [|assumption].
    rewrite Htr2, Htr1. now rewrite app_assoc.
Qed.

Lemma yields_try_catch {A} (m : M A) (handler : JsError -> M A)
    (Q1 Q : JsError + A -> list Event -> Prop) :
  yields m Q1 ->
  (forall a evs, Q1 (inr a) evs -> Q (inr a) evs) ->
  (forall e evs1, Q1 (inl e) evs1 ->
                  yields (handler e) (fun r evs2 => Q r (evs1 ++ evs2))) ->
  yields (try_catch m handler) Q.
Proof.
  intros Hm Hok Hh w. destruct (Hm w) as (evs1 & Htr1 & Hq1).
  unfold try_catch. destruct (m w) as [[e|a] w1]; cbn [fst snd] in *.
  - destruct (Hh e evs1 Hq1 w1) as (evs2 & Htr2 & Hq2).
    exists (evs1 ++ evs2). split; [|assumption].
    rewrite Htr2, Htr1. now rewrite app_assoc.
  - exists evs1. auto.
Qed.

Lemma yields_redis_get (key : string) :
  yields (redis_get env key) (fun _ evs => evs = [EGet key]).
Proof.
  intros w. exists [EGet key]. rewrite redis_get_run.
  destruct (fault (observed env w)); split; reflexivity.
Qed.

Lemma yields_redis_set (key : string) (v : Payload) (ex : option Z) :
  yields (redis_set env key v ex) (fun _ evs => evs = [ESet key v ex]).
Proof.
  intros w. exists [ESet key v ex]. rewrite redis_set_run.
  destruct (fault (observed env w)); split; reflexivity.
Qed.

Lemma yields_sleep (ms : option Z) :
  yields (sleep env ms) (fun r evs => r = inr tt /\ evs = [ESleep ms]).
Proof. intros w. exists [ESleep ms]. repeat split. Qed.

Lemma yields_client_only {A} (m : M A) :
  client_only env m ->
  yields m (fun _ evs => forallb is_client_event evs = true).
Proof.
  intros Hm w. destruct (Hm w) as (evs & Hc & Hw). exists evs.
  split; [|assumption]. rewrite Hw. apply trace_advance.
Qed.

Lemma client_events_write_nothing (key : string) (evs : list Event) :
  forallb is_client_event evs = true -> writes_to key evs = [].
Proof.
  induction evs as [|e evs IH]; [reflexivity|].
  cbn [forallb]. intros H. apply andb_prop in H as [He Hevs].
  destruct e; try discriminate; cbn; auto.
Qed.

Lemma client_events_no_checkpoint (evs : list Event) :
  forallb is_client_event evs = true -> checkpoints evs = [].
Proof.
  intros H. unfold checkpoints. now rewrite client_events_write_nothing.
Qed.

(** The fetch of one ticker: only client events, never an error, and the
    counters move by one, either [completed] or [failed]. *)
Lemma yields_process_ticker (ticker : string) (c f : nat) (snap : list StockData) :
  yields (process_ticker env ticker c f snap)
    (fun r evs =>
       forallb is_client_event evs = true
       /\ exists c' f' snap',
            r = inr (c', f', snap')
            /\ ((c' = S c /\ f' = f) \/ (c' = c /\ f' = S f))).
Proof.
  unfold process_ticker.
  eapply yields_try_catch.
  - eapply yields_bind.
    + apply yields_client_only, client_only_fetchStockFundamentals.
    + intros e evs H. instantiate (1 := fun r evs =>
        forallb is_client_event evs = true
        /\ match r with
           | inl _ => True
           | inr (c', f', _) => c' = S c /\ f' = f
           end). cbn. auto.
    + intros data evs1 H1. apply yields_ret. cbn. rewrite app_nil_r. auto.
  - intros [[c' f'] snap'] evs [Hc [-> ->]]. split; [assumption|].
    eexists _, _, _. split; [reflexivity|]. auto.
  - intros e evs1 [Hc _]. apply yields_ret. rewrite app_nil_r.
    split; [assumption|]. eexists _, _, _. split; [reflexivity|]. auto.
Qed.

(** The guarded progress write: at most one progress record, and it carries
    the counters it was given. *)
Lemma yields_update_progress (tot c f : nat) :
  yields (update_progress env tot c f)
    (fun _ evs =>
       writes_to SNAPSHOT_KEY evs = []
       /\ (checkpoints evs = []
           \/ exists p, checkpoints evs = [p]
                        /\ completed p = c /\ total p = tot)).
Proof.
  unfold update_progress.
  destruct ((c mod 50 =? 0)%nat || (c =? tot)%nat).
  - unfold checkpoint.
    eapply yields_bind; [apply yields_redis_get | |].
    + intros e evs ->. split; [reflexivity | left; reflexivity].
    + intros raw evs1 ->.
      eapply yields_bind with (Q1 := fun _ evs => evs = []).
      * destruct (read_startedAt raw); [apply yields_throw | apply yields_ret];
          reflexivity.
      * intros e evs ->. split; [reflexivity | left; reflexivity].
      * intros started evs ->.
        eapply yields_weaken; [apply yields_redis_set|].
        intros r evs ->. split; [reflexivity|].
        right. eexists. split; [reflexivity|]. split; reflexivity.
  - apply yields_ret. split; [reflexivity | left; reflexivity].
Qed.

End Yields.

(** ** The snapshot job: what it writes *)

Section JobTrace.

Variable env : Env.

Lemma climbs_from_weaken (lo lo' : nat) (l : list nat) :
  lo <= lo' -> climbs_from lo' l -> climbs_from lo l.
Proof.
  destruct l as [|x l]; cbn; [auto|]. intros H [H1 H2]. split; [lia|auto].
Qed.

Lemma tidy_nil (c : nat) : tidy c [].
Proof. repeat split. constructor. Qed.

Lemma tidy_weaken (c c' : nat) (evs : list Event) :
  c <= c' -> tidy c' evs -> tidy c evs.
Proof.
  intros H (Hs & Hcl & Hall). repeat split; auto.
  eapply climbs_from_weaken; eauto.
Qed.

Lemma tidy_quiet_prefix (c : nat) (evs1 evs2 : list Event) :
  writes_to SNAPSHOT_KEY evs1 = [] ->
  checkpoints evs1 = [] ->
  tidy c evs2 ->
  tidy c (evs1 ++ evs2).
Proof.
  intros Hs Hc (Hs2 & Hcl & Hall). unfold tidy.
  rewrite writes_to_app, checkpoints_app, Hs, Hc. cbn. auto.
Qed.

Lemma tidy_checkpoint_prefix (c : nat) (p : JobProgress) (evs1 evs2 : list Event) :
  writes_to SNAPSHOT_KEY evs1 = [] ->
  checkpoints evs1 = [p] ->
  c <= completed p <= total p ->
  tidy (completed p) evs2 ->
  tidy c (evs1 ++ evs2).
Proof.
  intros Hs Hc Hp (Hs2 & Hcl & Hall). unfold tidy.
  rewrite writes_to_app, checkpoints_app, Hs, Hc. cbn.
  repeat split; try tauto; try lia.
  constructor; [lia | assumption].
Qed.

(** The loop is tidy. *)
Lemma yields_job_loop (tot : nat) (tickers : list string) :
  forall (c f : nat) (snap : list StockData),
    c + length tickers <= tot ->
    yields (job_loop env tickers tot c f snap) (fun _ evs => tidy c evs).
Proof.
  induction tickers as [|t rest IH]; intros c f snap Hlen; cbn [job_loop].
  - apply yields_ret, tidy_nil.
  - cbn [length] in Hlen.
    eapply yields_bind; [apply yields_redis_get | |].
    { intros e evs ->. repeat split. constructor. }
    intros status evs1 ->.
    eapply yields_weaken with (Q := fun _ evs => tidy c evs);
      [| intros r evs H; apply tidy_quiet_prefix;
         [reflexivity | reflexivity | exact H]].
    destruct (negb (is_running status)); [apply yields_ret, tidy_nil|].
    eapply yields_bind; [apply yields_process_ticker | |].
    { intros e evs (_ & c' & f' & s' & Heq & _). discriminate. }
    intros [[c' f'] snap'] evs2 (Hc & c'' & f'' & s'' & Heq & Hcnt).
    injection Heq as <- <- <-.
    eapply yields_weaken with (Q := fun _ evs => tidy c evs);
      [| intros r evs H; apply tidy_quiet_prefix;
         [now apply client_events_write_nothing
         | now apply client_events_no_checkpoint
         | exact H]].
    assert (Hc' : c <= c' <= tot) by lia.
    eapply yields_bind; [apply yields_update_progress | |].
    { intros e evs (Hs & [Hn | (p & Hp & Hpc & Hpt)]).
      - repeat split; rewrite ?Hn; cbn; auto.
      - rewrite <- (app_nil_r evs).
        apply (tidy_checkpoint_prefix c p evs []); auto; [lia | apply tidy_nil]. }
    intros [] evs3 (Hs & Hcp).
    assert (Hrest : yields (bind (sleep env (Some (MS_PER_REQUEST env)))
                              (fun _ => job_loop env rest tot c' f' snap'))
                      (fun _ evs => tidy c' evs)).
    { eapply yields_bind; [apply yields_sleep | |].
      - intros e evs [Heq _]. discriminate.
      - intros [] evs4 [_ ->]. eapply yields_weaken; [apply IH; lia|].
        intros r evs H. apply tidy_quiet_prefix; [reflexivity..|exact H]. }
    eapply yields_weaken; [exact Hrest|].
    intros r evs H. destruct Hcp as [Hn | (p & Hp & Hpc & Hpt)].
    + apply tidy_quiet_prefix; auto. eapply tidy_weaken; [|exact H]. lia.
    + apply (tidy_checkpoint_prefix c p); auto; [lia|]. now rewrite Hpc.
Qed.

Lemma yields_getAllTickers :
  yields (getAllTickers env) (fun _ evs => evs = [EGet "tickers"]).
Proof.
  unfold getAllTickers.
  eapply yields_bind; [apply yields_redis_get | auto |].
  intros raw evs ->.
  destruct raw as [[s| | | | |]|]; try destruct s;
    first [apply yields_ret | apply yields_throw]; reflexivity.
Qed.

(** What follows the loop writes no progress record, and writes nothing at
    all when the loop was cancelled. *)
Lemma yields_persist (r : LoopEnd) :
  yields (persist env r)
    (fun out evs =>
       checkpoints evs = []
       /\ (out = inr JobCancelled -> evs = [])
       /\ (r = Cancelled -> out = inr JobCancelled)).
Proof.
  destruct r as [|c f snap]; cbn [persist].
  - apply yields_ret. auto.
  - eapply yields_bind; [apply yields_redis_set | |].
    { intros e evs ->. repeat split; discriminate. }
    intros [] evs1 ->.
    eapply yields_bind; [apply yields_redis_set | |].
    { intros e evs ->. repeat split; discriminate. }
    intros [] evs2 ->. apply yields_ret. repeat split; discriminate.
Qed.

(** A whole run: the progress records never go down and stay within their
    [total]; a run that ends cancelled has written no snapshot. *)
Lemma yields_runSnapshotJob :
  yields (runSnapshotJob env)
    (fun out evs =>
       climbs_from 0 (completed <$> checkpoints evs)
       /\ Forall (fun p => completed p <= total p) (checkpoints evs)
       /\ (out = inr JobCancelled -> writes_to SNAPSHOT_KEY evs = [])).
Proof.
  assert (Hquiet : forall (out : JsError + JobEnd) evs,
             checkpoints evs = [] ->
             writes_to SNAPSHOT_KEY evs = [] ->
             climbs_from 0 (completed <$> checkpoints evs)
             /\ Forall (fun p => completed p <= total p) (checkpoints evs)
             /\ (out = inr JobCancelled -> writes_to SNAPSHOT_KEY evs = [])).
  { intros out evs H Hs. rewrite H. repeat split; [constructor | auto]. }
  unfold runSnapshotJob.
  eapply yields_bind; [apply yields_redis_get | |].
  { intros e evs ->. now apply Hquiet. }
  intros status evs1 ->.
  destruct (is_running status).
  { apply yields_ret. now apply Hquiet. }
  eapply yields_bind; [apply yields_getAllTickers | |].
  { intros e evs ->. now apply Hquiet. }
  intros tickers evs2 ->.
  eapply yields_bind; [apply yields_redis_set | |].
  { intros e evs ->. now apply Hquiet. }
  intros [] evs3 ->.
  eapply yields_bind with (Q1 := fun _ evs => evs = []).
  { intros w. exists []. cbn. now rewrite app_nil_r. }
  { intros e evs ->. now apply Hquiet. }
  intros started evs4 ->.
  set (p0 := {| completed := 0; total := length tickers;
                startedAt := Some started;
                estimatedMinutes :=
                  ceil_div (Z.of_nat (length tickers)) (REQUESTS_PER_MINUTE env) |}).
  assert (Hinit : forall evs, tidy 0 evs ->
            tidy 0 ([EGet JOB_STATUS_KEY] ++ [EGet "tickers"]
                    ++ [ESet JOB_STATUS_KEY (PText "running") None] ++ []
                    ++ [ESet JOB_PROGRESS_KEY (PProgress p0) None] ++ evs)).
  { intros evs H.
    apply (tidy_checkpoint_prefix 0 p0
             [EGet JOB_STATUS_KEY; EGet "tickers";
              ESet JOB_STATUS_KEY (PText "running") None;
              ESet JOB_PROGRESS_KEY (PProgress p0) None] evs);
      try reflexivity; [cbn; lia | exact H]. }
  eapply yields_bind; [apply yields_redis_set | |].
  { intros e evs ->. destruct (Hinit [] (tidy_nil 0)) as (Hs & Hcl & Hall).
    split; [exact Hcl | split; [exact Hall | intros Heq; discriminate Heq]]. }
  intros [] evs5 ->.
  eapply yields_bind;
    [apply (yields_job_loop (length tickers) tickers 0 0 []); lia | |].
  { intros e evs Htidy. destruct (Hinit evs Htidy) as (Hs & Hcl & Hall).
    split; [exact Hcl | split; [exact Hall | intros Heq; discriminate Heq]]. }
  intros r evs6 Htidy.
  eapply yields_weaken; [apply yields_persist|].
  intros out evs7 (Hcp & Hcancel & _).
  assert (Hlast : (out = inr JobCancelled -> tidy 0 (evs6 ++ evs7))
                  /\ checkpoints (evs6 ++ evs7) = checkpoints evs6).
  { split.
    - intros Hout. now rewrite (Hcancel Hout), app_nil_r.
    - now rewrite checkpoints_app, Hcp, app_nil_r. }
  destruct Hlast as [Hlast Hsame].
  destruct (Hinit evs6 Htidy) as (Hs & Hcl & Hall).
  assert (Hcps : checkpoints
                   ([EGet JOB_STATUS_KEY] ++ [EGet "tickers"]
                    ++ [ESet JOB_STATUS_KEY (PText "running") None] ++ []
                    ++ [ESet JOB_PROGRESS_KEY (PProgress p0) None]
                    ++ evs6 ++ evs7)
                 = checkpoints
                     ([EGet JOB_STATUS_KEY] ++ [EGet "tickers"]
                      ++ [ESet JOB_STATUS_KEY (PText "running") None] ++ []
                      ++ [ESet JOB_PROGRESS_KEY (PProgress p0) None] ++ evs6)).
  { rewrite !checkpoints_app, Hcp. now rewrite app_nil_r. }
  split; [|split].
  - rewrite Hcps. exact Hcl.
  - rewrite Hcps. exact Hall.
  - intros Hout. destruct (Hinit _ (Hlast Hout)) as (Hs' & _). exact Hs'.
Qed.

End JobTrace.

(** C9: within one run, the progress records written to the store never go
    down in [completed], and none has [completed] above its [total]. *)
Theorem progress_checkpoints_monotone
    (env : Env) (w : World) (i j : nat) (pi pj : JobProgress) :
  i <= j ->
  checkpoints (emitted (runSnapshotJob env) w) !! i = Some pi ->
  checkpoints (emitted (runSnapshotJob env) w) !! j = Some pj ->
  completed pi <= completed pj /\ completed pj <= total pj.
Proof.
  intros Hij Hi Hj.
  destruct (yields_runSnapshotJob env w) as (evs & Htr & Hcl & Hall & _).
  rewrite (emitted_spec _ _ _ Htr) in Hi, Hj.
  split.
  - assert (Hmono : forall (l : list nat) lo a b x y,
               climbs_from lo l -> a <= b ->
               l !! a = Some x -> l !! b = Some y -> lo <= x <= y).
    { induction l as [|z l IH]; intros lo a b x y Hc Hab Ha Hb;
        [discriminate|].
      destruct Hc as [Hz Hc]. destruct a as [|a], b as [|b]; cbn in Ha, Hb.
      - injection Ha as <-. injection Hb as <-. lia.
      - injection Ha as <-.
        pose proof (IH z b b y y Hc (le_n b) Hb Hb). lia.
      - lia.
      - pose proof (IH z a b x y Hc ltac:(lia) Ha Hb). lia. }
    apply (Hmono (completed <$> checkpoints evs) 0 i j); auto.
    + now rewrite list_lookup_fmap, Hi.
    + now rewrite list_lookup_fmap, Hj.
  - rewrite Forall_forall in Hall. apply Hall.
    eapply list_elem_of_lookup_2; eauto.
Qed.

Lemma progress_checkpoints_monotone_witness :
  checkpoints (emitted (runSnapshotJob demo_env) one_ticker) !! 0
  = Some (mkJobProgress 0 1 (Some "2025-01-01T00:00:00.000Z") 1)
  /\ checkpoints (emitted (runSnapshotJob demo_env) one_ticker) !! 1
     = Some (mkJobProgress 1 1 (Some "2025-01-01T00:00:00.000Z") 0)
  /\ 0 <= 1 <= 1.
Proof.
  split; [reflexivity|]. split; [reflexivity|].
  apply (progress_checkpoints_monotone demo_env one_ticker 0 1
           (mkJobProgress 0 1 (Some "2025-01-01T00:00:00.000Z") 1)
           (mkJobProgress 1 1 (Some "2025-01-01T00:00:00.000Z") 0));
    [lia | reflexivity | reflexivity].
Defined.

(** ** The snapshot job: running it with nobody else at the store *)

Section QuietRuns.

Variable env : Env.
Hypothesis Hquiet : quiet env.

Lemma observed_quiet (w : World) : observed env w = redis w.
Proof. apply Hquiet. Qed.

Lemma ends_bind {A B} (m : M A) (k : A -> M B) (w : World) (a : A)
    (r : JsError + B) (P1 P2 : Redis -> Prop) :
  ends m w (inr a) P1 ->
  (forall w1, P1 (redis w1) -> ends (k a) w1 r P2) ->
  ends (bind m k) w r P2.
Proof.
  unfold ends, bind. destruct (m w) as [[e|a'] w1]; cbn [fst snd].
  - intros [H _]. discriminate.
  - intros [H HP] Hk. injection H as ->. now apply Hk.
Qed.

Lemma ends_ret {A} (a : A) (w : World) (P : Redis -> Prop) :
  P (redis w) -> ends (ret a) w (inr a) P.
Proof. intros H. split; [reflexivity | exact H]. Qed.

Lemma ends_redis_get (key : string) (w : World) (P : Redis -> Prop) :
  fault (redis w) = None ->
  P (redis w) ->
  ends (redis_get env key) w (inr (fst <$> db (redis w) !! key)) P.
Proof.
  intros Hup HP. unfold ends. rewrite redis_get_run, observed_quiet, Hup.
  cbn. rewrite observed_quiet. auto.
Qed.

Lemma ends_redis_set (key : string) (v : Payload) (ex : option Z) (w : World)
    (P : Redis -> Prop) :
  fault (redis w) = None ->
  P {| db := <[key := (v, ex)]> (db (redis w)); fault := None |} ->
  ends (redis_set env key v ex) w (inr tt) P.
Proof.
  intros Hup HP. unfold ends. rewrite redis_set_run, observed_quiet, Hup.
  cbn. auto.
Qed.

Lemma ends_sleep (ms : option Z) (w : World) (P : Redis -> Prop) :
  P (redis w) -> ends (sleep env ms) w (inr tt) P.
Proof. intros HP. split; [reflexivity|]. cbn. now rewrite observed_quiet. Qed.

Lemma client_only_keeps_store {A} (m : M A) (w : World) :
  client_only env m -> redis (snd (m w)) = redis w.
Proof.
  intros Hm. destruct (Hm w) as (evs & _ & ->).
  now apply redis_advance_quiet.
Qed.

(** A ticker whose fetch succeeds is counted as completed, and kept if it
    pays a dividend. *)
Lemma ends_process_ticker_ok (ticker : string) (c f : nat)
    (snap : list StockData) (w : World) (data : StockData) (P : Redis -> Prop) :
  fst (fetchStockFundamentals env ticker w) = inr data ->
  P (redis w) ->
  ends (process_ticker env ticker c f snap) w
    (inr (S c, f, if pays_dividend data then snap ++ [data] else snap)) P.
Proof.
  intros Hfetch HP.
  pose proof (client_only_keeps_store _ w
                (client_only_fetchStockFundamentals env ticker)) as Hkeep.
  unfold ends, process_ticker, try_catch, bind, ret.
  destruct (fetchStockFundamentals env ticker w) as [[e|d] w1];
    cbn [fst snd] in *; [discriminate|].
  injection Hfetch as ->. rewrite Hkeep. auto.
Qed.

(** A ticker whose fetch fails is counted as failed. *)
Lemma ends_process_ticker_failed (ticker : string) (c f : nat)
    (snap : list StockData) (w : World) (e : JsError) (P : Redis -> Prop) :
  fst (fetchStockFundamentals env ticker w) = inl e ->
  P (redis w) ->
  ends (process_ticker env ticker c f snap) w (inr (c, S f, snap)) P.
Proof.
  intros Hfetch HP.
  pose proof (client_only_keeps_store _ w
                (client_only_fetchStockFundamentals env ticker)) as Hkeep.
  unfold ends, process_ticker, try_catch, bind, ret.
  destruct (fetchStockFundamentals env ticker w) as [[e'|d] w1];
    cbn [fst snd] in *; [|discriminate].
  rewrite Hkeep. auto.
Qed.

Lemma ends_getAllTickers (w : World) (tickers : list string) (ex : option Z)
    (P : Redis -> Prop) :
  fault (redis w) = None ->
  db (redis w) !! "tickers" = Some (PTickers tickers, ex) ->
  P (redis w) ->
  ends (getAllTickers env) w (inr tickers) P.
Proof.
  intros Hup Htick HP. unfold getAllTickers.
  eapply ends_bind; [apply (ends_redis_get _ _ (fun R => R = redis w)); auto|].
  intros w1 Hw1. rewrite Htick. cbn. apply ends_ret. now rewrite Hw1.
Qed.

(** One turn of the loop in which the progress guard is false: the store
    is left alone and the loop goes on with the new counters. *)
Lemma ends_job_loop_turn (ticker : string) (rest : list string)
    (tot c f c' f' : nat) (snap snap' : list StockData) (w : World)
    (r : JsError + LoopEnd) (P : Redis -> Prop) :
  running_store (redis w) ->
  (forall w1, redis w1 = redis w ->
              ends (process_ticker env ticker c f snap) w1
                (inr (c', f', snap')) (fun R => R = redis w)) ->
  (c' mod 50 =? 0)%nat || (c' =? tot)%nat = false ->
  (forall w1, redis w1 = redis w ->
              ends (job_loop env rest tot c' f' snap') w1 r P) ->
  ends (job_loop env (ticker :: rest) tot c f snap) w r P.
Proof.
  intros [Hup Hrun] Hproc Hguard Hrest. cbn [job_loop].
  eapply ends_bind;
    [apply (ends_redis_get _ _ (fun R => R = redis w)); auto|].
  intros w1 Hw1. rewrite Hrun. cbn.
  eapply ends_bind; [apply Hproc; assumption|].
  intros w2 Hw2. cbn beta iota.
  unfold update_progress. rewrite Hguard.
  eapply ends_bind; [apply (ends_ret _ _ (fun R => R = redis w)); assumption|].
  intros w3 Hw3.
  eapply ends_bind; [apply (ends_sleep _ _ (fun R => R = redis w)); assumption|].
  intros w4 Hw4. apply Hrest. assumption.
Qed.

End QuietRuns.

Lemma pays_dividend_of_four (data : StockData) :
  (yield data == 4)%Q -> pays_dividend data = true.
Proof.
  intros Hy. unfold pays_dividend.
  destruct (Qle_bool (yield data) 0) eqn:E; [|reflexivity].
  apply Qle_bool_iff in E. rewrite Hy in E.
  exfalso. revert E. apply Qlt_not_le. reflexivity.
Qed.

(** C2, as stated, fails: in the scenario (AAA fetched with a yield of 4%,
    BBB refused with a [ValidationError]) the run ends with the snapshot
    and the idle status as claimed, but the progress record left in the
    store shows [completed = 0], not 2. *)
Lemma two_ticker_run_progress_is_not_2 :
  fst (fetchStockFundamentals demo_env "AAA" two_tickers) = inr AAA_record
  /\ (yield AAA_record == 4)%Q
  /\ fst (fetchStockFundamentals demo_env "BBB" two_tickers)
     = inl (ValidationError "Invalid ticker symbol: BBB")
  /\ stored (snd (runSnapshotJob demo_env two_tickers)) SNAPSHOT_KEY
     = Some (PSnapshot [AAA_record], Some SNAPSHOT_EXPIRY)
  /\ stored (snd (runSnapshotJob demo_env two_tickers)) JOB_STATUS_KEY
     = Some (PText "idle", None)
  /\ stored (snd (runSnapshotJob demo_env two_tickers)) JOB_PROGRESS_KEY
     = Some (PProgress (mkJobProgress 0 2 (Some "2025-01-01T00:00:00.000Z") 1),
             None)
  /\ completed (mkJobProgress 0 2 (Some "2025-01-01T00:00:00.000Z") 1) <> 2.
Proof.
  repeat split; try reflexivity. discriminate.
Qed.

(** C2, amended: over the universe AAA, BBB, with AAA fetched with a yield
    of 4% and BBB refused with a [ValidationError], and nobody else
    writing to the store, the run ends with the snapshot holding exactly
    the AAA record, the status idle, and its counters at one completed and
    one failed: the refused ticker is counted as failed, not as
    completed. *)
Theorem two_ticker_run_counts_the_failure_apart
    (env : Env) (w : World) (recA : StockData) (ex : option Z) :
  quiet env ->
  fault (redis w) = None ->
  is_running (fst <$> db (redis w) !! JOB_STATUS_KEY) = false ->
  db (redis w) !! "tickers" = Some (PTickers ["AAA"; "BBB"], ex) ->
  (forall w1, fst (fetchStockFundamentals env "AAA" w1) = inr recA) ->
  (yield recA == 4)%Q ->
  (forall w1, exists msg,
      fst (fetchStockFundamentals env "BBB" w1) = inl (ValidationError msg)) ->
  fst (runSnapshotJob env w) = inr (JobDone 1 1 [recA])
  /\ stored (snd (runSnapshotJob env w)) SNAPSHOT_KEY
     = Some (PSnapshot [recA], Some SNAPSHOT_EXPIRY)
  /\ stored (snd (runSnapshotJob env w)) JOB_STATUS_KEY
     = Some (PText "idle", None).
Proof.
  intros Hq Hup Hidle Htick HA HyA HB.
  pose proof (pays_dividend_of_four recA HyA) as Hpay.
  assert (HprocA : forall w1 (P : Redis -> Prop), P (redis w1) ->
             ends (process_ticker env "AAA" 0 0 []) w1 (inr (1, 0, [recA])) P).
  { intros w1 P HP.
    pose proof (ends_process_ticker_ok env Hq "AAA" 0 0 [] w1 recA P (HA w1) HP)
      as H.
    now rewrite Hpay in H. }
  assert (HprocB : forall w1 (P : Redis -> Prop), P (redis w1) ->
             ends (process_ticker env "BBB" 1 0 [recA]) w1
               (inr (1, 1, [recA])) P).
  { intros w1 P HP. destruct (HB w1) as [msg Hmsg].
    eapply ends_process_ticker_failed; eauto. }
  cut (ends (runSnapshotJob env) w (inr (JobDone 1 1 [recA]))
         (fun R => db R !! SNAPSHOT_KEY
                   = Some (PSnapshot [recA], Some SNAPSHOT_EXPIRY)
                   /\ db R !! JOB_STATUS_KEY = Some (PText "idle", None))).
  { intros [H1 [H2 H3]]. auto. }
  unfold runSnapshotJob.
  eapply ends_bind;
    [apply (ends_redis_get env Hq _ _ (fun R => R = redis w)); auto|].
  intros w1 Hw1. cbv beta in Hw1. rewrite Hidle.
  eapply ends_bind;
    [apply (ends_getAllTickers env Hq w1 ["AAA"; "BBB"] ex
              (fun R => R = redis w));
     rewrite ?Hw1; auto|].
  intros w2 Hw2. cbv beta in Hw2. cbn [length].
  eapply ends_bind;
    [apply (ends_redis_set env Hq _ _ _ _ running_store);
     [rewrite Hw2; assumption
     | split; [reflexivity | apply lookup_insert_eq]]|].
  intros w3 Hw3.
  eapply ends_bind with (P1 := running_store)
                        (a := clock env (length (trace w3)));
    [split; [reflexivity | exact Hw3]|].
  intros w4 Hw4.
  eapply ends_bind;
    [apply (ends_redis_set env Hq _ _ _ _ running_store);
     [apply Hw4
     | split; [reflexivity
              | cbn [db]; rewrite lookup_insert_ne by discriminate; apply Hw4]]|].
  intros w5 Hw5.
  eapply ends_bind with (P1 := running_store).
  - eapply (ends_job_loop_turn env Hq "AAA" ["BBB"] 2 0 0 1 0 [] [recA]);
      [exact Hw5 | | reflexivity |].
    + intros w6 Hw6. apply HprocA. exact Hw6.
    + intros w7 Hw7.
      eapply (ends_job_loop_turn env Hq "BBB" [] 2 1 0 1 1 [recA] [recA]);
        [rewrite Hw7; exact Hw5 | | reflexivity |].
      * intros w8 Hw8. apply HprocB. exact Hw8.
      * intros w9 Hw9. cbn [job_loop]. apply ends_ret.
        rewrite Hw9, Hw7. exact Hw5.
  - intros w6 [Hup6 Hrun6]. cbn [persist].
    eapply ends_bind;
      [apply (ends_redis_set env Hq _ _ _ _
                (fun R => fault R = None
                          /\ db R !! SNAPSHOT_KEY
                             = Some (PSnapshot [recA], Some SNAPSHOT_EXPIRY)));
       [exact Hup6 | split; [reflexivity | apply lookup_insert_eq]]|].
    intros w7 [Hup7 Hsnap7].
    eapply ends_bind;
      [apply (ends_redis_set env Hq _ _ _ _
                (fun R => db R !! SNAPSHOT_KEY
                          = Some (PSnapshot [recA], Some SNAPSHOT_EXPIRY)
                          /\ db R !! JOB_STATUS_KEY
                             = Some (PText "idle", None)));
       [exact Hup7
       | split; [cbn [db]; rewrite lookup_insert_ne by discriminate;
                 exact Hsnap7
                | apply lookup_insert_eq]]|].
    intros w8 Hw8. apply ends_ret. exact Hw8.
Qed.

Lemma two_ticker_run_counts_the_failure_apart_witness :
  fst (runSnapshotJob demo_env two_tickers) = inr (JobDone 1 1 [AAA_record])
  /\ stored (snd (runSnapshotJob demo_env two_tickers)) SNAPSHOT_KEY
     = Some (PSnapshot [AAA_record], Some SNAPSHOT_EXPIRY)
  /\ stored (snd (runSnapshotJob demo_env two_tickers)) JOB_STATUS_KEY
     = Some (PText "idle", None).
Proof.
  apply (two_ticker_run_counts_the_failure_apart demo_env two_tickers
           AAA_record (Some TICKER_EXPIRY_TIME)).
  - intros n r. reflexivity.
  - reflexivity.
  - reflexivity.
  - reflexivity.
  - intros w1. reflexivity.
  - reflexivity.
  - intros w1. exists "Invalid ticker symbol: BBB"%string. reflexivity.
Defined.

(** ** The cache and the job's fetch *)

(** [fetcher] answers from the cache: on a hit it reads the key and asks
    nobody else. *)
Lemma fetcher_cache_hit (env : Env) (key : string) (w : World)
    (v : Payload) (ex : option Z) :
  key <> ""%string ->
  fault (observed env w) = None ->
  db (observed env w) !! key = Some (v, ex) ->
  truthy_payload v = true ->
  fetcher env key w = (inr v, after env w (EGet key)).
Proof.
  intros Hkey Hup Hhit Htruthy. unfold fetcher, try_catch, bind.
  apply String.eqb_neq in Hkey. rewrite Hkey.
  rewrite redis_get_run, Hup, Hhit. cbn. rewrite Htruthy. reflexivity.
Qed.

(** The job's own fetch does not: with the API key set, processing a
    ticker begins with a request to Alpha Vantage, whatever the store
    holds. *)
Lemma process_ticker_asks_first (env : Env) (ticker : string) (c f : nat)
    (snap : list StockData) :
  truthy (config_alphaVantageAPIKey env) = true ->
  starts_with env (EFetch (overview_url env ticker))
    (process_ticker env ticker c f snap).
Proof.
  intros Hkey. unfold process_ticker.
  apply starts_with_try_catch.
  - apply starts_with_bind.
    + now apply fetchStockFundamentals_asks_first.
    + intros data. apply client_only_ret.
  - intros err. apply client_only_ret.
Qed.

(** C1, at the failing input: the universe is AAA, AAA's record is in the
    cache, and the run still asks Alpha Vantage for AAA. *)
Theorem cached_ticker_is_fetched_again :
  stored AAA_cached "AAA" = Some (PStock AAA_record, Some STOCK_DATA_EXPIRY_TIME)
  /\ fst (fetcher demo_env "AAA" AAA_cached) = inr (PStock AAA_record)
  /\ fetches (emitted (fetcher demo_env "AAA") AAA_cached) = []
  /\ fetches (emitted (runSnapshotJob demo_env) AAA_cached) = [demo_url "AAA"].
Proof. repeat split. Qed.

(** ** Progress checkpoints *)

(** [ceil_div] is the ceiling of the quotient when the divisor is
    positive. *)
Lemma ceil_div_spec (a b : Z) :
  (0 < b)%Z -> (b * (ceil_div a b - 1) < a <= b * ceil_div a b)%Z.
Proof.
  intros Hb. unfold ceil_div.
  pose proof (Z.div_mod (- a) b ltac:(lia)).
  pose proof (Z.mod_pos_bound (- a) b Hb). nia.
Qed.

(** The guard of the progress write. *)
Lemma update_progress_guard (env : Env) (tot c f : nat) :
  update_progress env tot c f
  = if decide (c mod 50 = 0 \/ c = tot)
    then checkpoint env tot c f else ret tt.
Proof.
  unfold update_progress.
  destruct (decide (c mod 50 = 0 \/ c = tot)) as [[H|H]|H].
  - apply Nat.eqb_eq in H. now rewrite H.
  - apply Nat.eqb_eq in H. rewrite H. now rewrite orb_true_r.
  - destruct (Nat.eqb_spec (c mod 50) 0); [tauto|].
    destruct (Nat.eqb_spec c tot); [tauto|]. reflexivity.
Qed.

(** Once a fetch has failed, the guard is false on the final symbol unless
    the completed count happens to be a multiple of 50. *)
Lemma update_progress_skips_final_after_failure (env : Env) (tot c f : nat) :
  c + f = tot -> 0 < f -> c mod 50 <> 0 ->
  update_progress env tot c f = ret tt.
Proof.
  intros Hsum Hf Hmod. rewrite update_progress_guard.
  destruct (decide (c mod 50 = 0 \/ c = tot)) as [[H|H]|H];
    [contradiction | lia | reflexivity].
Qed.

(** A checkpoint that goes through writes the counters, the estimate
    recomputed from what remains, and the [startedAt] it finds in the
    store. *)
Lemma checkpoint_record (env : Env) (tot c f : nat) (w : World)
    (p0 : JobProgress) (ex : option Z) :
  fault (observed env w) = None ->
  db (observed env w) !! JOB_PROGRESS_KEY = Some (PProgress p0, ex) ->
  fault (observed env (after env w (EGet JOB_PROGRESS_KEY))) = None ->
  exists p,
    emitted (checkpoint env tot c f) w
    = [EGet JOB_PROGRESS_KEY; ESet JOB_PROGRESS_KEY (PProgress p) None]
    /\ completed p = c /\ total p = tot
    /\ startedAt p = startedAt p0
    /\ estimatedMinutes p
       = ceil_div (Z.of_nat tot - Z.of_nat c - Z.of_nat f)
           (REQUESTS_PER_MINUTE env).
Proof.
  intros Hup Hprog Hup'.
  exists (mkJobProgress c tot (startedAt p0)
            (ceil_div (Z.of_nat tot - Z.of_nat c - Z.of_nat f)
               (REQUESTS_PER_MINUTE env))).
  split; [|repeat split].
  apply emitted_spec. unfold checkpoint, bind.
  rewrite redis_get_run, Hup, Hprog. cbn [fmap option_fmap option_map fst lift
                                          read_startedAt ret].
  rewrite redis_set_run, Hup'. cbn. now rewrite <- app_assoc.
Qed.

(** C3, at the failing input: over AAA, BBB with BBB refused, the run works
    through both symbols, yet the only progress record it writes is the
    one of initialisation; nothing is written on the final symbol. *)
Theorem no_checkpoint_on_final_symbol_after_a_failure :
  fst (runSnapshotJob demo_env two_tickers) = inr (JobDone 1 1 [AAA_record])
  /\ fetches (emitted (runSnapshotJob demo_env) two_tickers)
     = [demo_url "AAA"; demo_url "BBB"]
  /\ checkpoints (emitted (runSnapshotJob demo_env) two_tickers)
     = [mkJobProgress 0 2 (Some "2025-01-01T00:00:00.000Z") 1].
Proof. repeat split. Qed.

(** ** Cancellation *)




(* ------------------------------------------------------------------------- *)
(** * Further properties *)

(** ** The retrying HTTP client, case by case *)

Section ClientCases.

Variable env : Env.
Context {T : Type}.
Variable url : string.
Variable options : RequestInit.
Variable parseResponse : Response -> JsError + T.
Variable maxRetries : nat.

Abbreviation a_try := (attempt_try env url options parseResponse maxRetries).
Abbreviation a_catch := (attempt_catch env maxRetries).
Abbreviation a_loop := (retry_loop env url options parseResponse maxRetries).

Lemma yields_fetchWithTimeout :
  yields (fetchWithTimeout env url options) (fun _ evs => evs = [EFetch url]).
Proof.
  intros w. exists [EFetch url].
  unfold fetchWithTimeout, try_catch, fetch, bind, suspend, lift.
  destruct (network env (length (trace w)) url options) as [e|r];
    [cbn; destruct (ename e =? "AbortError")%string|]; split; reflexivity.
Qed.

Lemma yields_getRetryDelay (attempt : nat) :
  yields (getRetryDelay env attempt) (fun _ evs => evs = []).
Proof. intros w. exists []. cbn. now rewrite app_nil_r. Qed.

Lemma yields_pause (ms : option Z) :
  yields (sleep env ms) (fun _ evs => fetches evs = []).
Proof. intros w. exists [ESleep ms]. split; reflexivity. Qed.

Lemma yields_backoff (attempt : nat) {A} (a : A) :
  yields (bind (getRetryDelay env attempt)
            (fun delay => bind (sleep env (Some delay)) (fun _ => ret a)))
    (fun _ evs => fetches evs = []).
Proof.
  eapply yields_bind; [apply yields_getRetryDelay | |].
  - intros e evs ->. reflexivity.
  - intros d evs ->. eapply yields_bind; [apply yields_pause | |].
    + intros e evs H. exact H.
    + intros [] evs H. apply yields_ret. now rewrite app_nil_r.
Qed.

(** Each attempt asks the server exactly once. *)
Lemma yields_attempt_try (attempt : nat) :
  yields (a_try attempt) (fun _ evs => fetches evs = [url]).
Proof.
  unfold attempt_try.
  eapply yields_bind; [apply yields_fetchWithTimeout | |].
  - intros e evs ->. reflexivity.
  - intros response evs ->.
    eapply yields_weaken with (Q := fun _ evs => fetches evs = []);
      [| intros r evs H; rewrite fetches_app, H; reflexivity].
    destruct (status response =? 429)%Z.
    + eapply yields_bind with (Q1 := fun _ evs => evs = []).
      * destruct (truthy (retryAfter response)).
        -- apply yields_ret. reflexivity.
        -- eapply yields_bind; [apply yields_getRetryDelay | |].
           ++ intros e evs ->. reflexivity.
           ++ intros d evs ->. apply yields_ret. reflexivity.
      * intros e evs ->. reflexivity.
      * intros delay evs ->. destruct (attempt <? maxRetries)%nat.
        -- eapply yields_bind; [apply yields_pause | |].
           ++ intros e evs H. exact H.
           ++ intros [] evs H. apply yields_ret. now rewrite app_nil_r.
        -- apply yields_throw. reflexivity.
    + destruct ((500 <=? status response)%Z && (status response <? 600)%Z).
      * destruct (attempt <? maxRetries)%nat;
          [apply yields_backoff | apply yields_throw; reflexivity].
      * destruct ((400 <=? status response)%Z && (status response <? 500)%Z);
          [apply yields_throw; reflexivity|].
        destruct (ok response); [|apply yields_throw; reflexivity].
        eapply yields_bind with (Q1 := fun _ evs => evs = []).
        -- destruct (parseResponse response);
             [apply yields_throw | apply yields_ret]; reflexivity.
        -- intros e evs ->. reflexivity.
        -- intros v evs ->. apply yields_ret. reflexivity.
Qed.

Lemma yields_attempt_catch (attempt : nat) (error : JsError) :
  yields (a_catch attempt error) (fun _ evs => fetches evs = []).
Proof.
  unfold attempt_catch.
  destruct (not_retried error); [apply yields_throw; reflexivity|].
  destruct (attempt <? maxRetries)%nat; [|apply yields_ret; reflexivity].
  eapply yields_bind; [apply yields_getRetryDelay | |].
  - intros e evs ->. reflexivity.
  - intros d evs ->. apply yields_pause.
Qed.

(** The loop asks once per turn it takes, and takes at least one. *)
Lemma yields_retry_loop (remaining : nat) :
  forall (attempt : nat) (lastError : option JsError),
    yields (a_loop remaining attempt lastError)
      (fun _ evs =>
         exists n, fetches evs = replicate n url
                   /\ n <= remaining /\ (0 < remaining -> 0 < n)).
Proof.
  induction remaining as [|k IH]; intros attempt lastError; cbn [retry_loop].
  - apply yields_throw. exists 0. repeat split; lia.
  - eapply yields_bind
      with (Q1 := fun _ evs => fetches evs = [url]).
    + eapply yields_try_catch with (Q1 := fun _ evs => fetches evs = [url]).
      * eapply yields_bind; [apply yields_attempt_try | |].
        -- intros e evs H. exact H.
        -- intros flow evs H. apply yields_ret. now rewrite app_nil_r.
      * intros a evs H. exact H.
      * intros e evs1 H1.
        eapply yields_bind; [apply yields_attempt_catch | |].
        -- intros e' evs H. now rewrite fetches_app, H1, H.
        -- intros [] evs H. apply yields_ret.
           now rewrite app_nil_r, fetches_app, H1, H.
    + intros e evs H. exists 1. repeat split; try lia. exact H.
    + intros [[v|] le] evs1 H1.
      * apply yields_ret. exists 1. rewrite app_nil_r.
        repeat split; try lia. exact H1.
      * eapply yields_weaken; [apply IH|].
        intros r evs (n & Hn & Hle & _). exists (S n).
        rewrite fetches_app, H1, Hn. repeat split; lia.
Qed.

(** X1: whatever the network does, a call makes at least one request and
    at most [maxRetries + 1], all of them to the URL it was given. *)
Theorem fetchWithRetry_request_budget (w : World) :
  exists n,
    fetches (emitted (fetchWithRetry env url options parseResponse maxRetries) w)
    = replicate n url
    /\ 1 <= n <= S maxRetries.
Proof.
  destruct (yields_retry_loop (S maxRetries) 0 None w)
    as (evs & Htr & n & Hn & Hle & Hpos).
  exists n. unfold fetchWithRetry.
  rewrite (emitted_spec _ _ _ Htr). split; [exact Hn | lia].
Qed.

(** X2: a 4xx answer other than 429 ends the call at once: one request, no
    pause, and a [ValidationError] that carries the status and its text. *)
Theorem client_error_not_retried (remaining attempt : nat)
    (lastError : option JsError) (w : World) (r : Response) :
  network env (length (trace w)) url options = inr r ->
  (400 <= status r < 500)%Z ->
  status r <> 429%Z ->
  a_loop (S remaining) attempt lastError w
  = (inl (ValidationError ("Client error: " ++ pretty (status r) ++ " - "
                           ++ statusText r)%string),
     after env w (EFetch url)).
Proof.
  intros Hnet Hst Hne.
  rewrite retry_loop_step. unfold attempt_try, bind.
  rewrite (fetchWithTimeout_response env url options w r Hnet).
  replace (status r =? 429)%Z with false by (symmetry; apply Z.eqb_neq; lia).
  replace (500 <=? status r)%Z with false by (symmetry; apply Z.leb_gt; lia).
  replace (400 <=? status r)%Z with true by (symmetry; apply Z.leb_le; lia).
  replace (status r <? 500)%Z with true by (symmetry; apply Z.ltb_lt; lia).
  reflexivity.
Qed.

(** A 429 with retries left: pause, then go round again.  The pause is the
    header's [parseInt] times 1000 when the header is there, the computed
    backoff otherwise. *)
Lemma attempt_try_429_retry (attempt : nat) (w : World) (r : Response) :
  network env (length (trace w)) url options = inr r ->
  status r = 429%Z ->
  (attempt < maxRetries)%nat ->
  exists d,
    a_try attempt w = (inr Continue, advance env w [EFetch url; ESleep d]).
Proof.
  intros Hnet Hst Hlt. apply Nat.ltb_lt in Hlt.
  unfold attempt_try, bind.
  rewrite (fetchWithTimeout_response env url options w r Hnet).
  rewrite Hst, Z.eqb_refl.
  destruct (truthy (retryAfter r)); cbn [ret]; rewrite Hlt;
    eexists; reflexivity.
Qed.

Lemma attempt_try_429_last (attempt : nat) (w : World) (r : Response) :
  network env (length (trace w)) url options = inr r ->
  status r = 429%Z ->
  (maxRetries <= attempt)%nat ->
  a_try attempt w
  = (inl (RateLimitError "API rate limit exceeded"), advance env w [EFetch url]).
Proof.
  intros Hnet Hst Hge. apply Nat.ltb_ge in Hge.
  unfold attempt_try, bind.
  rewrite (fetchWithTimeout_response env url options w r Hnet).
  rewrite Hst, Z.eqb_refl.
  destruct (truthy (retryAfter r)); cbn [ret]; rewrite Hge; reflexivity.
Qed.

Lemma retry_loop_always_429 :
  (forall n, exists r, network env n url options = inr r /\ status r = 429%Z) ->
  forall (remaining attempt : nat) (lastError : option JsError) (w : World),
    attempt + remaining = S maxRetries ->
    remaining <> 0 ->
    exists evs,
      a_loop remaining attempt lastError w
      = (inl (RateLimitError "API rate limit exceeded"), advance env w evs)
      /\ fetches evs = replicate remaining url.
Proof.
  intros Hnet. induction remaining as [|k IH]; intros attempt lastError w Hsum Hpos.
  - congruence.
  - destruct (Hnet (length (trace w))) as (r & Hr & Hst).
    rewrite retry_loop_step.
    destruct k as [|k'].
    + rewrite (attempt_try_429_last attempt w r Hr Hst) by lia.
      exists [EFetch url]. split; reflexivity.
    + destruct (attempt_try_429_retry attempt w r Hr Hst) as [d Hd]; [lia|].
      rewrite Hd.
      destruct (IH (S attempt) lastError (advance env w [EFetch url; ESleep d]))
        as (evs & Hrun & Hfetch); [lia|congruence|].
      exists ([EFetch url; ESleep d] ++ evs). split.
      * rewrite Hrun. now rewrite advance_app.
      * rewrite fetches_app, Hfetch. reflexivity.
Qed.

(** X3: a server that answers 429 to every attempt is asked
    [maxRetries + 1] times, and the call then fails with a
    [RateLimitError]. *)
Theorem always_429_exhausts_the_budget (w : World) :
  (forall n, exists r, network env n url options = inr r /\ status r = 429%Z) ->
  fst (fetchWithRetry env url options parseResponse maxRetries w)
  = inl (RateLimitError "API rate limit exceeded")
  /\ fetches (emitted (fetchWithRetry env url options parseResponse maxRetries) w)
     = replicate (S maxRetries) url.
Proof.
  intros Hnet.
  destruct (retry_loop_always_429 Hnet (S maxRetries) 0 None w)
    as (evs & Hrun & Hfetch); [reflexivity|discriminate|].
  unfold fetchWithRetry. split.
  - now rewrite Hrun.
  - erewrite emitted_spec; [exact Hfetch|].
    rewrite Hrun. cbn [snd]. apply trace_advance.
Qed.

(** X4: on a 429 with a [Retry-After] header and retries left, the next
    attempt starts after one pause of exactly the header's [parseInt]
    times 1000 milliseconds (a [NaN] pause when the header does not parse),
    whatever the backoff would have been. *)
Theorem retry_after_is_the_pause (remaining attempt : nat)
    (lastError : option JsError) (w : World) (r : Response) (s : string) :
  network env (length (trace w)) url options = inr r ->
  status r = 429%Z ->
  retryAfter r = Some s ->
  s <> ""%string ->
  (attempt < maxRetries)%nat ->
  a_loop (S remaining) attempt lastError w
  = a_loop remaining (S attempt) lastError
      (advance env w
         [EFetch url; ESleep ((fun n => n * 1000)%Z <$> parseInt env s)]).
Proof.
  intros Hnet Hst Hhdr Hs Hlt. apply Nat.ltb_lt in Hlt.
  apply String.eqb_neq in Hs.
  rewrite retry_loop_step. unfold attempt_try, bind.
  rewrite (fetchWithTimeout_response env url options w r Hnet).
  rewrite Hst, Z.eqb_refl, Hhdr. cbn [truthy]. rewrite Hs. cbn [negb ret].
  rewrite Hlt. reflexivity.
Qed.

(** A request that runs into the timeout surfaces as the [NetworkError]
    "Request timeout". *)
Lemma fetchWithTimeout_aborted (w : World) (e : JsError) :
  network env (length (trace w)) url options = inl e ->
  ename e = "AbortError"%string ->
  fetchWithTimeout env url options w
  = (inl (NetworkError "Request timeout"), after env w (EFetch url)).
Proof.
  intros Hnet Hname.
  unfold fetchWithTimeout, try_catch, fetch, bind, suspend, lift.
  rewrite Hnet. cbn. rewrite Hname. reflexivity.
Qed.

(** Any other rejection of [fetch] passes through unchanged. *)
Lemma fetchWithTimeout_rejected (w : World) (e : JsError) :
  network env (length (trace w)) url options = inl e ->
  ename e <> "AbortError"%string ->
  fetchWithTimeout env url options w = (inl e, after env w (EFetch url)).
Proof.
  intros Hnet Hname. apply String.eqb_neq in Hname.
  unfold fetchWithTimeout, try_catch, fetch, bind, suspend, lift.
  rewrite Hnet. cbn. rewrite Hname. reflexivity.
Qed.

Lemma retry_loop_always_timeout :
  (forall n, exists e, network env n url options = inl e
                       /\ ename e = "AbortError"%string) ->
  forall (remaining attempt : nat) (lastError : option JsError) (w : World),
    attempt + remaining = S maxRetries ->
    remaining <> 0 ->
    exists evs,
      a_loop remaining attempt lastError w
      = (inl (NetworkError "Request timeout"), advance env w evs)
      /\ fetches evs = replicate remaining url.
Proof.
  intros Hnet. induction remaining as [|k IH]; intros attempt lastError w Hsum Hpos.
  - congruence.
  - destruct (Hnet (length (trace w))) as (e & He & Hname).
    rewrite retry_loop_step. unfold attempt_try at 1. unfold bind at 1.
    rewrite (fetchWithTimeout_aborted w e He Hname).
    unfold attempt_catch. cbn [not_retried is_ValidationError is_RateLimitError
                                 eclass NetworkError ename message orb].
    cbn [String.eqb Ascii.eqb Bool.eqb negb andb].
    destruct k as [|k'].
    + replace (attempt <? maxRetries)%nat with false
        by (symmetry; apply Nat.ltb_ge; lia).
      cbn [ret retry_loop throw default].
      exists [EFetch url]. split; reflexivity.
    + replace (attempt <? maxRetries)%nat with true
        by (symmetry; apply Nat.ltb_lt; lia).
      unfold bind at 1. unfold getRetryDelay at 1. unfold bind at 1.
      cbn [Math_random_ms ret sleep suspend].
      match goal with
      | |- context [ retry_loop _ _ _ _ _ (S k') (S attempt) ?le ?w1 ] =>
          destruct (IH (S attempt) le w1) as (evs & Hrun & Hfetch);
            [lia | congruence |]
      end.
      rewrite Hrun.
      match goal with
      | |- context [ after env (after env w ?e1) ?e2 ] =>
          exists ([e1; e2] ++ evs)
      end.
      split; [now rewrite <- advance_app | ].
      rewrite fetches_app, Hfetch. reflexivity.
Qed.

(** X5: when every attempt runs into the request timeout, the call is
    retried to the end of its budget, [maxRetries + 1] requests, and then
    fails with the [NetworkError] "Request timeout". *)
Theorem timeouts_are_retried (w : World) :
  (forall n, exists e, network env n url options = inl e
                       /\ ename e = "AbortError"%string) ->
  fst (fetchWithRetry env url options parseResponse maxRetries w)
  = inl (NetworkError "Request timeout")
  /\ fetches (emitted (fetchWithRetry env url options parseResponse maxRetries) w)
     = replicate (S maxRetries) url.
Proof.
  intros Hnet.
  destruct (retry_loop_always_timeout Hnet (S maxRetries) 0 None w)
    as (evs & Hrun & Hfetch); [reflexivity|discriminate|].
  unfold fetchWithRetry. split.
  - now rewrite Hrun.
  - erewrite emitted_spec; [exact Hfetch|].
    rewrite Hrun. cbn [snd]. apply trace_advance.
Qed.

(** X6: when [fetch] itself rejects with an error that is not the
    timeout's [AbortError], whose name is not "NetworkError" and whose
    message is not "Request timeout" (the [TypeError] "fetch failed" of a
    refused connection, say), the call is not retried: it fails with that
    error after the one request. *)
Theorem rejected_fetch_not_retried (remaining attempt : nat)
    (lastError : option JsError) (w : World) (e : JsError) :
  network env (length (trace w)) url options = inl e ->
  ename e <> "AbortError"%string ->
  ename e <> "NetworkError"%string ->
  message e <> "Request timeout"%string ->
  a_loop (S remaining) attempt lastError w = (inl e, after env w (EFetch url)).
Proof.
  intros Hnet Habort Hname Hmsg.
  assert (Hnr : not_retried e = true).
  { unfold not_retried.
    apply String.eqb_neq in Hname. apply String.eqb_neq in Hmsg.
    rewrite Hname, Hmsg. cbn [negb andb]. apply orb_true_r. }
  rewrite retry_loop_step. unfold attempt_try, bind.
  rewrite (fetchWithTimeout_rejected w e Hnet Habort).
  unfold attempt_catch. rewrite Hnr. reflexivity.
Qed.

Lemma retry_loop_recovers (k : nat) :
  forall (remaining attempt : nat) (lastError : option JsError) (w : World)
         (r : Response) (v : T),
    k < remaining ->
    attempt + k <= maxRetries ->
    (forall i, i < k ->
       exists r', network env (length (trace w) + 2 * i) url options = inr r'
                  /\ (500 <= status r' < 600)%Z) ->
    network env (length (trace w) + 2 * k) url options = inr r ->
    ok r = true ->
    parseResponse r = inr v ->
    exists evs,
      a_loop remaining attempt lastError w = (inr v, advance env w evs)
      /\ fetches evs = replicate (S k) url.
Proof.
  induction k as [|k IH];
    intros remaining attempt lastError w r v Hrem Hatt Hbad Hgood Hok Hparse;
    (destruct remaining as [|remaining]; [lia|]); rewrite retry_loop_step.
  - rewrite Nat.add_0_r in Hgood.
    rewrite (attempt_try_ok env url options parseResponse maxRetries
               attempt w r Hgood Hok), Hparse.
    exists [EFetch url]. split; reflexivity.
  - destruct (Hbad 0 ltac:(lia)) as (r' & Hr' & Hst').
    rewrite Nat.add_0_r in Hr'.
    destruct (attempt_try_5xx_retry env url options parseResponse maxRetries
                attempt w r' Hr' Hst') as [d Hd]; [lia|].
    rewrite Hd.
    assert (Hlen : length (trace (advance env w [EFetch url; ESleep (Some d)]))
                   = length (trace w) + 2).
    { rewrite trace_advance, length_app. reflexivity. }
    destruct (IH remaining (S attempt) lastError
                (advance env w [EFetch url; ESleep (Some d)]) r v)
      as (evs & Hrun & Hfetch); try assumption; try lia.
    + intros i Hi. rewrite Hlen.
      destruct (Hbad (S i) ltac:(lia)) as (r'' & Hr'' & Hst'').
      exists r''. split; [|assumption].
      replace (length (trace w) + 2 + 2 * i) with (length (trace w) + 2 * S i)
        by lia. exact Hr''.
    + rewrite Hlen.
      replace (length (trace w) + 2 + 2 * k) with (length (trace w) + 2 * S k)
        by lia. exact Hgood.
    + exists ([EFetch url; ESleep (Some d)] ++ evs). split.
      * rewrite Hrun. now rewrite advance_app.
      * rewrite fetches_app, Hfetch. reflexivity.
Qed.

(** X7: if the first [k] attempts are answered 5xx ([k] no more than
    [maxRetries]) and the next one 2xx with a body that parses, the call
    returns the parsed value after exactly [k + 1] requests.  Each failed
    attempt takes two effects, the request and the pause, which is how the
    attempts are numbered in the network's answers. *)
Theorem recovers_after_server_errors (k : nat) (w : World) (r : Response) (v : T) :
  k <= maxRetries ->
  (forall i, i < k ->
     exists r', network env (length (trace w) + 2 * i) url options = inr r'
                /\ (500 <= status r' < 600)%Z) ->
  network env (length (trace w) + 2 * k) url options = inr r ->
  ok r = true ->
  parseResponse r = inr v ->
  fst (fetchWithRetry env url options parseResponse maxRetries w) = inr v
  /\ fetches (emitted (fetchWithRetry env url options parseResponse maxRetries) w)
     = replicate (S k) url.
Proof.
  intros Hk Hbad Hgood Hok Hparse.
  destruct (retry_loop_recovers k (S maxRetries) 0 None w r v)
    as (evs & Hrun & Hfetch); try assumption; try lia.
  unfold fetchWithRetry. split.
  - now rewrite Hrun.
  - erewrite emitted_spec; [exact Hfetch|].
    rewrite Hrun. cbn [snd]. apply trace_advance.
Qed.

End ClientCases.

Lemma client_error_not_retried_witness :
  fetchWithRetry (scenario_with always_404 demo_json no_sec no_int (Some "demo"))
    (demo_url "ZZZ") [] demo_json MAX_RETRIES empty_world
  = (inl (ValidationError "Client error: 404 - Not Found"),
     after (scenario_with always_404 demo_json no_sec no_int (Some "demo"))
       empty_world (EFetch (demo_url "ZZZ"))).
Proof.
  apply (client_error_not_retried
           (scenario_with always_404 demo_json no_sec no_int (Some "demo"))
           (demo_url "ZZZ") [] demo_json MAX_RETRIES MAX_RETRIES 0 None
           empty_world (mkResponse 404 "Not Found" None ""));
    [reflexivity | cbn; lia | discriminate].
Defined.

Lemma always_429_exhausts_the_budget_witness :
  fst (fetchWithRetry (scenario_with always_429 demo_json no_sec two_seconds
                         (Some "demo"))
         (demo_url "AAA") [] demo_json MAX_RETRIES empty_world)
  = inl (RateLimitError "API rate limit exceeded")
  /\ fetches (emitted (fetchWithRetry
                         (scenario_with always_429 demo_json no_sec two_seconds
                            (Some "demo"))
                         (demo_url "AAA") [] demo_json MAX_RETRIES) empty_world)
     = replicate 4 (demo_url "AAA").
Proof.
  apply (always_429_exhausts_the_budget
           (scenario_with always_429 demo_json no_sec two_seconds (Some "demo"))).
  intros n. eexists. split; reflexivity.
Defined.

Lemma retry_after_is_the_pause_witness :
  retry_loop (scenario_with always_429 demo_json no_sec two_seconds (Some "demo"))
    (demo_url "AAA") [] demo_json MAX_RETRIES 4 0 None empty_world
  = retry_loop (scenario_with always_429 demo_json no_sec two_seconds (Some "demo"))
      (demo_url "AAA") [] demo_json MAX_RETRIES 3 1 None
      (advance (scenario_with always_429 demo_json no_sec two_seconds (Some "demo"))
         empty_world [EFetch (demo_url "AAA"); ESleep (Some 2000%Z)]).
Proof.
  apply (retry_after_is_the_pause
           (scenario_with always_429 demo_json no_sec two_seconds (Some "demo"))
           (demo_url "AAA") [] demo_json MAX_RETRIES 3 0 None empty_world
           (mkResponse 429 "Too Many Requests" (Some "2") "") "2");
    [reflexivity | reflexivity | reflexivity | discriminate
    | unfold MAX_RETRIES; lia].
Defined.

Lemma timeouts_are_retried_witness :
  fst (fetchWithRetry (scenario_with always_timeout demo_json no_sec no_int
                         (Some "demo"))
         (demo_url "AAA") [] demo_json MAX_RETRIES empty_world)
  = inl (NetworkError "Request timeout")
  /\ fetches (emitted (fetchWithRetry
                         (scenario_with always_timeout demo_json no_sec no_int
                            (Some "demo"))
                         (demo_url "AAA") [] demo_json MAX_RETRIES) empty_world)
     = replicate 4 (demo_url "AAA").
Proof.
  apply (timeouts_are_retried
           (scenario_with always_timeout demo_json no_sec no_int (Some "demo"))).
  intros n. eexists. split; reflexivity.
Defined.

Lemma rejected_fetch_not_retried_witness :
  fetchWithRetry (scenario_with refused demo_json no_sec no_int (Some "demo"))
    (demo_url "AAA") [] demo_json MAX_RETRIES empty_world
  = (inl (mkError IsOtherError "TypeError" "fetch failed"),
     after (scenario_with refused demo_json no_sec no_int (Some "demo"))
       empty_world (EFetch (demo_url "AAA"))).
Proof.
  apply (rejected_fetch_not_retried
           (scenario_with refused demo_json no_sec no_int (Some "demo"))
           (demo_url "AAA") [] demo_json MAX_RETRIES MAX_RETRIES 0 None
           empty_world (mkError IsOtherError "TypeError" "fetch failed"));
    [reflexivity | discriminate | discriminate | discriminate].
Defined.

Lemma recovers_after_server_errors_witness :
  fst (fetchWithRetry (scenario_with flaky_network demo_json no_sec no_int
                         (Some "demo"))
         (demo_url "AAA") [] demo_json MAX_RETRIES empty_world)
  = inr (mkAlphaVantageResponse (Some "AAA") (Some "Technology") (Some "0.04")
           None None)
  /\ fetches (emitted (fetchWithRetry
                         (scenario_with flaky_network demo_json no_sec no_int
                            (Some "demo"))
                         (demo_url "AAA") [] demo_json MAX_RETRIES) empty_world)
     = replicate 3 (demo_url "AAA").
Proof.
  apply (recovers_after_server_errors
           (scenario_with flaky_network demo_json no_sec no_int (Some "demo"))
           (demo_url "AAA") [] demo_json MAX_RETRIES 2 empty_world
           (mkResponse 200 "OK" None "AAA")).
  - unfold MAX_RETRIES; lia.
  - intros i Hi. exists (mkResponse 503 "Service Unavailable" None "").
    split; [|cbn; lia].
    destruct i as [|[|i]]; [reflexivity | reflexivity | lia].
  - reflexivity.
  - reflexivity.
  - reflexivity.
Defined.

(** ** The fundamentals fetcher *)

Section FundamentalsFacts.

Variable env : Env.

Abbreviation overview ticker :=
  (fetchWithRetry env (overview_url env ticker) [("Accept", "application/json")]
     (json_overview env) MAX_RETRIES).

(** X9: once Alpha Vantage has answered, its payload is checked in a
    fixed order.  An "Error Message" makes the fetch fail with a
    [ValidationError] whatever else the payload holds; failing that, a
    "Note" makes it fail with a [RateLimitError], even beside a valid
    symbol; failing both, a payload without "Symbol" fails with a
    [ValidationError]. *)
Theorem overview_anomalies_in_order
    (ticker : string) (w w' : World) (response : AlphaVantageResponse) :
  truthy (config_alphaVantageAPIKey env) = true ->
  overview ticker w = (inr response, w') ->
  (truthy (Error_Message response) = true ->
   fetchStockFundamentals env ticker w
   = (inl (ValidationError ("Invalid ticker symbol: " ++ ticker)%string), w'))
  /\ (truthy (Error_Message response) = false ->
      truthy (Note response) = true ->
      fetchStockFundamentals env ticker w
      = (inl (RateLimitError "Alpha Vantage API rate limit reached"), w'))
  /\ (truthy (Error_Message response) = false ->
      truthy (Note response) = false ->
      truthy (Symbol response) = false ->
      fetchStockFundamentals env ticker w
      = (inl (ValidationError ("No data found for ticker: " ++ ticker)%string),
         w')).
Proof.
  intros Hkey Hresp.
  unfold fetchStockFundamentals. rewrite Hkey. cbn [negb].
  unfold bind. rewrite Hresp.
  repeat split.
  - intros ->. reflexivity.
  - intros -> ->. reflexivity.
  - intros -> -> Hsym. destruct (Symbol response) as [s|]; [|reflexivity].
    cbn in Hsym. apply negb_false_iff in Hsym. rewrite Hsym. reflexivity.
Qed.

(** X10: every record the fetch returns has a non-empty ticker, which is
    also its name (both are the payload's "Symbol", not the ticker asked
    for), and a sector that is one of the labels the translation can
    produce or "Unknown". *)
Theorem fetched_record_shape (ticker0 : string) (w : World) (d : StockData) :
  fst (fetchStockFundamentals env ticker0 w) = inr d ->
  name d = ticker d
  /\ ticker d <> ""%string
  /\ In (sector d)
        ["Manufacturing"; "Services"; "Retail"; "Property"; "Energy";
         "Unknown"]%string.
Proof.
  unfold fetchStockFundamentals.
  destruct (negb (truthy (config_alphaVantageAPIKey env))); [discriminate|].
  unfold bind.
  destruct (overview ticker0 w) as [[e|response] w']; [discriminate|].
  destruct (truthy (Error_Message response)); [discriminate|].
  destruct (truthy (Note response)); [discriminate|].
  destruct (Symbol response) as [symbol|]; [|discriminate].
  destruct (symbol =? "")%string eqn:Hsym; [discriminate|].
  cbn [fst ret]. intros H. injection H as <-. cbn [name ticker sector].
  split; [reflexivity|]. split; [now apply String.eqb_neq|].
  assert (Hunknown : In "Unknown"%string
                       ["Manufacturing"; "Services"; "Retail"; "Property";
                        "Energy"; "Unknown"]%string) by (cbn; tauto).
  destruct (Sector response) as [s|]; [|exact Hunknown].
  destruct (s =? "")%string; [exact Hunknown|].
  destruct (getSectorTranslation_cases s) as [H|[H|[H|[H|[H|H]]]]];
    rewrite H; cbn; tauto.
Qed.

(** X11: which records pay.  The yield of a returned record is zero when
    the payload's "DividendYield" is missing, empty, "None", "-" or not a
    number; otherwise it has the sign of the parsed number: it is above
    zero exactly when that number is, and below zero exactly when that
    number is, a negative yield being kept and not clamped.  So a record
    counts as paying a dividend exactly when the field parses to a number
    above zero.  (The product by 100 is a floating-point one in the
    source; only its sign is stated.) *)
Theorem fetched_yield_sign
    (ticker0 : string) (w w' : World) (response : AlphaVantageResponse)
    (d : StockData) :
  overview ticker0 w = (inr response, w') ->
  fst (fetchStockFundamentals env ticker0 w) = inr d ->
  match DividendYield response with
  | None => yield d = 0%Q /\ pays_dividend d = false
  | Some dy =>
      if ((dy =? "") || (dy =? "None") || (dy =? "-"))%string
      then yield d = 0%Q /\ pays_dividend d = false
      else match parseFloat env dy with
           | None => yield d = 0%Q /\ pays_dividend d = false
           | Some parsed =>
               ((0 < yield d)%Q <-> (0 < parsed)%Q)
               /\ ((yield d < 0)%Q <-> (parsed < 0)%Q)
               /\ (pays_dividend d = true <-> (0 < parsed)%Q)
           end
  end.
Proof.
  intros Hresp. unfold fetchStockFundamentals.
  destruct (negb (truthy (config_alphaVantageAPIKey env))); [discriminate|].
  unfold bind. rewrite Hresp.
  destruct (truthy (Error_Message response)); [discriminate|].
  destruct (truthy (Note response)); [discriminate|].
  destruct (Symbol response) as [symbol|]; [|discriminate].
  destruct (symbol =? "")%string; [discriminate|].
  cbn [fst ret]. intros H. injection H as <-.
  unfold pays_dividend. cbn [yield].
  destruct (DividendYield response) as [dy|]; [|split; reflexivity].
  destruct (dy =? "")%string, (dy =? "None")%string, (dy =? "-")%string;
    cbn [negb andb orb]; try (split; reflexivity).
  destruct (parseFloat env dy) as [parsed|]; [|split; reflexivity].
  assert (Hpos : (0 < parsed * 100)%Q <-> (0 < parsed)%Q).
  { unfold Qlt. cbn. lia. }
  assert (Hneg : (parsed * 100 < 0)%Q <-> (parsed < 0)%Q).
  { unfold Qlt. cbn. lia. }
  split; [exact Hpos|]. split; [exact Hneg|].
  rewrite <- Hpos, negb_true_iff, <- not_true_iff_false, Qle_bool_iff.
  split; [apply Qnot_le_lt | apply Qlt_not_le].
Qed.

End FundamentalsFacts.

Lemma overview_anomalies_in_order_witness :
  fetchStockFundamentals demo_env "BBB" empty_world
  = (inl (ValidationError "Invalid ticker symbol: BBB"),
     after demo_env empty_world (EFetch (demo_url "BBB"))).
Proof.
  apply (overview_anomalies_in_order demo_env "BBB" empty_world
           (after demo_env empty_world (EFetch (demo_url "BBB")))
           (mkAlphaVantageResponse None None None None
              (Some "Invalid API call.")));
    reflexivity.
Defined.

Lemma fetched_record_shape_witness :
  name AAA_record = ticker AAA_record
  /\ ticker AAA_record <> ""%string
  /\ In (sector AAA_record)
        ["Manufacturing"; "Services"; "Retail"; "Property"; "Energy";
         "Unknown"]%string.
Proof.
  apply (fetched_record_shape demo_env "AAA" empty_world AAA_record).
  reflexivity.
Defined.

Lemma fetched_yield_sign_witness :
  ((0 < yield AAA_record)%Q <-> (0 < 4 # 100)%Q)
  /\ ((yield AAA_record < 0)%Q <-> (4 # 100 < 0)%Q)
  /\ (pays_dividend AAA_record = true <-> (0 < 4 # 100)%Q).
Proof.
  apply (fetched_yield_sign demo_env "AAA" empty_world
           (after demo_env empty_world (EFetch (demo_url "AAA")))
           (mkAlphaVantageResponse (Some "AAA") (Some "Technology")
              (Some "0.04") None None) AAA_record);
    reflexivity.
Defined.

(** ** The cached fetcher *)

Section FetcherFacts.

Variable env : Env.

(** X12: [fetcher] never rejects: whatever the key, the store and the
    network do, it returns a payload. *)
Theorem fetcher_never_throws (key : string) (w : World) :
  exists v, fst (fetcher env key w) = inr v.
Proof.
  unfold fetcher, try_catch.
  match goal with
  | |- context [ match ?m w with _ => _ end ] => destruct (m w) as [[e|v] w']
  end.
  - unfold fetcher_catch.
    destruct (is_RateLimitError e), (is_ValidationError e), (is_NetworkError e);
      eexists; reflexivity.
  - eexists; reflexivity.
Qed.

Lemma client_only_fetchTickers : client_only env (fetchTickers env).
Proof.
  unfold fetchTickers, fetchWithRetry.
  apply client_only_bind; [apply client_only_retry_loop|].
  intros response. apply client_only_ret.
Qed.

(** What a miss on a stock key does, given how the fundamentals fetch
    ends. *)
Lemma fetcher_on_miss (key : string) (w : World) :
  key <> ""%string ->
  key <> "tickers"%string ->
  fault (observed env w) = None ->
  db (observed env w) !! key = None ->
  fetcher env key w
  = match fetchStockFundamentals env key (after env w (EGet key)) with
    | (inl e, w1) => fetcher_catch e w1
    | (inr data, w1) =>
        match redis_set env key (PStock data) (Some STOCK_DATA_EXPIRY_TIME) w1 with
        | (inl e, w2) => fetcher_catch e w2
        | (inr _, w2) => (inr (PStock data), w2)
        end
    end.
Proof.
  intros Hkey Htick Hup Hmiss.
  apply String.eqb_neq in Hkey. apply String.eqb_neq in Htick.
  unfold fetcher, try_catch, bind at 1. rewrite Hkey.
  rewrite redis_get_run, Hup, Hmiss. cbn [fmap option_fmap option_map].
  unfold fetcher_miss. rewrite Htick. unfold bind, ret.
  destruct (fetchStockFundamentals env key (after env w (EGet key)))
    as [[e|data] w1]; [reflexivity|].
  destruct (redis_set env key (PStock data) (Some STOCK_DATA_EXPIRY_TIME) w1)
    as [[e|[]] w2]; reflexivity.
Qed.

(** X13: read-through.  With nobody else at the store, a miss on a stock
    key whose fetch succeeds returns the record and leaves it in the store
    with the one-hour expiry; asking again for the same key returns the
    same payload from the store, with no request to Alpha Vantage. *)
Theorem fetcher_miss_then_hit (key : string) (w : World) (data : StockData) :
  quiet env ->
  key <> ""%string ->
  key <> "tickers"%string ->
  fault (redis w) = None ->
  db (redis w) !! key = None ->
  fst (fetchStockFundamentals env key (after env w (EGet key))) = inr data ->
  fst (fetcher env key w) = inr (PStock data)
  /\ stored (snd (fetcher env key w)) key
     = Some (PStock data, Some STOCK_DATA_EXPIRY_TIME)
  /\ fetcher env key (snd (fetcher env key w))
     = (inr (PStock data), after env (snd (fetcher env key w)) (EGet key)).
Proof.
  intros Hq Hkey Htick Hup Hmiss Hfetch.
  assert (Hobs : forall w0, observed env w0 = redis w0) by (intros; apply Hq).
  rewrite fetcher_on_miss by (rewrite ?Hobs; assumption).
  pose proof (client_only_keeps_store env Hq _ (after env w (EGet key))
                (client_only_fetchStockFundamentals env key)) as Hkeep.
  destruct (fetchStockFundamentals env key (after env w (EGet key)))
    as [[e|d] w1]; cbn [fst snd] in *; [discriminate|].
  injection Hfetch as ->.
  assert (Hw1 : redis w1 = redis w) by (rewrite Hkeep; cbn; apply Hobs).
  rewrite redis_set_run, Hobs, Hw1, Hup. cbn [fst snd].
  split; [reflexivity|]. split.
  - unfold stored. cbn. apply lookup_insert_eq.
  - apply (fetcher_cache_hit env key _ (PStock data)
             (Some STOCK_DATA_EXPIRY_TIME)); try assumption.
    + rewrite Hobs. reflexivity.
    + rewrite Hobs. cbn. apply lookup_insert_eq.
    + reflexivity.
Qed.

(** X14: a failed fetch leaves nothing behind.  On a miss whose
    fundamentals fetch throws, [fetcher] writes nothing to the store and
    returns the error as a payload: "RATE_LIMIT", "VALIDATION_ERROR" with
    the error's own message, "NETWORK_ERROR", or "UNKNOWN_ERROR" for any
    other error. *)
Theorem failed_fetch_is_not_cached (key : string) (w : World) (e : JsError) :
  key <> ""%string ->
  key <> "tickers"%string ->
  fault (observed env w) = None ->
  db (observed env w) !! key = None ->
  fst (fetchStockFundamentals env key (after env w (EGet key))) = inl e ->
  fst (fetcher env key w)
  = inr (match eclass e with
         | IsRateLimitError =>
             PErrorBody "RATE_LIMIT"
               "API rate limit exceeded. Please try again later."
         | IsValidationError => PErrorBody "VALIDATION_ERROR" (message e)
         | IsNetworkError =>
             PErrorBody "NETWORK_ERROR"
               "Network error occurred. Please try again."
         | IsOtherError =>
             PErrorBody "UNKNOWN_ERROR" "An unexpected error occurred."
         end)
  /\ writes_nothing (emitted (fetcher env key) w).
Proof.
  intros Hkey Htick Hup Hmiss Hfetch.
  destruct (client_only_fetchStockFundamentals env key
              (after env w (EGet key))) as (evs & Hclient & Hw1).
  assert (Hrun : fetcher env key w
                 = (fst (fetcher_catch e
                           (advance env (after env w (EGet key)) evs)),
                    advance env (after env w (EGet key)) evs)).
  { rewrite fetcher_on_miss by assumption.
    destruct (fetchStockFundamentals env key (after env w (EGet key)))
      as [[e'|d] w1]; cbn [fst snd] in *; [|discriminate].
    injection Hfetch as ->. subst w1.
    unfold fetcher_catch.
    destruct (is_RateLimitError e), (is_ValidationError e),
      (is_NetworkError e); reflexivity. }
  split.
  - rewrite Hrun. cbn [fst]. unfold fetcher_catch.
    unfold is_RateLimitError, is_ValidationError, is_NetworkError.
    destruct (eclass e); reflexivity.
  - intros k. erewrite emitted_spec
      with (evs := [EGet key] ++ evs).
    + rewrite writes_to_app.
      rewrite (client_events_write_nothing k evs Hclient). reflexivity.
    + rewrite Hrun. cbn [snd]. rewrite trace_advance. cbn.
      now rewrite <- app_assoc.
Qed.

(** X15: [fetcher("tickers")] primes the job.  With nobody else at the
    store, a miss on the universe whose SEC fetch succeeds returns the
    list, leaves it in the store with the two-week expiry, and the job's
    [getAllTickers] then reads that same list. *)
Theorem fetcher_primes_the_universe (w : World) (tickers : list string) :
  quiet env ->
  fault (redis w) = None ->
  db (redis w) !! "tickers" = None ->
  fst (fetchTickers env (after env w (EGet "tickers"))) = inr tickers ->
  fst (fetcher env "tickers" w) = inr (PTickers tickers)
  /\ stored (snd (fetcher env "tickers" w)) "tickers"
     = Some (PTickers tickers, Some TICKER_EXPIRY_TIME)
  /\ fst (getAllTickers env (snd (fetcher env "tickers" w))) = inr tickers.
Proof.
  intros Hq Hup Hmiss Hfetch.
  assert (Hobs : forall w0, observed env w0 = redis w0) by (intros; apply Hq).
  pose proof (client_only_keeps_store env Hq _ (after env w (EGet "tickers"))
                client_only_fetchTickers) as Hkeep.
  assert (Hrun : exists w2,
             fetcher env "tickers" w = (inr (PTickers tickers), w2)
             /\ redis w2
                = {| db := <["tickers" := (PTickers tickers,
                                           Some TICKER_EXPIRY_TIME)]>
                             (db (redis w));
                     fault := None |}).
  { unfold fetcher, try_catch, bind at 1. cbn [String.eqb].
    rewrite redis_get_run, Hobs, Hup, Hmiss. cbn [fmap option_fmap option_map].
    unfold fetcher_miss. cbn [String.eqb Ascii.eqb Bool.eqb]. unfold bind, ret.
    destruct (fetchTickers env (after env w (EGet "tickers")))
      as [[e|l] w1]; cbn [fst snd] in *; [discriminate|].
    injection Hfetch as ->.
    assert (Hw1 : redis w1 = redis w) by (rewrite Hkeep; cbn; apply Hobs).
    rewrite redis_set_run, Hobs, Hw1, Hup.
    eexists. split; reflexivity. }
  destruct Hrun as (w2 & Hrun & Hw2). rewrite Hrun. cbn [fst snd].
  split; [reflexivity|]. split.
  - unfold stored. rewrite Hw2. cbn. apply lookup_insert_eq.
  - unfold getAllTickers, bind.
    rewrite redis_get_run, Hobs, Hw2. cbn [fault db].
    rewrite lookup_insert_eq. reflexivity.
Qed.

End FetcherFacts.

Lemma fetcher_miss_then_hit_witness :
  fst (fetcher demo_env "AAA" empty_world) = inr (PStock AAA_record)
  /\ stored (snd (fetcher demo_env "AAA" empty_world)) "AAA"
     = Some (PStock AAA_record, Some STOCK_DATA_EXPIRY_TIME)
  /\ fetcher demo_env "AAA" (snd (fetcher demo_env "AAA" empty_world))
     = (inr (PStock AAA_record),
        after demo_env (snd (fetcher demo_env "AAA" empty_world)) (EGet "AAA")).
Proof.
  apply (fetcher_miss_then_hit demo_env "AAA" empty_world AAA_record).
  - intros n r. reflexivity.
  - discriminate.
  - discriminate.
  - reflexivity.
  - reflexivity.
  - reflexivity.
Defined.

Lemma failed_fetch_is_not_cached_witness :
  fst (fetcher demo_env "BBB" empty_world)
  = inr (PErrorBody "VALIDATION_ERROR" "Invalid ticker symbol: BBB")
  /\ writes_nothing (emitted (fetcher demo_env "BBB") empty_world).
Proof.
  apply (failed_fetch_is_not_cached demo_env "BBB" empty_world
           (ValidationError "Invalid ticker symbol: BBB")).
  - discriminate.
  - discriminate.
  - reflexivity.
  - reflexivity.
  - reflexivity.
Defined.

Lemma fetcher_primes_the_universe_witness :
  fst (fetcher (scenario_with sec_network demo_json sec_json no_int (Some "demo"))
         "tickers" empty_world)
  = inr (PTickers ["AAA"; "BBB"]%string)
  /\ stored (snd (fetcher (scenario_with sec_network demo_json sec_json no_int
                             (Some "demo")) "tickers" empty_world)) "tickers"
     = Some (PTickers ["AAA"; "BBB"]%string, Some TICKER_EXPIRY_TIME)
  /\ fst (getAllTickers
            (scenario_with sec_network demo_json sec_json no_int (Some "demo"))
            (snd (fetcher (scenario_with sec_network demo_json sec_json no_int
                             (Some "demo")) "tickers" empty_world)))
     = inr ["AAA"; "BBB"]%string.
Proof.
  apply (fetcher_primes_the_universe
           (scenario_with sec_network demo_json sec_json no_int (Some "demo"))
           empty_world ["AAA"; "BBB"]%string).
  - intros n r. reflexivity.
  - reflexivity.
  - reflexivity.
  - reflexivity.
Defined.

(** ** The snapshot job: counters, snapshot and status *)

Section JobAccounts.

Variable env : Env.

Lemma pays_dividend_spec (d : StockData) :
  pays_dividend d = true <-> (0 < yield d)%Q.
Proof.
  unfold pays_dividend. rewrite negb_true_iff.
  split.
  - intros H. apply Qnot_le_lt. intros Hle.
    apply Qle_bool_iff in Hle. congruence.
  - intros H. destruct (Qle_bool (yield d) 0) eqn:E; [|reflexivity].
    apply Qle_bool_iff in E. exfalso. revert E. now apply Qlt_not_le.
Qed.

Lemma writes_to_other_key (key k : string) (v : Payload) (ex : option Z) :
  k <> key -> writes_to k [ESet key v ex] = [].
Proof.
  intros Hne. cbn. destruct (String.eqb_spec key k); [congruence|reflexivity].
Qed.

(** What one ticker does to the counters and the snapshot. *)
Lemma yields_process_ticker_snapshot (ticker : string) (c f : nat)
    (snap : list StockData) :
  yields (process_ticker env ticker c f snap)
    (fun r evs =>
       forallb is_client_event evs = true
       /\ exists c' f' added,
            r = inr (c', f', snap ++ added)
            /\ c' + f' = S (c + f) /\ c <= c'
            /\ length added <= c' - c
            /\ Forall (fun d => pays_dividend d = true) added).
Proof.
  unfold process_ticker.
  eapply yields_try_catch
    with (Q1 := fun r evs =>
                  forallb is_client_event evs = true
                  /\ match r with
                     | inl _ => True
                     | inr (c', f', snap') =>
                         c' = S c /\ f' = f
                         /\ exists added, snap' = snap ++ added
                                          /\ length added <= 1
                                          /\ Forall (fun d => pays_dividend d = true)
                                                    added
                     end).
  - eapply yields_bind.
    + apply (yields_client_only env), client_only_fetchStockFundamentals.
    + intros e evs H. cbn. auto.
    + intros data evs1 H1. apply yields_ret. rewrite app_nil_r.
      split; [exact H1|]. split; [reflexivity|]. split; [reflexivity|].
      destruct (pays_dividend data) eqn:Hpay.
      * exists [data]. split; [reflexivity|]. split; [cbn; lia|].
        constructor; [assumption|constructor].
      * exists []. rewrite app_nil_r. split; [reflexivity|].
        split; [cbn; lia | constructor].
  - intros [[c' f'] snap'] evs (Hc & -> & -> & added & -> & Hlen & Hpay).
    split; [assumption|]. exists (S c), f, added.
    repeat split; try lia; assumption.
  - intros e evs1 [Hc _]. apply yields_ret. rewrite app_nil_r.
    split; [assumption|]. exists c, (S f), [].
    rewrite app_nil_r. repeat split; try lia; [cbn; lia | constructor].
Qed.

(** The guarded progress write touches no key but the progress key, and
    its record carries the [total] it was given. *)
Lemma yields_update_progress_keys (tot c f : nat) :
  yields (update_progress env tot c f)
    (fun _ evs =>
       fetches evs = []
       /\ (forall k, k <> JOB_PROGRESS_KEY -> writes_to k evs = [])
       /\ Forall (fun p => total p = tot) (checkpoints evs)).
Proof.
  unfold update_progress.
  destruct ((c mod 50 =? 0)%nat || (c =? tot)%nat).
  - unfold checkpoint.
    eapply yields_bind; [apply yields_redis_get | |].
    + intros e evs ->. repeat split; constructor.
    + intros raw evs1 ->.
      eapply yields_bind with (Q1 := fun _ evs => evs = []).
      * destruct (read_startedAt raw); [apply yields_throw | apply yields_ret];
          reflexivity.
      * intros e evs ->. repeat split; constructor.
      * intros started evs ->.
        eapply yields_weaken; [apply yields_redis_set|].
        intros r evs ->. split; [reflexivity|]. split.
        -- intros k Hk. rewrite !writes_to_app.
           rewrite (writes_to_other_key JOB_PROGRESS_KEY k _ _ Hk).
           reflexivity.
        -- repeat constructor.
  - apply yields_ret. repeat split; constructor.
Qed.

(** The loop as a whole: it writes to the progress key only, every
    progress record carries [tot], and when it runs to the end the
    counters have moved by the number of tickers and the snapshot has
    grown by dividend payers only, at most one per completed ticker. *)
Lemma yields_job_loop_accounts (tot : nat) (tickers : list string) :
  forall (c f : nat) (snap : list StockData),
    yields (job_loop env tickers tot c f snap)
      (fun out evs =>
         (forall k, k <> JOB_PROGRESS_KEY -> writes_to k evs = [])
         /\ Forall (fun p => total p = tot) (checkpoints evs)
         /\ forall c' f' snap',
              out = inr (Finished c' f' snap') ->
              c' + f' = c + f + length tickers /\ c <= c'
              /\ exists added,
                   snap' = snap ++ added
                   /\ length added <= c' - c
                   /\ Forall (fun d => pays_dividend d = true) added).
Proof.
  induction tickers as [|t rest IH]; intros c f snap; cbn [job_loop].
  - apply yields_ret. split; [reflexivity|]. split; [constructor|].
    intros c' f' snap' H. injection H as <- <- <-. cbn [length].
    split; [lia|]. split; [lia|]. exists []. rewrite app_nil_r.
    repeat split; [cbn; lia | constructor].
  - eapply yields_bind; [apply yields_redis_get | |].
    { intros e evs ->. split; [reflexivity|]. split; [constructor|].
      intros ? ? ? H. discriminate. }
    intros status evs1 ->.
    destruct (negb (is_running status)).
    { apply yields_ret. split; [reflexivity|]. split; [constructor|].
      intros ? ? ? H. discriminate. }
    eapply yields_bind; [apply yields_process_ticker_snapshot | |].
    { intros e evs (_ & c' & f' & added & Heq & _). discriminate. }
    intros [[c1 f1] snap1] evs2
      (Hclient & c1' & f1' & added1 & Heq & Hsum & Hle & Hlen & Hpay).
    injection Heq as -> -> ->.
    assert (Hquiet2 : forall k, writes_to k ([EGet JOB_STATUS_KEY] ++ evs2) = []).
    { intros k. rewrite writes_to_app.
      now rewrite (client_events_write_nothing k evs2 Hclient). }
    assert (Hcp2 : checkpoints ([EGet JOB_STATUS_KEY] ++ evs2) = []).
    { unfold checkpoints. now rewrite Hquiet2. }
    eapply yields_bind; [apply yields_update_progress_keys | |].
    { intros e evs (_ & Hkeys & Htot). rewrite app_assoc. split; [|split].
      - intros k Hk. now rewrite writes_to_app, Hquiet2, Hkeys.
      - now rewrite checkpoints_app, Hcp2.
      - intros ? ? ? H. discriminate. }
    intros [] evs3 (_ & Hkeys3 & Htot3).
    eapply yields_bind; [apply yields_sleep | |].
    { intros e evs [H _]. discriminate. }
    intros [] evs4 [_ ->].
    eapply yields_weaken; [apply (IH c1' f1' (snap ++ added1))|].
    intros out evs5 (Hkeys5 & Htot5 & Hfin).
    replace ([EGet JOB_STATUS_KEY] ++ evs2 ++ evs3 ++ [ESleep (Some (MS_PER_REQUEST env))] ++ evs5)
      with (([EGet JOB_STATUS_KEY] ++ evs2) ++ evs3
            ++ [ESleep (Some (MS_PER_REQUEST env))] ++ evs5)
      by now rewrite <- app_assoc.
    split; [|split].
    + intros k Hk.
      rewrite (writes_to_app k ([EGet JOB_STATUS_KEY] ++ evs2)), Hquiet2.
      rewrite !writes_to_app, (Hkeys3 k Hk), (Hkeys5 k Hk). reflexivity.
    + rewrite (checkpoints_app ([EGet JOB_STATUS_KEY] ++ evs2)), Hcp2.
      rewrite !checkpoints_app. cbn [app].
      apply Forall_app. split; [assumption|].
      apply Forall_app. split; [constructor | assumption].
    + intros c' f' snap' Hout.
      destruct (Hfin c' f' snap' Hout) as (Hsum' & Hle' & added & -> & Hlen' & Hpay').
      cbn [length]. split; [lia|]. split; [lia|].
      exists (added1 ++ added). rewrite app_assoc. split; [reflexivity|].
      split; [rewrite length_app; lia|].
      apply Forall_app. split; assumption.
Qed.

(** X16: a run that finishes has accounted for every ticker: its two
    counters add up to the [total] of every progress record it wrote, the
    snapshot it wrote is the one it returns, every entry of that snapshot
    has a yield above zero, and there are no more entries than completed
    tickers.  This holds whatever the network and the rest of the process
    do. *)
Theorem finished_run_accounts_for_every_ticker
    (w : World) (c f : nat) (snap : list StockData) :
  fst (runSnapshotJob env w) = inr (JobDone c f snap) ->
  writes_to SNAPSHOT_KEY (emitted (runSnapshotJob env) w) = [PSnapshot snap]
  /\ Forall (fun d => (0 < yield d)%Q) snap
  /\ length snap <= c
  /\ Forall (fun p => total p = c + f) (checkpoints (emitted (runSnapshotJob env) w)).
Proof.
  assert (Hrun : yields (runSnapshotJob env)
            (fun out evs =>
               forall c f snap, out = inr (JobDone c f snap) ->
                 writes_to SNAPSHOT_KEY evs = [PSnapshot snap]
                 /\ Forall (fun d => pays_dividend d = true) snap
                 /\ length snap <= c
                 /\ Forall (fun p => total p = c + f) (checkpoints evs))).
  { unfold runSnapshotJob.
    eapply yields_bind; [apply yields_redis_get | |].
    { intros e evs -> ? ? ? H. discriminate. }
    intros status evs1 ->. destruct (is_running status).
    { apply yields_ret. intros ? ? ? H. discriminate. }
    eapply yields_bind; [apply yields_getAllTickers | |].
    { intros e evs -> ? ? ? H. discriminate. }
    intros tickers evs2 ->.
    eapply yields_bind; [apply yields_redis_set | |].
    { intros e evs -> ? ? ? H. discriminate. }
    intros [] evs3 ->.
    eapply yields_bind with (Q1 := fun _ evs => evs = []).
    { intros w0. exists []. cbn. now rewrite app_nil_r. }
    { intros e evs -> ? ? ? H. discriminate. }
    intros started evs4 ->.
    eapply yields_bind; [apply yields_redis_set | |].
    { intros e evs -> ? ? ? H. discriminate. }
    intros [] evs5 ->.
    eapply yields_bind;
      [apply (yields_job_loop_accounts (length tickers) tickers 0 0 []) | |].
    { intros e evs _ ? ? ? H. discriminate. }
    intros r evs6 (Hkeys & Htot & Hfin).
    destruct r as [|c1 f1 snap1]; cbn [persist].
    { apply yields_ret. intros ? ? ? H. discriminate. }
    destruct (Hfin c1 f1 snap1 eq_refl)
      as (Hsum & _ & added & Hsnap & Hlen & Hpay).
    cbn [app] in Hsnap. subst snap1.
    eapply yields_bind; [apply yields_redis_set | |].
    { intros e evs -> ? ? ? H. discriminate. }
    intros [] evs7 ->.
    eapply yields_bind; [apply yields_redis_set | |].
    { intros e evs -> ? ? ? H. discriminate. }
    intros [] evs8 ->. apply yields_ret.
    intros c0 f0 snap0 H. injection H as <- <- <-.
    rewrite !writes_to_app, !checkpoints_app.
    rewrite (Hkeys SNAPSHOT_KEY) by discriminate.
    split; [reflexivity|]. split; [assumption|]. split; [lia|].
    cbn [app]. repeat (apply Forall_app; split); try (now constructor);
      try (repeat constructor; cbn; lia);
      try (eapply Forall_impl; [exact Htot|]; intros p Hp; cbn beta in *; lia). }
  intros Hdone. destruct (Hrun w) as (evs & Htr & Hq).
  rewrite (emitted_spec _ _ _ Htr).
  destruct (Hq c f snap Hdone) as (H1 & H2 & H3 & H4).
  repeat split; try assumption.
  eapply Forall_impl; [exact H2|]. intros d Hd. now apply pays_dividend_spec.
Qed.

End JobAccounts.

Lemma finished_run_accounts_for_every_ticker_witness :
  writes_to SNAPSHOT_KEY (emitted (runSnapshotJob demo_env) two_tickers)
  = [PSnapshot [AAA_record]]
  /\ Forall (fun d => (0 < yield d)%Q) [AAA_record]
  /\ length [AAA_record] <= 1
  /\ Forall (fun p => total p = 1 + 1)
            (checkpoints (emitted (runSnapshotJob demo_env) two_tickers)).
Proof.
  apply (finished_run_accounts_for_every_ticker demo_env two_tickers 1 1
           [AAA_record]).
  reflexivity.
Defined.

Section JobStatusWrites.

Variable env : Env.

Lemma yields_runSnapshotJob_status :
  yields (runSnapshotJob env) status_log.
Proof.
  unfold runSnapshotJob.
  eapply yields_bind; [apply yields_redis_get | |].
  { intros e evs ->. left. reflexivity. }
  intros status evs1 ->. destruct (is_running status).
  { apply yields_ret. reflexivity. }
  eapply yields_bind; [apply yields_getAllTickers | |].
  { intros e evs ->. left. reflexivity. }
  intros tickers evs2 ->.
  eapply yields_bind; [apply yields_redis_set | |].
  { intros e evs ->. right. left. reflexivity. }
  intros [] evs3 ->.
  eapply yields_bind with (Q1 := fun _ evs => evs = []).
  { intros w0. exists []. cbn. now rewrite app_nil_r. }
  { intros e evs ->. right. left. reflexivity. }
  intros started evs4 ->.
  eapply yields_bind; [apply yields_redis_set | |].
  { intros e evs ->. right. left. reflexivity. }
  intros [] evs5 ->.
  eapply yields_bind;
    [apply (yields_job_loop_accounts env (length tickers) tickers 0 0 []) | |].
  { intros e evs (Hkeys & _). right. left.
    rewrite !writes_to_app, (Hkeys JOB_STATUS_KEY) by discriminate.
    reflexivity. }
  intros r evs6 (Hkeys & _).
  assert (Hloop : forall rest,
             writes_to JOB_STATUS_KEY
               ([EGet JOB_STATUS_KEY] ++ [EGet "tickers"]
                ++ [ESet JOB_STATUS_KEY (PText "running") None] ++ []
                ++ [ESet JOB_PROGRESS_KEY
                      (PProgress
                         {| completed := 0; total := length tickers;
                            startedAt := Some started;
                            estimatedMinutes :=
                              ceil_div (Z.of_nat (length tickers))
                                (REQUESTS_PER_MINUTE env) |}) None]
                ++ evs6 ++ rest)
             = PText "running" :: writes_to JOB_STATUS_KEY rest).
  { intros rest. rewrite !writes_to_app, (Hkeys JOB_STATUS_KEY) by discriminate.
    reflexivity. }
  destruct r as [|c f snap]; cbn [persist].
  { apply yields_ret. unfold status_log. now rewrite Hloop. }
  eapply yields_bind; [apply yields_redis_set | |].
  { intros e evs ->. right. left. now rewrite Hloop. }
  intros [] evs7 ->.
  eapply yields_bind; [apply yields_redis_set | |].
  { intros e evs ->. right. right. now rewrite Hloop. }
  intros [] evs8 ->. apply yields_ret. unfold status_log. now rewrite Hloop.
Qed.

(** X17: the job writes the status at most twice, "running" once it has
    the universe and "idle" after the snapshot, and never "failed".  A
    skipped run writes no status, a cancelled run only "running", a
    finished run both; a run that throws has written none, "running", or
    both when it is the last write itself that failed. *)
Theorem status_writes_of_a_run (w : World) :
  match fst (runSnapshotJob env w) with
  | inr JobSkipped =>
      writes_to JOB_STATUS_KEY (emitted (runSnapshotJob env) w) = []
  | inr JobCancelled =>
      writes_to JOB_STATUS_KEY (emitted (runSnapshotJob env) w)
      = [PText "running"]
  | inr (JobDone _ _ _) =>
      writes_to JOB_STATUS_KEY (emitted (runSnapshotJob env) w)
      = [PText "running"; PText "idle"]
  | inl _ =>
      writes_to JOB_STATUS_KEY (emitted (runSnapshotJob env) w) = []
      \/ writes_to JOB_STATUS_KEY (emitted (runSnapshotJob env) w)
         = [PText "running"]
      \/ writes_to JOB_STATUS_KEY (emitted (runSnapshotJob env) w)
         = [PText "running"; PText "idle"]
  end.
Proof.
  destruct (yields_runSnapshotJob_status w) as (evs & Htr & Hlog).
  rewrite (emitted_spec _ _ _ Htr). exact Hlog.
Qed.

(** X18: the status "failed" is written by the task that
    POST /api/snapshot/trigger starts, and by it exactly when the job
    throws; the job on its own, which is how the nightly schedule runs it,
    never writes "failed". *)
Theorem failed_status_iff_job_throws (w : World) :
  (In (PText "failed")
      (writes_to JOB_STATUS_KEY (emitted (triggered_run env) w))
   <-> exists e, fst (runSnapshotJob env w) = inl e)
  /\ ~ In (PText "failed")
         (writes_to JOB_STATUS_KEY (emitted (runSnapshotJob env) w)).
Proof.
  destruct (yields_runSnapshotJob_status w) as (evs & Htr & Hlog).
  rewrite (emitted_spec _ _ _ Htr).
  assert (Hjob : ~ In (PText "failed") (writes_to JOB_STATUS_KEY evs)).
  { unfold status_log in Hlog.
    destruct (fst (runSnapshotJob env w)) as [e|[| |c f snap]];
      [destruct Hlog as [Hlog|[Hlog|Hlog]]| | |];
      rewrite Hlog; cbn; intros H; intuition discriminate. }
  split; [|exact Hjob].
  assert (Htask : emitted (triggered_run env) w
                  = evs ++ match fst (runSnapshotJob env w) with
                           | inl _ => [ESet JOB_STATUS_KEY (PText "failed") None]
                           | inr _ => []
                           end).
  { apply emitted_spec.
    unfold triggered_run, try_catch, bind, ret.
    destruct (runSnapshotJob env w) as [[e|r] w1]; cbn [fst snd] in *.
    - rewrite redis_set_run.
      destruct (fault (observed env w1)); cbn [snd trace after];
        now rewrite Htr, <- app_assoc.
    - now rewrite Htr, app_nil_r. }
  rewrite Htask, writes_to_app.
  destruct (fst (runSnapshotJob env w)) as [e|r].
  - split; [eauto|]. intros _. apply in_or_app. right. cbn. now left.
  - cbn [writes_to omap]. rewrite app_nil_r. split; [tauto|].
    intros [e He]. discriminate.
Qed.

End JobStatusWrites.

(** ** The snapshot job, with nobody else at the store and every fetch
    settled *)

Section SettledRuns.

Variable env : Env.
Hypothesis Hq : quiet env.

Lemma ends_eq {A} (m : M A) (w : World) (r r' : JsError + A)
    (P : Redis -> Prop) :
  r = r' -> ends m w r P -> ends m w r' P.
Proof. intros ->. auto. Qed.

Lemma ends_bind_at {A B} (m : M A) (k : A -> M B) (w w1 : World) (a : A)
    (r : JsError + B) (P : Redis -> Prop) :
  m w = (inr a, w1) -> ends (k a) w1 r P -> ends (bind m k) w r P.
Proof. unfold ends, bind. intros ->. auto. Qed.

Lemma redis_get_quiet (key : string) (w : World) :
  fault (redis w) = None ->
  redis_get env key w
  = (inr (fst <$> db (redis w) !! key),
     {| redis := redis w; trace := trace w ++ [EGet key] |}).
Proof.
  intros Hup. rewrite redis_get_run. unfold after.
  rewrite (observed_quiet env Hq), Hup. reflexivity.
Qed.

Lemma redis_set_quiet (key : string) (v : Payload) (ex : option Z) (w : World) :
  fault (redis w) = None ->
  redis_set env key v ex w
  = (inr tt,
     {| redis := {| db := <[key := (v, ex)]> (db (redis w)); fault := None |};
        trace := trace w ++ [ESet key v ex] |}).
Proof.
  intros Hup. rewrite redis_set_run.
  rewrite (observed_quiet env Hq), Hup. reflexivity.
Qed.

Lemma length_successes (outcome : string -> JsError + StockData)
    (tickers : list string) :
  length (successes outcome tickers) <= length tickers.
Proof.
  induction tickers as [|t rest IH]; [reflexivity|].
  unfold successes in *. cbn. destruct (outcome t); cbn; lia.
Qed.

(** A checkpoint keeps the store of a run in flight as it is, but for the
    counters of the progress record. *)
Lemma ends_checkpoint (started : string) (tot c f : nat) (w : World) :
  job_store started tot (redis w) ->
  ends (checkpoint env tot c f) w (inr tt) (job_store started tot).
Proof.
  intros (Hup & Hrun & p & Hp & Hs & Ht). unfold checkpoint.
  eapply ends_bind;
    [apply (ends_redis_get env Hq _ _ (fun R => R = redis w)); auto|].
  intros w1 Hw1. cbv beta in Hw1. rewrite Hp. cbn [fmap option_fmap option_map fst].
  eapply ends_bind with (a := startedAt p) (P1 := fun R => R = redis w);
    [split; [reflexivity | exact Hw1]|].
  intros w2 Hw2. cbv beta in Hw2.
  apply (ends_redis_set env Hq); [now rewrite Hw2|].
  rewrite Hw2. split; [reflexivity|]. cbn [db]. split.
  - rewrite lookup_insert_ne by discriminate. exact Hrun.
  - eexists. split; [apply lookup_insert_eq|]. split; [exact Hs | reflexivity].
Qed.

Lemma ends_update_progress (started : string) (tot c f : nat) (w : World) :
  job_store started tot (redis w) ->
  ends (update_progress env tot c f) w (inr tt) (job_store started tot).
Proof.
  intros Hst. unfold update_progress.
  destruct ((c mod 50 =? 0)%nat || (c =? tot)%nat).
  - now apply ends_checkpoint.
  - now apply ends_ret.
Qed.

(** The loop, when every ticker's fetch is settled: the completed count
    grows by the fetches that succeed, the failed count by the others,
    and the snapshot by the successful records that pay a dividend, in
    universe order; the store keeps the run's [startedAt] and [total]. *)
Lemma ends_job_loop_settled (started : string) (tot : nat)
    (outcome : string -> JsError + StockData) (tickers : list string) :
  forall (c f : nat) (snap : list StockData) (w : World),
    settled env outcome tickers ->
    job_store started tot (redis w) ->
    ends (job_loop env tickers tot c f snap) w
      (inr (Finished
              (c + length (successes outcome tickers))
              (f + (length tickers - length (successes outcome tickers)))
              (snap ++ List.filter pays_dividend (successes outcome tickers))))
      (job_store started tot).
Proof.
  induction tickers as [|t rest IH]; intros c f snap w Hset Hst.
  - cbn [job_loop]. eapply ends_eq; [|apply ends_ret; exact Hst].
    cbn. rewrite app_nil_r. do 2 f_equal; lia.
  - assert (Hrest : settled env outcome rest).
    { intros t' Ht'. apply Hset. now right. }
    pose proof (Hset t (or_introl eq_refl)) as Ht.
    pose proof (length_successes outcome rest) as Hlen.
    pose proof Hst as (Hup & Hrun & _).
    cbn [job_loop].
    eapply ends_bind;
      [apply (ends_redis_get env Hq _ _ (fun R => R = redis w)); auto|].
    intros w1 Hw1. cbv beta in Hw1. rewrite Hrun.
    cbn [fmap option_fmap option_map fst is_running String.eqb Ascii.eqb
           Bool.eqb negb].
    unfold successes. cbn [omap list_omap]. fold (successes outcome rest).
    destruct (outcome t) as [e|d] eqn:Ho.
    + eapply ends_bind;
        [apply (ends_process_ticker_failed env Hq t c f snap w1 e
                  (job_store started tot));
         [rewrite Ht; reflexivity | now rewrite Hw1]|].
      intros w2 Hw2. cbn beta iota.
      eapply ends_bind; [apply (ends_update_progress started); exact Hw2|].
      intros w3 Hw3.
      eapply ends_bind;
        [apply (ends_sleep env Hq _ _ (job_store started tot)); exact Hw3|].
      intros w4 Hw4.
      eapply ends_eq; [|apply (IH c (S f) snap w4 Hrest Hw4)].
      cbn [length]. do 2 f_equal; lia.
    + eapply ends_bind;
        [apply (ends_process_ticker_ok env Hq t c f snap w1 d
                  (job_store started tot));
         [rewrite Ht; reflexivity | now rewrite Hw1]|].
      intros w2 Hw2. cbn beta iota.
      eapply ends_bind; [apply (ends_update_progress started); exact Hw2|].
      intros w3 Hw3.
      eapply ends_bind;
        [apply (ends_sleep env Hq _ _ (job_store started tot)); exact Hw3|].
      intros w4 Hw4.
      eapply ends_eq; [|apply (IH (S c) f _ w4 Hrest Hw4)].
      cbn [length List.filter].
      destruct (pays_dividend d); rewrite <- ?app_assoc; cbn [app];
        do 2 f_equal; lia.
Qed.

(** A whole run from a store that can be reached, is not marked running
    and holds the universe. *)
Lemma ends_run_settled (w : World) (tickers : list string) (ex : option Z)
    (outcome : string -> JsError + StockData) :
  fault (redis w) = None ->
  is_running (fst <$> db (redis w) !! JOB_STATUS_KEY) = false ->
  db (redis w) !! "tickers" = Some (PTickers tickers, ex) ->
  settled env outcome tickers ->
  ends (runSnapshotJob env) w
    (inr (JobDone
            (length (successes outcome tickers))
            (length tickers - length (successes outcome tickers))
            (List.filter pays_dividend (successes outcome tickers))))
    (finished_store (clock env (length (trace w) + 3)) (length tickers)
       (List.filter pays_dividend (successes outcome tickers))).
Proof.
  intros Hup Hidle Htick Hset.
  set (started := clock env (length (trace w) + 3)).
  unfold runSnapshotJob.
  eapply ends_bind_at; [apply (redis_get_quiet _ _ Hup)|].
  rewrite Hidle.
  eapply ends_bind_at.
  { unfold getAllTickers, bind.
    rewrite redis_get_quiet by exact Hup. cbn [redis]. rewrite Htick.
    reflexivity. }
  eapply ends_bind_at; [apply redis_set_quiet; exact Hup|].
  eapply ends_bind_at.
  { unfold Date_now_ISO. cbn [trace]. rewrite !length_app. cbn [length].
    replace (length (trace w) + 1 + 1 + 1) with (length (trace w) + 3) by lia.
    fold started. reflexivity. }
  eapply ends_bind;
    [apply (ends_redis_set env Hq _ _ _ _
              (job_store started (length tickers))); [reflexivity|]|].
  { split; [reflexivity|]. cbn [db redis]. split.
    - rewrite lookup_insert_ne by discriminate. apply lookup_insert_eq.
    - eexists. split; [apply lookup_insert_eq|]. split; reflexivity. }
  intros w5 Hw5.
  eapply ends_bind;
    [apply (ends_job_loop_settled started (length tickers) outcome tickers
              0 0 [] w5 Hset Hw5)|].
  intros w6 (Hup6 & Hrun6 & p & Hp & Hs & Ht). cbn [persist plus app].
  eapply ends_bind;
    [apply (ends_redis_set env Hq _ _ _ _
              (fun R => fault R = None
                        /\ db R !! SNAPSHOT_KEY
                           = Some (PSnapshot
                                     (List.filter pays_dividend
                                        (successes outcome tickers)),
                                   Some SNAPSHOT_EXPIRY)
                        /\ db R !! JOB_PROGRESS_KEY = Some (PProgress p, None)));
     [exact Hup6|]|].
  { split; [reflexivity|]. cbn [db]. split; [apply lookup_insert_eq|].
    rewrite lookup_insert_ne by discriminate. exact Hp. }
  intros w7 (Hup7 & Hsnap7 & Hp7).
  eapply ends_bind;
    [apply (ends_redis_set env Hq _ _ _ _
              (finished_store started (length tickers)
                 (List.filter pays_dividend (successes outcome tickers))));
     [exact Hup7|]|].
  { split; [reflexivity|]. cbn [db]. split.
    - rewrite lookup_insert_ne by discriminate. exact Hsnap7.
    - split; [apply lookup_insert_eq|].
      exists p. split; [|split; assumption].
      rewrite lookup_insert_ne by discriminate. exact Hp7. }
  intros w8 Hw8. apply ends_ret. exact Hw8.
Qed.

End SettledRuns.

(** X19: what a run computes.  With nobody else at the store, the store
    reachable and not marked running, the universe cached, and each
    ticker's fetch settled, the run ends with [completed] the number of
    fetches that succeed, [failed] the number that do not, and the
    snapshot the successful records with a yield above zero, in universe
    order.  The store then holds that snapshot with the 24-hour expiry,
    the status "idle", and a progress record with the universe's size and
    the [startedAt] taken when the run began (after its first three
    effects). *)
Theorem settled_run_result
    (env : Env) (w : World) (tickers : list string) (ex : option Z)
    (outcome : string -> JsError + StockData) :
  quiet env ->
  fault (redis w) = None ->
  is_running (fst <$> db (redis w) !! JOB_STATUS_KEY) = false ->
  db (redis w) !! "tickers" = Some (PTickers tickers, ex) ->
  settled env outcome tickers ->
  fst (runSnapshotJob env w)
  = inr (JobDone
           (length (successes outcome tickers))
           (length tickers - length (successes outcome tickers))
           (List.filter pays_dividend (successes outcome tickers)))
  /\ finished_store (clock env (length (trace w) + 3)) (length tickers)
       (List.filter pays_dividend (successes outcome tickers))
       (redis (snd (runSnapshotJob env w))).
Proof.
  intros Hq Hup Hidle Htick Hset.
  exact (ends_run_settled env Hq w tickers ex outcome Hup Hidle Htick Hset).
Qed.

Lemma demo_settled : settled demo_env demo_outcome ["AAA"; "BBB"]%string.
Proof.
  intros t [<-|[<-|[]]] w; reflexivity.
Qed.

Lemma settled_run_result_witness :
  fst (runSnapshotJob demo_env two_tickers) = inr (JobDone 1 1 [AAA_record])
  /\ finished_store "2025-01-01T00:00:00.000Z" 2 [AAA_record]
       (redis (snd (runSnapshotJob demo_env two_tickers))).
Proof.
  apply (settled_run_result demo_env two_tickers ["AAA"; "BBB"]%string
           (Some TICKER_EXPIRY_TIME) demo_outcome).
  - intros n r. reflexivity.
  - reflexivity.
  - reflexivity.
  - reflexivity.
  - exact demo_settled.
Defined.

(** X20: what the routes read after such a run: [getSnapshot] returns the
    run's snapshot (an empty list, not absence, when nothing pays a
    dividend), [getJobStatus] returns "idle", and [getJobProgress] returns
    a record with the universe's size and the run's [startedAt]. *)
Theorem queries_after_a_settled_run
    (env : Env) (w : World) (tickers : list string) (ex : option Z)
    (outcome : string -> JsError + StockData) :
  quiet env ->
  fault (redis w) = None ->
  is_running (fst <$> db (redis w) !! JOB_STATUS_KEY) = false ->
  db (redis w) !! "tickers" = Some (PTickers tickers, ex) ->
  settled env outcome tickers ->
  fst (getSnapshot env (snd (runSnapshotJob env w)))
  = inr (Some (PSnapshot
                 (List.filter pays_dividend (successes outcome tickers))))
  /\ fst (getJobStatus env (snd (runSnapshotJob env w))) = inr (PText "idle")
  /\ exists p,
       fst (getJobProgress env (snd (runSnapshotJob env w)))
       = inr (Some (PProgress p))
       /\ total p = length tickers
       /\ startedAt p = Some (clock env (length (trace w) + 3)).
Proof.
  intros Hq Hup Hidle Htick Hset.
  destruct (ends_run_settled env Hq w tickers ex outcome Hup Hidle Htick Hset)
    as (_ & Hup' & Hsnap & Hstatus & p & Hp & Hs & Ht).
  set (w' := snd (runSnapshotJob env w)) in *.
  split; [|split].
  - unfold getSnapshot, bind.
    rewrite (redis_get_quiet env Hq _ _ Hup'), Hsnap. reflexivity.
  - unfold getJobStatus, bind.
    rewrite (redis_get_quiet env Hq _ _ Hup'), Hstatus. reflexivity.
  - exists p. unfold getJobProgress, bind.
    rewrite (redis_get_quiet env Hq _ _ Hup'), Hp. auto.
Qed.

Lemma queries_after_a_settled_run_witness :
  fst (getSnapshot demo_env (snd (runSnapshotJob demo_env two_tickers)))
  = inr (Some (PSnapshot [AAA_record]))
  /\ fst (getJobStatus demo_env (snd (runSnapshotJob demo_env two_tickers)))
     = inr (PText "idle").
Proof.
  destruct (queries_after_a_settled_run demo_env two_tickers
              ["AAA"; "BBB"]%string (Some TICKER_EXPIRY_TIME) demo_outcome)
    as (Hsnap & Hstatus & _).
  - intros n r. reflexivity.
  - reflexivity.
  - reflexivity.
  - reflexivity.
  - exact demo_settled.
  - split; [exact Hsnap | exact Hstatus].
Defined.

(** ** Runs that cannot do their work *)

Section BarrenRuns.

Variable env : Env.

Lemma yields_bind_app {A B} (m : M A) (k : A -> M B) (P : list Event -> Prop) :
  (forall evs1 evs2, P evs1 -> P evs2 -> P (evs1 ++ evs2)) ->
  yields m (fun _ evs => P evs) ->
  (forall a, yields (k a) (fun _ evs => P evs)) ->
  yields (bind m k) (fun _ evs => P evs).
Proof.
  intros Happ Hm Hk. eapply yields_bind; [exact Hm | auto |].
  intros a evs1 H1. eapply yields_weaken; [apply Hk|].
  intros r evs2 H2. now apply Happ.
Qed.

Lemma no_fetches_app (evs1 evs2 : list Event) :
  fetches evs1 = [] -> fetches evs2 = [] -> fetches (evs1 ++ evs2) = [].
Proof. intros H1 H2. now rewrite fetches_app, H1, H2. Qed.

Hypothesis Hkeyless : truthy (config_alphaVantageAPIKey env) = false.

(** Without the API key a fetch throws before it asks anybody. *)
Lemma fetchStockFundamentals_keyless (ticker : string) (w : World) :
  fetchStockFundamentals env ticker w
  = (inl (PlainError "ALPHA_VANTAGE_API_KEY environment variable not set"), w).
Proof. unfold fetchStockFundamentals. now rewrite Hkeyless. Qed.

Lemma process_ticker_keyless (ticker : string) (c f : nat)
    (snap : list StockData) (w : World) :
  process_ticker env ticker c f snap w = (inr (c, S f, snap), w).
Proof.
  unfold process_ticker, try_catch, bind.
  now rewrite fetchStockFundamentals_keyless.
Qed.

Lemma yields_no_fetch_get (key : string) :
  yields (redis_get env key) (fun _ evs => fetches evs = []).
Proof.
  eapply yields_weaken; [apply yields_redis_get|]. now intros r evs ->.
Qed.

Lemma yields_no_fetch_set (key : string) (v : Payload) (ex : option Z) :
  yields (redis_set env key v ex) (fun _ evs => fetches evs = []).
Proof.
  eapply yields_weaken; [apply yields_redis_set|]. now intros r evs ->.
Qed.

Lemma yields_job_loop_keyless (tot : nat) (tickers : list string) :
  forall (c f : nat) (snap : list StockData),
    yields (job_loop env tickers tot c f snap) (fun _ evs => fetches evs = []).
Proof.
  induction tickers as [|t rest IH]; intros c f snap; cbn [job_loop].
  - now apply yields_ret.
  - apply yields_bind_app;
      [exact no_fetches_app | apply yields_no_fetch_get |].
    intros status. destruct (negb (is_running status));
      [now apply yields_ret|].
    apply yields_bind_app; [exact no_fetches_app | |].
    { intros w. exists []. rewrite process_ticker_keyless. cbn.
      now rewrite app_nil_r. }
    intros [[c' f'] snap'].
    apply yields_bind_app; [exact no_fetches_app | |].
    { eapply yields_weaken; [apply yields_update_progress_keys|].
      now intros r evs (H & _). }
    intros _.
    apply yields_bind_app; [exact no_fetches_app | |].
    { eapply yields_weaken; [apply yields_sleep|]. now intros r evs (_ & ->). }
    intros _. apply IH.
Qed.

Lemma yields_run_keyless :
  yields (runSnapshotJob env) (fun _ evs => fetches evs = []).
Proof.
  unfold runSnapshotJob.
  apply yields_bind_app; [exact no_fetches_app | apply yields_no_fetch_get |].
  intros status. destruct (is_running status); [now apply yields_ret|].
  apply yields_bind_app; [exact no_fetches_app | |].
  { eapply yields_weaken; [apply yields_getAllTickers|]. now intros r evs ->. }
  intros tickers.
  apply yields_bind_app; [exact no_fetches_app | apply yields_no_fetch_set |].
  intros _.
  apply yields_bind_app; [exact no_fetches_app | |].
  { intros w. exists []. cbn. now rewrite app_nil_r. }
  intros started.
  apply yields_bind_app; [exact no_fetches_app | apply yields_no_fetch_set |].
  intros _.
  apply yields_bind_app;
    [exact no_fetches_app | apply yields_job_loop_keyless |].
  intros [|c f snap]; cbn [persist]; [now apply yields_ret|].
  apply yields_bind_app; [exact no_fetches_app | apply yields_no_fetch_set |].
  intros _.
  apply yields_bind_app; [exact no_fetches_app | apply yields_no_fetch_set |].
  intros _. now apply yields_ret.
Qed.

Lemma successes_none (e : JsError) (tickers : list string) :
  successes (fun _ => inl e) tickers = [].
Proof. induction tickers as [|t rest IH]; [reflexivity | exact IH]. Qed.

End BarrenRuns.

(** X21: without the API key the job still runs to the end.  With nobody
    else at the store, it makes no request at all, counts every ticker of
    the universe as failed, and replaces whatever snapshot there was by an
    empty one. *)
Theorem keyless_run_empties_the_snapshot
    (env : Env) (w : World) (tickers : list string) (ex : option Z) :
  truthy (config_alphaVantageAPIKey env) = false ->
  quiet env ->
  fault (redis w) = None ->
  is_running (fst <$> db (redis w) !! JOB_STATUS_KEY) = false ->
  db (redis w) !! "tickers" = Some (PTickers tickers, ex) ->
  fst (runSnapshotJob env w) = inr (JobDone 0 (length tickers) [])
  /\ stored (snd (runSnapshotJob env w)) SNAPSHOT_KEY
     = Some (PSnapshot [], Some SNAPSHOT_EXPIRY)
  /\ fetches (emitted (runSnapshotJob env) w) = [].
Proof.
  intros Hkey Hq Hup Hidle Htick.
  set (e := PlainError "ALPHA_VANTAGE_API_KEY environment variable not set").
  assert (Hset : settled env (fun _ => inl e) tickers).
  { intros t _ w0. now rewrite (fetchStockFundamentals_keyless env Hkey). }
  destruct (ends_run_settled env Hq w tickers ex _ Hup Hidle Htick Hset)
    as (Hres & _ & Hsnap & _).
  rewrite successes_none in Hres, Hsnap. cbn [length List.filter] in Hres, Hsnap.
  rewrite Nat.sub_0_r in Hres.
  split; [exact Hres|]. split; [exact Hsnap|].
  destruct (yields_run_keyless env Hkey w) as (evs & Htr & Hnone).
  now rewrite (emitted_spec _ _ _ Htr).
Qed.

Lemma keyless_run_empties_the_snapshot_witness :
  fst (runSnapshotJob (scenario_with demo_network demo_json no_sec no_int None)
         two_tickers)
  = inr (JobDone 0 2 [])
  /\ stored (snd (runSnapshotJob
                    (scenario_with demo_network demo_json no_sec no_int None)
                    two_tickers)) SNAPSHOT_KEY
     = Some (PSnapshot [], Some SNAPSHOT_EXPIRY)
  /\ fetches (emitted (runSnapshotJob
                         (scenario_with demo_network demo_json no_sec no_int None))
                two_tickers)
     = [].
Proof.
  apply (keyless_run_empties_the_snapshot
           (scenario_with demo_network demo_json no_sec no_int None)
           two_tickers ["AAA"; "BBB"]%string (Some TICKER_EXPIRY_TIME)).
  - reflexivity.
  - intros n r. reflexivity.
  - reflexivity.
  - reflexivity.
  - reflexivity.
Defined.

(** X22: when the universe is not in the store, the job throws before it
    writes anything, so the status it found stays as it was; the task of
    the trigger route then sets the status to "failed", which is what
    [getJobStatus] returns afterwards. *)
Theorem missing_universe_fails_the_run (env : Env) (w : World) :
  quiet env ->
  fault (redis w) = None ->
  is_running (fst <$> db (redis w) !! JOB_STATUS_KEY) = false ->
  db (redis w) !! "tickers" = None ->
  fst (runSnapshotJob env w)
  = inl (PlainError ("Tickers not in cache. Run fetcher(" ++ dquote
                     ++ "tickers" ++ dquote ++ ", ...) first.")%string)
  /\ emitted (runSnapshotJob env) w = [EGet JOB_STATUS_KEY; EGet "tickers"]
  /\ redis (snd (runSnapshotJob env w)) = redis w
  /\ fst (getJobStatus env (snd (triggered_run env w))) = inr (PText "failed").
Proof.
  intros Hq Hup Hidle Hmiss.
  assert (Hrun : runSnapshotJob env w
                 = (inl (PlainError ("Tickers not in cache. Run fetcher("
                                     ++ dquote ++ "tickers" ++ dquote
                                     ++ ", ...) first.")%string),
                    {| redis := redis w;
                       trace := (trace w ++ [EGet JOB_STATUS_KEY])
                                ++ [EGet "tickers"] |})).
  { unfold runSnapshotJob. unfold bind at 1.
    rewrite (redis_get_quiet env Hq _ _ Hup), Hidle.
    unfold bind at 1. unfold getAllTickers. unfold bind at 1.
    rewrite (redis_get_quiet env Hq) by exact Hup. cbn [redis].
    rewrite Hmiss. reflexivity. }
  split; [now rewrite Hrun|]. split.
  { apply emitted_spec. rewrite Hrun. cbn [snd trace].
    now rewrite <- app_assoc. }
  split; [now rewrite Hrun|].
  unfold triggered_run, try_catch, bind at 1. rewrite Hrun.
  rewrite (redis_set_quiet env Hq) by exact Hup. cbn [snd].
  unfold getJobStatus, bind.
  rewrite (redis_get_quiet env Hq) by reflexivity. cbn [redis db fst].
  rewrite lookup_insert_eq. reflexivity.
Qed.

Lemma missing_universe_fails_the_run_witness :
  emitted (runSnapshotJob demo_env) empty_world
  = [EGet JOB_STATUS_KEY; EGet "tickers"]
  /\ fst (getJobStatus demo_env (snd (triggered_run demo_env empty_world)))
     = inr (PText "failed").
Proof.
  destruct (missing_universe_fails_the_run demo_env empty_world)
    as (_ & Hemit & _ & Hfailed).
  - intros n r. reflexivity.
  - reflexivity.
  - reflexivity.
  - reflexivity.
  - split; [exact Hemit | exact Hfailed].
Defined.

(** X23: the start guard.  When the first read finds the status
    "running", the run does nothing else: no other read, no write, no
    request. *)
Theorem running_status_skips_the_run (env : Env) (w : World) (ex : option Z) :
  fault (observed env w) = None ->
  db (observed env w) !! JOB_STATUS_KEY = Some (PText "running", ex) ->
  runSnapshotJob env w = (inr JobSkipped, after env w (EGet JOB_STATUS_KEY)).
Proof.
  intros Hup Hrun. unfold runSnapshotJob, bind.
  rewrite redis_get_run, Hup, Hrun. reflexivity.
Qed.

Lemma running_status_skips_the_run_witness :
  runSnapshotJob demo_env job_running
  = (inr JobSkipped, after demo_env job_running (EGet JOB_STATUS_KEY)).
Proof.
  apply (running_status_skips_the_run demo_env job_running None); reflexivity.
Defined.

(** ** The routes *)

Section RouteFacts.

Variable env : Env.

(** X24: GET /api/stocks/:ticker always answers, whatever the ticker, the
    store and the network do, with one of five status codes; 200 comes
    with the data, every other code with an error object. *)
Theorem route_stock_always_replies (ticker : string) (w : World) :
  exists reply,
    fst (route_stock env ticker w) = inr reply
    /\ In (code reply) [200; 404; 429; 500; 503]%Z
    /\ (code reply = 200%Z -> exists data, sent reply = RSuccess data)
    /\ (code reply <> 200%Z -> exists error msg, sent reply = RError error msg).
Proof.
  assert (H500 : forall error msg,
             In (code (mkReply 500 (RError error msg))) [200; 404; 429; 500; 503]%Z
             /\ (code (mkReply 500 (RError error msg)) = 200%Z ->
                 exists data, sent (mkReply 500 (RError error msg)) = RSuccess data)
             /\ (code (mkReply 500 (RError error msg)) <> 200%Z ->
                 exists error' msg',
                   sent (mkReply 500 (RError error msg)) = RError error' msg')).
  { intros error msg. cbn. split; [tauto|]. split; [discriminate|]. eauto. }
  assert (H200 : forall data,
             In (code (mkReply 200 (RSuccess data))) [200; 404; 429; 500; 503]%Z
             /\ (code (mkReply 200 (RSuccess data)) = 200%Z ->
                 exists data', sent (mkReply 200 (RSuccess data)) = RSuccess data')
             /\ (code (mkReply 200 (RSuccess data)) <> 200%Z ->
                 exists error' msg',
                   sent (mkReply 200 (RSuccess data)) = RError error' msg')).
  { intros data. cbn. split; [tauto|]. split; [eauto|]. congruence. }
  unfold route_stock, try_catch, bind.
  destruct (fetcher env ticker w) as [[e|v] w1];
    [eexists; split; [reflexivity | apply H500]|].
  destruct v as [s|l|d|l|p|error msg]; cbn [JSON_parse lift throw ret];
    try (eexists; split; [reflexivity | first [apply H500 | apply H200]]).
  destruct (error =? "")%string; cbn [negb];
    [eexists; split; [reflexivity | apply H200]|].
  eexists. split; [reflexivity|]. unfold statusCode. cbn [code sent].
  destruct (error =? "RATE_LIMIT")%string;
    [|destruct (error =? "VALIDATION_ERROR")%string;
      [|destruct (error =? "NETWORK_ERROR")%string]];
    (split; [cbn; tauto|]); (split; [discriminate | eauto]).
Qed.

(** X25: from the fetch to the status code.  On a miss whose fundamentals
    fetch throws, the route answers 429 for a [RateLimitError], 404 with
    the error's own message for a [ValidationError], 503 for a
    [NetworkError], and 500 for anything else. *)
Theorem route_stock_maps_fetch_errors (key : string) (w : World) (e : JsError) :
  key <> ""%string ->
  key <> "tickers"%string ->
  fault (observed env w) = None ->
  db (observed env w) !! key = None ->
  fst (fetchStockFundamentals env key (after env w (EGet key))) = inl e ->
  fst (route_stock env key w)
  = inr (match eclass e with
         | IsRateLimitError =>
             mkReply 429
               (RError "RATE_LIMIT"
                  "API rate limit exceeded. Please try again later.")
         | IsValidationError =>
             mkReply 404 (RError "VALIDATION_ERROR" (message e))
         | IsNetworkError =>
             mkReply 503
               (RError "NETWORK_ERROR"
                  "Network error occurred. Please try again.")
         | IsOtherError =>
             mkReply 500
               (RError "UNKNOWN_ERROR" "An unexpected error occurred.")
         end).
Proof.
  intros Hkey Htick Hup Hmiss Hfetch.
  unfold route_stock, try_catch, bind.
  rewrite (fetcher_on_miss env key w Hkey Htick Hup Hmiss).
  destruct (fetchStockFundamentals env key (after env w (EGet key)))
    as [[e'|d] w1]; cbn [fst] in Hfetch; [|discriminate].
  injection Hfetch as ->.
  unfold fetcher_catch, is_RateLimitError, is_ValidationError, is_NetworkError.
  destruct (eclass e); reflexivity.
Qed.

Section SearchFacts.

Variable toUpperCase : string -> string.
Variable trim : string -> string.
Variable parseInt10 : string -> option Z.

(** X26: what a search returns.  Every ticker found starts with the
    upper-cased, trimmed query, and the tickers found are a part of the
    universe in its order.  A limit that parses to a number from 0 up
    bounds their count by that number and by 100; a limit that does not
    parse gives no ticker at all; a negative limit is not a bound: it
    drops that many matches from the end and returns all the others. *)
Theorem matchingTickers_spec (allTickers : list string) (q limit : string) :
  Forall (fun t => String.prefix (trim (toUpperCase q)) t = true)
         (matchingTickers toUpperCase trim parseInt10 allTickers q limit)
  /\ matchingTickers toUpperCase trim parseInt10 allTickers q limit `sublist_of` allTickers
  /\ (forall n, parseInt10 limit = Some n -> (0 <= n)%Z ->
        length (matchingTickers toUpperCase trim parseInt10 allTickers q limit) <= Z.to_nat (Z.min n 100))
  /\ (parseInt10 limit = None -> matchingTickers toUpperCase trim parseInt10 allTickers q limit = [])
  /\ (forall n, parseInt10 limit = Some n -> (n < 0)%Z ->
        length (matchingTickers toUpperCase trim parseInt10 allTickers q limit)
        = length (filter (fun t => String.prefix (trim (toUpperCase q)) t = true)
                         allTickers)
          - Z.to_nat (- n)).
Proof.
  unfold matchingTickers.
  set (found := filter _ allTickers).
  assert (Hfound : Forall (fun t => String.prefix (trim (toUpperCase q)) t = true)
                          found).
  { apply Forall_forall. intros t Ht.
    apply list_elem_of_filter in Ht. tauto. }
  assert (Hsub : found `sublist_of` allTickers) by apply sublist_filter.
  destruct (parseInt10 limit) as [n|]; cbn [fmap option_fmap option_map slice_to].
  - assert (Htake : forall k, take k found `sublist_of` allTickers).
    { intros k. etransitivity; [apply sublist_take | exact Hsub]. }
    destruct (Z.ltb_spec (Z.min n 100) 0) as [Hneg|Hpos].
    + repeat split; auto using Forall_take; try discriminate.
      * intros n' Hn' Hle. injection Hn' as <-. lia.
      * intros n' Hn' Hlt. injection Hn' as <-.
        rewrite length_take. replace (Z.min n 100) with n by lia. lia.
    + repeat split; auto using Forall_take; try discriminate.
      * intros n' Hn' Hle. injection Hn' as <-. rewrite length_take. lia.
      * intros n' Hn' Hlt. injection Hn' as <-. lia.
  - repeat split; try discriminate; try constructor.
    apply sublist_nil_l.
Qed.

(** X27: the search route's answers.  Without a query it answers 400 and
    touches nothing.  With one, and the universe in the store, it answers
    200 with the matches and their count after a single read of the store.
    With the store out of reach it answers 500: [fetcher] has turned the
    failure into an error object, on which the filter cannot run. *)
Theorem route_search_replies (q limit : option string) (w : World) :
  (truthy q = false ->
   route_search env toUpperCase trim parseInt10 q limit w
   = (inr (mkReply 400
             (RError "VALIDATION_ERROR"
                ("Query parameter " ++ dquote ++ "q" ++ dquote
                 ++ " is required")%string)), w))
  /\ (forall l ex,
        truthy q = true ->
        fault (observed env w) = None ->
        db (observed env w) !! "tickers" = Some (PTickers l, ex) ->
        route_search env toUpperCase trim parseInt10 q limit w
        = (inr (mkReply 200
                  (RMatches
                     (matchingTickers toUpperCase trim parseInt10 l (default ""%string q) (default "50"%string limit))
                     (length (matchingTickers toUpperCase trim parseInt10 l (default ""%string q)
                                (default "50"%string limit))))),
           after env w (EGet "tickers")))
  /\ (forall f,
        truthy q = true ->
        fault (observed env w) = Some f ->
        route_search env toUpperCase trim parseInt10 q limit w
        = (inr (mkReply 500
                  (RError "INTERNAL_ERROR" "Failed to search tickers")),
           after env w (EGet "tickers"))).
Proof.
  repeat split.
  - intros Hq. unfold route_search, try_catch. rewrite Hq. reflexivity.
  - intros l ex Hq Hup Hhit. unfold route_search, try_catch, bind.
    rewrite Hq. cbn [negb].
    rewrite (fetcher_cache_hit env "tickers" w (PTickers l) ex);
      try assumption; try reflexivity. discriminate.
  - intros f Hq Hdown. unfold route_search, try_catch, bind at 1.
    rewrite Hq. cbn [negb].
    unfold fetcher, try_catch, bind at 1. cbn [String.eqb].
    rewrite redis_get_run, Hdown. reflexivity.
Qed.

End SearchFacts.

End RouteFacts.

Lemma route_stock_maps_fetch_errors_witness :
  fst (route_stock demo_env "BBB" empty_world)
  = inr (mkReply 404 (RError "VALIDATION_ERROR" "Invalid ticker symbol: BBB")).
Proof.
  apply (route_stock_maps_fetch_errors demo_env "BBB" empty_world
           (ValidationError "Invalid ticker symbol: BBB")).
  - discriminate.
  - discriminate.
  - reflexivity.
  - reflexivity.
  - reflexivity.
Defined.

Lemma matchingTickers_spec_witness :
  matchingTickers upper_ascii_string (fun s => s) decimal_limit
    ["AAA"; "AAB"; "ABC"; "BBB"]%string "aa" "50"
  = ["AAA"; "AAB"]%string
  /\ length (matchingTickers upper_ascii_string (fun s => s) decimal_limit
               ["AAA"; "AAB"; "ABC"; "BBB"]%string "a" "2") <= 2
  /\ matchingTickers upper_ascii_string (fun s => s) decimal_limit
       ["AAA"; "AAB"; "ABC"; "BBB"]%string "a" "-1"
     = ["AAA"; "AAB"]%string.
Proof.
  split; [reflexivity|]. split; [|reflexivity].
  destruct (matchingTickers_spec upper_ascii_string (fun s => s) decimal_limit
              ["AAA"; "AAB"; "ABC"; "BBB"]%string "a" "2")
    as (_ & _ & Hbound & _).
  apply (Hbound 2%Z); [reflexivity | lia].
Defined.

Lemma route_search_replies_witness :
  route_search demo_env upper_ascii_string (fun s => s) decimal_limit
    (Some "a"%string) None two_tickers
  = (inr (mkReply 200 (RMatches ["AAA"]%string 1)),
     after demo_env two_tickers (EGet "tickers"))
  /\ route_search demo_env upper_ascii_string (fun s => s) decimal_limit
       (Some "a"%string) None unreachable
     = (inr (mkReply 500 (RError "INTERNAL_ERROR" "Failed to search tickers")),
        after demo_env unreachable (EGet "tickers")).
Proof.
  destruct (route_search_replies demo_env upper_ascii_string (fun s => s)
              decimal_limit (Some "a"%string) None two_tickers)
    as (_ & Hhit & _).
  destruct (route_search_replies demo_env upper_ascii_string (fun s => s)
              decimal_limit (Some "a"%string) None unreachable)
    as (_ & _ & Hdown).
  split.
  - apply (Hhit ["AAA"; "BBB"]%string (Some TICKER_EXPIRY_TIME)); reflexivity.
  - apply (Hdown ("Error", "connect ECONNREFUSED")%string); reflexivity.
Defined.

(** ** Store failures are passed on *)

Section PassingOn.

Variable env : Env.

Lemma trace_replay (w : World) (evs : list Event) :
  trace (replay env w evs) = trace w ++ evs.
Proof.
  revert w. induction evs as [|e evs IH]; intros w; cbn.
  - now rewrite app_nil_r.
  - unfold replay in IH. rewrite IH.
    assert (He : trace (effect env w e) = trace w ++ [e]).
    { unfold effect. destruct e, (fault (observed env w)); reflexivity. }
    rewrite He. now rewrite <- app_assoc.
Qed.

Lemma replay_app (w : World) (evs1 evs2 : list Event) :
  replay env (replay env w evs1) evs2 = replay env w (evs1 ++ evs2).
Proof. unfold replay. now rewrite fold_left_app. Qed.

Lemma replay_client (w : World) (evs : list Event) :
  forallb is_client_event evs = true ->
  replay env w evs = advance env w evs.
Proof.
  revert w. induction evs as [|e evs IH]; intros w Hc; [reflexivity|].
  cbn in Hc. apply andb_true_iff in Hc as [He Hc].
  cbn. unfold replay, advance in IH. rewrite <- (IH _ Hc).
  destruct e; try discriminate; reflexivity.
Qed.

(** It is enough to name the events of the run. *)
Lemma passes_on_at {A} (m : M A) (w : World) (evs : list Event) :
  snd (m w) = replay env w evs ->
  (forall i e f,
     evs !! i = Some e ->
     store_refuses env (replay env w (take i evs)) e f ->
     fst (m w) = inl (redis_error f) /\ length evs = S i) ->
  snd (m w) = replay env w (emitted m w)
  /\ forall i e f,
       emitted m w !! i = Some e ->
       store_refuses env (replay env w (take i (emitted m w))) e f ->
       fst (m w) = inl (redis_error f) /\ length (emitted m w) = S i.
Proof.
  intros Hw Hpass.
  assert (Hevs : emitted m w = evs).
  { apply emitted_spec. rewrite Hw. apply trace_replay. }
  rewrite Hevs. split; assumption.
Qed.

Lemma passes_on_silent {A} (m : M A) :
  (forall w, snd (m w) = w) -> passes_on env m.
Proof.
  intros Hm w. apply (passes_on_at m w []); [apply Hm|].
  intros i e f Hi. discriminate.
Qed.

Lemma passes_on_ret {A} (a : A) : passes_on env (ret a).
Proof. now apply passes_on_silent. Qed.

Lemma passes_on_throw {A} (e : JsError) : passes_on env (@throw A e).
Proof. now apply passes_on_silent. Qed.

Lemma passes_on_lift {A} (r : JsError + A) : passes_on env (lift r).
Proof. destruct r; [apply passes_on_throw | apply passes_on_ret]. Qed.

Lemma passes_on_Date_now_ISO : passes_on env (Date_now_ISO env).
Proof. now apply passes_on_silent. Qed.

Lemma passes_on_bind {A B} (m : M A) (k : A -> M B) :
  passes_on env m ->
  (forall a, passes_on env (k a)) ->
  passes_on env (bind m k).
Proof.
  intros Hm Hk w. destruct (Hm w) as [Hw1 H1].
  remember (emitted m w) as evs1 eqn:E1. clear E1.
  destruct (m w) as [[err|a] w1] eqn:Em; cbn [fst snd] in Hw1, H1.
  - apply (passes_on_at (bind m k) w evs1); unfold bind; rewrite Em;
      [exact Hw1|].
    intros i e f Hi Href. destruct (H1 i e f Hi Href) as [Herr Hlen].
    injection Herr as ->. split; [reflexivity | exact Hlen].
  - destruct (Hk a w1) as [Hw2 H2].
    remember (emitted (k a) w1) as evs2 eqn:E2. clear E2.
    apply (passes_on_at (bind m k) w (evs1 ++ evs2)).
    + unfold bind. rewrite Em, Hw2, Hw1. apply replay_app.
    + unfold bind. rewrite Em. intros i e f Hi Href.
      destruct (Nat.lt_ge_cases i (length evs1)) as [Hlt|Hge].
      * rewrite lookup_app_l in Hi by exact Hlt.
        rewrite take_app_le in Href by lia.
        destruct (H1 i e f Hi Href) as [Hbad _]. discriminate.
      * rewrite lookup_app_r in Hi by exact Hge.
        rewrite take_app_ge in Href by exact Hge.
        rewrite <- replay_app, <- Hw1 in Href.
        destruct (H2 _ e f Hi Href) as [Hres Hlen].
        split; [exact Hres|]. rewrite length_app, Hlen. lia.
Qed.

Lemma passes_on_client_only {A} (m : M A) :
  client_only env m -> passes_on env m.
Proof.
  intros Hm w. destruct (Hm w) as (evs & Hc & Hw).
  apply (passes_on_at m w evs).
  - rewrite Hw. symmetry. now apply replay_client.
  - intros i e f Hi [Hcmd _].
    rewrite forallb_forall in Hc.
    assert (He : is_client_event e = true).
    { apply Hc. apply list_elem_of_In. eapply list_elem_of_lookup_2, Hi. }
    destruct e; discriminate.
Qed.

Lemma passes_on_sleep (ms : option Z) : passes_on env (sleep env ms).
Proof. apply passes_on_client_only, client_only_sleep. Qed.

Lemma passes_on_redis_get (key : string) : passes_on env (redis_get env key).
Proof.
  intros w. apply (passes_on_at _ w [EGet key]).
  - rewrite redis_get_run. destruct (fault (observed env w)); reflexivity.
  - intros [|i] e f Hi [_ Hdown]; [|destruct i; discriminate].
    cbn in Hdown. rewrite redis_get_run, Hdown. split; reflexivity.
Qed.

Lemma passes_on_redis_set (key : string) (v : Payload) (ex : option Z) :
  passes_on env (redis_set env key v ex).
Proof.
  intros w. apply (passes_on_at _ w [ESet key v ex]).
  - rewrite redis_set_run. cbn. unfold effect.
    destruct (fault (observed env w)); reflexivity.
  - intros [|i] e f Hi [_ Hdown]; [|destruct i; discriminate].
    cbn in Hdown. rewrite redis_set_run, Hdown. split; reflexivity.
Qed.

(** A handler without effects turns the store's error into its own
    answer, and the refused command is still the last effect. *)
Lemma passes_on_caught {A} (m : M A) (handler : JsError -> M A)
    (answer : JsError -> A) :
  passes_on env m ->
  (forall err w, handler err w = (inr (answer err), w)) ->
  forall w i e f,
    emitted (try_catch m handler) w !! i = Some e ->
    store_refuses env
      (replay env w (take i (emitted (try_catch m handler) w))) e f ->
    fst (try_catch m handler w) = inr (answer (redis_error f))
    /\ length (emitted (try_catch m handler) w) = S i.
Proof.
  intros Hm Hh w i e f.
  destruct (Hm w) as [_ H1].
  assert (Hsame : emitted (try_catch m handler) w = emitted m w).
  { unfold emitted, try_catch. destruct (m w) as [[err|a] w1]; [|reflexivity].
    now rewrite Hh. }
  rewrite Hsame. intros Hi Href.
  destruct (H1 i e f Hi Href) as [Hres Hlen]. split; [|exact Hlen].
  unfold try_catch. destruct (m w) as [[err|a] w1]; cbn [fst] in Hres;
    [|discriminate].
  injection Hres as ->. now rewrite Hh.
Qed.

Create HintDb passing discriminated.
#[local] Hint Resolve passes_on_ret passes_on_throw passes_on_lift
  passes_on_Date_now_ISO passes_on_sleep passes_on_redis_get
  passes_on_redis_set : passing.

(** Walks through binds and branches; a [try]/[catch] is not walked
    through: it has to be shown free of store commands. *)
Ltac passing_walk :=
  repeat first
    [ solve [auto with passing]
    | apply passes_on_bind; [|intros ?]
    | match goal with
      | |- passes_on _ (if ?c then _ else _) => destruct c
      | |- passes_on _ (match ?x with _ => _ end) => destruct x
      end ].

Lemma passes_on_getAllTickers : passes_on env (getAllTickers env).
Proof. unfold getAllTickers. passing_walk. Qed.

Lemma passes_on_checkpoint (total completed failed : nat) :
  passes_on env (checkpoint env total completed failed).
Proof. unfold checkpoint. passing_walk. Qed.

Lemma passes_on_update_progress (total completed failed : nat) :
  passes_on env (update_progress env total completed failed).
Proof.
  unfold update_progress.
  destruct ((completed mod 50 =? 0)%nat || (completed =? total)%nat);
    [apply passes_on_checkpoint | apply passes_on_ret].
Qed.

(** The one [try]/[catch] of the job holds no store command. *)
Lemma passes_on_process_ticker (ticker : string) (c f : nat)
    (snap : list StockData) :
  passes_on env (process_ticker env ticker c f snap).
Proof.
  apply passes_on_client_only. unfold process_ticker.
  apply client_only_try_catch.
  - apply client_only_bind; [apply client_only_fetchStockFundamentals|].
    intros data. apply client_only_ret.
  - intros err. apply client_only_ret.
Qed.

#[local] Hint Resolve passes_on_getAllTickers passes_on_update_progress
  passes_on_process_ticker : passing.

Lemma passes_on_job_loop (tickers : list string) :
  forall total c f snap, passes_on env (job_loop env tickers total c f snap).
Proof.
  induction tickers as [|ticker rest IH]; intros total c f snap;
    cbn [job_loop]; [apply passes_on_ret|].
  apply passes_on_bind; [apply passes_on_redis_get|]. intros status.
  destruct (negb (is_running status)); [apply passes_on_ret|].
  apply passes_on_bind; [apply passes_on_process_ticker|].
  intros [[c' f'] snap'].
  apply passes_on_bind; [apply passes_on_update_progress|]. intros _.
  apply passes_on_bind; [apply passes_on_sleep|]. intros _.
  apply IH.
Qed.

Lemma passes_on_persist (r : LoopEnd) : passes_on env (persist env r).
Proof. unfold persist. passing_walk. Qed.

Lemma passes_on_runSnapshotJob : passes_on env (runSnapshotJob env).
Proof.
  unfold runSnapshotJob.
  apply passes_on_bind; [apply passes_on_redis_get|]. intros status.
  destruct (is_running status); [apply passes_on_ret|].
  apply passes_on_bind; [apply passes_on_getAllTickers|]. intros tickers.
  apply passes_on_bind; [apply passes_on_redis_set|]. intros _.
  apply passes_on_bind; [apply passes_on_Date_now_ISO|]. intros started.
  apply passes_on_bind; [apply passes_on_redis_set|]. intros _.
  apply passes_on_bind; [apply passes_on_job_loop | apply passes_on_persist].
Qed.

Lemma passes_on_fetcher_miss (key : string) :
  passes_on env (fetcher_miss env key).
Proof.
  unfold fetcher_miss. destruct (key =? "tickers")%string.
  all: apply passes_on_bind;
    [apply passes_on_client_only;
     first [apply client_only_fetchTickers
           | apply client_only_fetchStockFundamentals]
    | intros ?; passing_walk].
Qed.

(** C4, amended: whenever the store refuses a command, GET or SET, at
    whatever point of the run (the start guard, the read of the universe,
    the status and progress writes, the cancellation check and the
    checkpoints of the loop, the two final writes), [runSnapshotJob]
    rejects at once with the store's error; [getJobStatus],
    [getJobProgress], [getSnapshot] and [cancelJob] pass it on likewise.
    The cached fetcher does not: whether it is its GET or its SET that the
    store refuses, it catches the error and returns the "UNKNOWN_ERROR"
    payload as an ordinary value. *)
Theorem store_failure_passed_on_except_by_fetcher :
  passes_on env (runSnapshotJob env)
  /\ passes_on env (getJobStatus env)
  /\ passes_on env (getJobProgress env)
  /\ passes_on env (getSnapshot env)
  /\ passes_on env (cancelJob env)
  /\ forall key w i e f,
       emitted (fetcher env key) w !! i = Some e ->
       store_refuses env
         (replay env w (take i (emitted (fetcher env key) w))) e f ->
       fst (fetcher env key w)
       = inr (PErrorBody "UNKNOWN_ERROR" "An unexpected error occurred.")
       /\ length (emitted (fetcher env key) w) = S i.
Proof.
  split; [apply passes_on_runSnapshotJob|].
  split; [unfold getJobStatus; passing_walk|].
  split; [unfold getJobProgress, JSON_parse; passing_walk|].
  split; [unfold getSnapshot, JSON_parse; passing_walk|].
  split; [unfold cancelJob; passing_walk|].
  intros key w i e f.
  unfold fetcher.
  apply (passes_on_caught _ fetcher_catch
           (fun err =>
              if is_RateLimitError err then
                PErrorBody "RATE_LIMIT"
                  "API rate limit exceeded. Please try again later."
              else if is_ValidationError err then
                PErrorBody "VALIDATION_ERROR" (message err)
              else if is_NetworkError err then
                PErrorBody "NETWORK_ERROR"
                  "Network error occurred. Please try again."
              else PErrorBody "UNKNOWN_ERROR" "An unexpected error occurred.")).
  - destruct (key =? "")%string; [apply passes_on_throw|].
    apply passes_on_bind; [apply passes_on_redis_get|].
    intros [v|]; [|apply passes_on_fetcher_miss].
    destruct (truthy_payload v);
      [apply passes_on_ret | apply passes_on_fetcher_miss].
  - intros err w0. unfold fetcher_catch.
    destruct (is_RateLimitError err), (is_ValidationError err),
      (is_NetworkError err); reflexivity.
Qed.

End PassingOn.

Lemma store_failure_passed_on_except_by_fetcher_witness :
  (fst (runSnapshotJob (outage 4) two_tickers)
   = inl (mkError IsOtherError "Error" "Socket closed unexpectedly")
   /\ length (emitted (runSnapshotJob (outage 4)) two_tickers) = 5)
  /\ (fst (runSnapshotJob (outage 10) two_tickers)
      = inl (mkError IsOtherError "Error" "Socket closed unexpectedly")
      /\ length (emitted (runSnapshotJob (outage 10)) two_tickers) = 11)
  /\ (fst (fetcher (outage 2) "AAA" two_tickers)
      = inr (PErrorBody "UNKNOWN_ERROR" "An unexpected error occurred.")
      /\ length (emitted (fetcher (outage 2) "AAA") two_tickers) = 3).
Proof.
  split; [|split].
  - destruct (store_failure_passed_on_except_by_fetcher (outage 4))
      as (Hjob & _).
    destruct (Hjob two_tickers) as [_ Hpass].
    apply (Hpass 4 (EGet JOB_STATUS_KEY) ("Error", "Socket closed unexpectedly"));
      [reflexivity | split; reflexivity].
  - destruct (store_failure_passed_on_except_by_fetcher (outage 10))
      as (Hjob & _).
    destruct (Hjob two_tickers) as [_ Hpass].
    apply (Hpass 10 (ESet SNAPSHOT_KEY (PSnapshot [AAA_record])
                       (Some SNAPSHOT_EXPIRY))
             ("Error", "Socket closed unexpectedly"));
      [reflexivity | split; reflexivity].
  - destruct (store_failure_passed_on_except_by_fetcher (outage 2))
      as (_ & _ & _ & _ & _ & Hfetcher).
    apply (Hfetcher "AAA" two_tickers 2
             (ESet "AAA" (PStock AAA_record) (Some STOCK_DATA_EXPIRY_TIME))
             ("Error", "Socket closed unexpectedly"));
      [reflexivity | split; reflexivity].
Defined.
